(** * str2quantity: the unit registry and the generic parsing engine

    A shallow embedding of [unit/dimension.go], [unit/unit.go],
    [unit/system.go] and [parser/parser.go], with the properties of the
    registry ([Resolve], [AddPrefix], [Clone], [OverwritePrefix]) and of the
    parser ([Parse]) that the specification states.

    Go strings are byte sequences: they are [string]s here (lists of 8-bit
    [ascii]).  [float64] is the kernel's binary64 [float], so products, sums
    and comparisons are the IEEE ones the Go program computes.  Go maps are
    [gmap]s, slices are lists. *)

From Stdlib Require Import ZArith Lia List Permutation Sorted Ascii String Floats.
From Stdlib Require Import DecimalString DecimalZ DecimalPos.
From stdpp Require Import base gmap strings list.

Open Scope string_scope.
Open Scope list_scope.
#[global] Set Warnings "-inexact-float,-clear-no-such-hyp".

(** ** Package unit: dimensions, units, prefixes *)

(** [type Dimension struct { L, M, T, I, K, N, J int; Extra string }] *)
Record Dimension := mkDimension {
  Dimension_L : Z; Dimension_M : Z; Dimension_T : Z; Dimension_I : Z;
  Dimension_K : Z; Dimension_N : Z; Dimension_J : Z;
  Dimension_Extra : string }.

#[global] Instance Dimension_eq_dec : EqDecision Dimension.
Proof. solve_decision. Defined.

(** [func (d Dimension) Equals(other Dimension) bool { return d == other }]:
    Go's [==] on a struct compares it field by field. *)
Definition Equals (d other : Dimension) : bool :=
  Z.eqb (Dimension_L d) (Dimension_L other) &&
  Z.eqb (Dimension_M d) (Dimension_M other) &&
  Z.eqb (Dimension_T d) (Dimension_T other) &&
  Z.eqb (Dimension_I d) (Dimension_I other) &&
  Z.eqb (Dimension_K d) (Dimension_K other) &&
  Z.eqb (Dimension_N d) (Dimension_N other) &&
  Z.eqb (Dimension_J d) (Dimension_J other) &&
  String.eqb (Dimension_Extra d) (Dimension_Extra other).

Definition DimDimensionless : Dimension := mkDimension 0 0 0 0 0 0 0 "".
Definition DimTime : Dimension := mkDimension 0 0 1 0 0 0 0 "".
Definition DimLength : Dimension := mkDimension 1 0 0 0 0 0 0 "".
Definition DimMass : Dimension := mkDimension 0 1 0 0 0 0 0 "".
Definition DimTemp : Dimension := mkDimension 0 0 0 0 1 0 0 "".
Definition DimCurrent : Dimension := mkDimension 0 0 0 1 0 0 0 "".
Definition DimAmount : Dimension := mkDimension 0 0 0 0 0 1 0 "".
Definition DimLuminous : Dimension := mkDimension 0 0 0 0 0 0 1 "".
Definition DimStorage : Dimension := mkDimension 0 0 0 0 0 0 0 "storage".

(** [type Unit struct { Symbol string; Dimension Dimension; Scale float64 }] *)
Record Unit := mkUnit {
  Unit_Symbol : string;
  Unit_Dimension : Dimension;
  Unit_Scale : float }.

(** [type Prefix struct { Symbol string; Scale float64 }] *)
Record Prefix := mkPrefix {
  Prefix_Symbol : string;
  Prefix_Scale : float }.

(** The zero values [Unit{}] and [Dimension{}]. *)
Definition zeroUnit : Unit := mkUnit "" DimDimensionless 0%float.

(** [type SystemConfig struct] *)
Record SystemConfig := mkSystemConfig {
  AllowMultiPart : bool;
  CaseInsensitive : bool;
  Separators : string }.

(** [type System struct]: the registry, as a value.  (The store of shared
    maps and slices behind [*System] is modelled in module [Store] below.) *)
Record System := mkSystem {
  units : gmap string Unit;
  prefixes : list Prefix;
  Config : SystemConfig;
  unitPrefixes : gmap string (gmap string bool) }.

(** ** The Go standard library functions the code calls

    [strings.ToLower], [sort.Slice] and [strconv.ParseFloat] are not code of
    this repository.  The embedding takes them as an interface; what a
    theorem needs of them it states as a hypothesis.  [goModel] below is an
    executable instance. *)
Class GoStd := {
  (** [strings.ToLower] *)
  ToLower : string -> string;
  (** [sort.Slice(s, less)] on a slice of prefixes, [less] on elements *)
  SortSlice : (Prefix -> Prefix -> bool) -> list Prefix -> list Prefix;
  (** [strconv.ParseFloat(s, 64)]: [None] when it returns an error *)
  ParseFloat : string -> option float }.

(** The closure given to [sort.Slice] in [AddPrefix]:
    [len(s.prefixes[i].Symbol) > len(s.prefixes[j].Symbol)]. *)
Definition longerSymbol (a b : Prefix) : bool :=
  Nat.ltb (String.length (Prefix_Symbol b)) (String.length (Prefix_Symbol a)).

(** What [sort.Slice] promises for that closure: the slice is permuted, and
    afterwards no later element is [less] than an earlier one.  (It is not
    stable: the order of prefixes of equal length is not promised.) *)
Definition byDescendingLength (ps : list Prefix) : Prop :=
  StronglySorted
    (fun a b => String.length (Prefix_Symbol b) <= String.length (Prefix_Symbol a)) ps.

Definition SortSliceSpec `{GoStd} : Prop :=
  forall ps, Permutation (SortSlice longerSymbol ps) ps /\
             byDescendingLength (SortSlice longerSymbol ps).

(** Errors of the registry's construction operations (the [fmt.Errorf]
    messages, with their argument). *)
Inductive RegistryError :=
| ErrPrefixConflict (prefixSymbol : string)
    (* "prefix %s already defined with different scale" *)
| ErrUnknownTargetUnit (uSymbol : string)
    (* "cannot bind prefix to unknown unit: %s" *)
| ErrPrefixNotFound (symbol : string).
    (* "prefix %s not found in system, use AddPrefix instead" *)

(** Go's slice expressions on strings: [s[:n]] and [s[n:]] (the code only
    takes them with [n <= len(s)]). *)
Fixpoint sliceTo (n : nat) (s : string) : string :=
  match n, s with
  | S n', String c rest => String c (sliceTo n' rest)
  | _, _ => ""
  end.

Fixpoint sliceFrom (n : nat) (s : string) : string :=
  match n, s with
  | S n', String _ rest => sliceFrom n' rest
  | _, _ => s
  end.

Section Registry.
Context `{GoStd}.

(** [func NewSystem(config SystemConfig) *System] *)
Definition NewSystem (config : SystemConfig) : System :=
  mkSystem ∅ [] config ∅.

(** [func (s *System) normalizeKey(k string) string] *)
Definition normalizeKey (s : System) (k : string) : string :=
  if CaseInsensitive (Config s) then ToLower k else k.

(** [func (s *System) Add(symbol string, scale float64, dim Dimension)] *)
Definition Add (s : System) (symbol : string) (scale : float) (dim : Dimension)
  : System :=
  let key := normalizeKey s symbol in
  mkSystem (<[key := mkUnit symbol dim scale]> (units s))
           (prefixes s) (Config s) (unitPrefixes s).

(** [s.Config = config]: the field is exported, callers can assign it. *)
Definition SetConfig (s : System) (config : SystemConfig) : System :=
  mkSystem (units s) (prefixes s) config (unitPrefixes s).

(** The first loop of [AddPrefix] over [s.prefixes]: it stops at the first
    entry whose symbol is [pKey]. *)
Inductive PrefixScan := ScanConflict | ScanExists | ScanAbsent.

Fixpoint scanPrefixes (ps : list Prefix) (pKey : string) (scale : float)
  : PrefixScan :=
  match ps with
  | [] => ScanAbsent
  | p :: rest =>
      if String.eqb (Prefix_Symbol p) pKey then
        (* [p.Scale != scale] on float64 *)
        if negb (Prefix_Scale p =? scale)%float then ScanConflict
        else ScanExists
      else scanPrefixes rest pKey scale
  end.

(** The second loop of [AddPrefix], over [targetUnits]; it returns at the
    first target that is not a registered unit, keeping the bindings made
    so far. *)
Fixpoint bindTargets (s : System) (pKey : string) (targetUnits : list string)
  : System * option RegistryError :=
  match targetUnits with
  | [] => (s, None)
  | uSymbol :: rest =>
      let uKey := normalizeKey s uSymbol in
      match units s !! uKey with
      | None => (s, Some (ErrUnknownTargetUnit uSymbol))
      | Some _ =>
          let set :=
            match unitPrefixes s !! uKey with
            | None => ∅            (* make(map[string]bool) *)
            | Some m => m
            end in
          bindTargets
            (mkSystem (units s) (prefixes s) (Config s)
                      (<[uKey := <[pKey := true]> set]> (unitPrefixes s)))
            pKey rest
      end
  end.

(** [func (s *System) AddPrefix(prefixSymbol string, scale float64,
    targetUnits ...string) error]: the registry after the call, and the
    error returned. *)
Definition AddPrefix (s : System) (prefixSymbol : string) (scale : float)
    (targetUnits : list string) : System * option RegistryError :=
  let pKey := normalizeKey s prefixSymbol in
  match scanPrefixes (prefixes s) pKey scale with
  | ScanConflict => (s, Some (ErrPrefixConflict prefixSymbol))
  | ScanExists => bindTargets s pKey targetUnits
  | ScanAbsent =>
      let s' :=
        mkSystem (units s)
                 (SortSlice longerSymbol (prefixes s ++ [mkPrefix pKey scale]))
                 (Config s) (unitPrefixes s) in
      bindTargets s' pKey targetUnits
  end.

(** [func (s *System) Clone() *System], on registry values: the maps are
    rebuilt entry by entry, the prefix slice is copied when it is not empty. *)
Definition Clone (s : System) : System :=
  let newSys := NewSystem (Config s) in
  let newUnits :=
    map_fold (fun k u acc => <[k := u]> acc) (units newSys) (units s) in
  let newPrefixes :=
    if Nat.ltb 0 (length (prefixes s)) then prefixes s else prefixes newSys in
  let newBindings :=
    map_fold
      (fun uKey pSet acc =>
         <[uKey := map_fold (fun pKey allowed set => <[pKey := allowed]> set) ∅ pSet]> acc)
      (unitPrefixes newSys) (unitPrefixes s) in
  mkSystem newUnits newPrefixes (Config s) newBindings.

(** The loop of [OverwritePrefix]: the first entry whose symbol is [pKey]
    gets the new scale. *)
Fixpoint overwriteFirst (ps : list Prefix) (pKey : string) (newScale : float)
  : option (list Prefix) :=
  match ps with
  | [] => None
  | p :: rest =>
      if String.eqb (Prefix_Symbol p) pKey
      then Some (mkPrefix (Prefix_Symbol p) newScale :: rest)
      else option_map (cons p) (overwriteFirst rest pKey newScale)
  end.

(** [func (s *System) OverwritePrefix(symbol string, newScale float64) error] *)
Definition OverwritePrefix (s : System) (symbol : string) (newScale : float)
  : System * option RegistryError :=
  let pKey := normalizeKey s symbol in
  match overwriteFirst (prefixes s) pKey newScale with
  | Some ps => (mkSystem (units s) ps (Config s) (unitPrefixes s), None)
  | None => (s, Some (ErrPrefixNotFound symbol))
  end.

(** The test of one prefix in [Resolve]'s loop: [Some] when the loop returns
    at this prefix. *)
Definition tryPrefix (s : System) (lookupSymbol : string) (p : Prefix)
  : option (Unit * float * bool) :=
  let pLen := String.length (Prefix_Symbol p) in
  if Nat.ltb pLen (String.length lookupSymbol) &&
     String.eqb (sliceTo pLen lookupSymbol) (Prefix_Symbol p) then
    let baseSymbol := sliceFrom pLen lookupSymbol in
    match units s !! baseSymbol with
    | Some u =>
        match unitPrefixes s !! baseSymbol with
        | Some allowedPrefixes =>
            (* a missing key of a [map[string]bool] reads as [false] *)
            if default false (allowedPrefixes !! Prefix_Symbol p)
            then Some (u, Prefix_Scale p, true)
            else None
        | None => None
        end
    | None => None
    end
  else None.

Fixpoint resolvePrefixes (s : System) (lookupSymbol : string) (ps : list Prefix)
  : Unit * float * bool :=
  match ps with
  | [] => (zeroUnit, 0%float, false)
  | p :: rest =>
      match tryPrefix s lookupSymbol p with
      | Some r => r
      | None => resolvePrefixes s lookupSymbol rest
      end
  end.

(** [func (s *System) Resolve(symbol string) (Unit, float64, bool)] *)
Definition Resolve (s : System) (symbol : string) : Unit * float * bool :=
  let lookupSymbol := normalizeKey s symbol in
  match units s !! lookupSymbol with
  | Some u => (u, 1%float, true)
  | None => resolvePrefixes s lookupSymbol (prefixes s)
  end.

End Registry.

(** ** Package parser *)

(** *** Library functions of the parser, on bytes *)

Definition byteIn (lo hi : nat) (c : ascii) : bool :=
  Nat.leb lo (nat_of_ascii c) && Nat.leb (nat_of_ascii c) hi.

(** ['0' <= c && c <= '9'], which is also [unicode.IsDigit(rune(c))] for a
    byte [c] (a rune up to U+00FF is a digit only in that range). *)
Definition isDigit (c : ascii) : bool := byteIn 48 57 c.

(** [(c >= '0' && c <= '9') || c == '.' || c == '+' || c == '-'] *)
Definition isNumberStart (c : ascii) : bool :=
  isDigit c || Ascii.eqb c "." || Ascii.eqb c "+" || Ascii.eqb c "-".

Fixpoint containsByte (s : string) (c : ascii) : bool :=
  match s with
  | EmptyString => false
  | String d rest => Ascii.eqb d c || containsByte rest c
  end.

Fixpoint containsPair (s : string) (c1 c2 : ascii) : bool :=
  match s with
  | String d ((String d' _) as rest) =>
      (Ascii.eqb d c1 && Ascii.eqb d' c2) || containsPair rest c1 c2
  | _ => false
  end.

(** [strings.ContainsRune(separators, rune(c))] for a byte [c]: below 0x80
    the rune is the byte itself; from 0x80 on it is U+0080..U+00FF, which a
    string contains as its two-byte UTF-8 encoding. *)
Definition ContainsRune (separators : string) (c : ascii) : bool :=
  let n := nat_of_ascii c in
  if Nat.ltb n 128 then containsByte separators c
  else containsPair separators
         (ascii_of_nat (192 + n / 64)) (ascii_of_nat (128 + n mod 64)).

(** [math.Trunc]: the integer part, with the sign of the argument. *)
Definition Trunc (x : float) : float :=
  match Prim2SF x with
  | S754_finite sgn m e =>
      if (0 <=? e)%Z then x
      else match Z.shiftr (Zpos m) (- e) with
           | Zpos q => SF2Prim (S754_finite sgn q 0)
           | _ => SF2Prim (S754_zero sgn)
           end
  | _ => x
  end.

(** [math.Round]: nearest integer, halves away from zero (the reference
    definition in the Go documentation of [math.Round]). *)
Definition Round (x : float) : float :=
  let t := Trunc x in
  if (0.5 <=? PrimFloat.abs (x - t))%float
  then (t + (if (x <? 0)%float then -1 else 1))%float
  else t.

(** [const epsilon = 1e-12], as the float64 it is compared with. *)
Definition epsilon : float := 0x1.19799812dea11p-40%float.

(** *** The target representation

    [type Number interface { ~int | ... | ~uint64 | ~float32 | ~float64 }]:
    what [Parse] uses of a type [N] of that set. *)
Class Number (N : Type) := {
  (** the conversion [N(x)] of a float64 *)
  ofFloat64 : float -> N;
  (** the conversion [float64(n)] *)
  toFloat64 : N -> float;
  (** [+] of the type ([total += partN]) *)
  addN : N -> N -> N;
  (** the literal [0] and the initial value of [var total N] *)
  zeroN : N }.

(** The errors [Parse] returns. *)
Inductive ParseError :=
| ErrMultiPart (orig : string)
    (* "multi-part format is not allowed for this unit system: %q" *)
| ErrInvalidNumber
    (* "invalid number" *)
| ErrParseFloat (text : string)
    (* the error of strconv.ParseFloat *)
| ErrMissingUnit (orig : string)
    (* "missing unit in %q" *)
| ErrUnknownUnit (unitStr : string)
    (* "unknown unit: %s" *)
| ErrMixedDimensions (detectedDim partDim : Dimension)
    (* "mixed dimensions: %s and %s" *)
| ErrPrecisionLoss (partVal : float).
    (* "precision loss: part value %g cannot be represented exactly in target type" *)

Definition defaultSeparators : string :=
  String " " (String "009" (String "010" (String "013" ",;|/"))).

(** [if separators == "" { separators = " \t\n\r,;|/" }] *)
Definition effectiveSeparators (separators : string) : string :=
  if String.eqb separators "" then defaultSeparators else separators.

(** The loop of [safeSkipSeps]. *)
Fixpoint skipSeps (s : string) (separators : string) : string :=
  match s with
  | EmptyString => s
  | String c rest =>
      if isNumberStart c then s
      else if ContainsRune separators c then skipSeps rest separators
      else s
  end.

(** [func safeSkipSeps(s string, separators string) string] *)
Definition safeSkipSeps (s : string) (separators : string) : string :=
  skipSeps s (effectiveSeparators separators).

(** The loop of [parseNumber]: the index [end] at which it stops. *)
Fixpoint numberEnd (s : string) (end_ : nat) (allowSign allowDot allowE : bool)
  : nat :=
  match s with
  | EmptyString => end_
  | String c rest =>
      if isDigit c then numberEnd rest (S end_) false allowDot allowE
      else if Ascii.eqb c "." && allowDot then
        numberEnd rest (S end_) false false allowE
      else if (Ascii.eqb c "e" || Ascii.eqb c "E") && allowE && Nat.ltb 0 end_ then
        numberEnd rest (S end_) true false false
      else if (Ascii.eqb c "+" || Ascii.eqb c "-") && allowSign then
        numberEnd rest (S end_) false allowDot allowE
      else end_
  end.

(** The loop of [parseUnit]: the index [end] at which it stops. *)
Fixpoint unitEnd (s : string) (separators : string) : nat :=
  match s with
  | EmptyString => 0
  | String c rest =>
      if isDigit c || Ascii.eqb c "." || Ascii.eqb c "+" || Ascii.eqb c "-" then 0
      else if ContainsRune separators c then 0
      else S (unitEnd rest separators)
  end.

(** [func parseUnit(s string, separators string) (string, string)] *)
Definition parseUnit (s : string) (separators : string) : string * string :=
  let end_ := unitEnd s (effectiveSeparators separators) in
  (sliceTo end_ s, sliceFrom end_ s).

(** Step 5 of the loop body of [Parse]: the conversion of a part's value to
    [N], [inl] the error returned. *)
Definition convertPart {N} `{Number N} (partVal : float) : ParseError + N :=
  let rounded := Round partVal in
  if (PrimFloat.abs (rounded - partVal) <=? epsilon)%float then
    inr (ofFloat64 rounded)
  else
    let castN : N := ofFloat64 partVal in
    if (epsilon <? PrimFloat.abs (toFloat64 castN - partVal))%float then
      inl (ErrPrecisionLoss partVal)
    else inr castN.

(** The variables of [Parse] that live across iterations of its loop. *)
Record LoopState (N : Type) := mkLoopState {
  total : N;
  detectedDim : Dimension;
  isDimSet : bool;
  partsCount : nat;
  rest : string }.
Arguments mkLoopState {N}.
Arguments total {N}.
Arguments detectedDim {N}.
Arguments isDimSet {N}.
Arguments partsCount {N}.
Arguments rest {N}.

(** What [Parse] returns: [(N, unit.Dimension, error)]. *)
Definition ParseResult (N : Type) : Type := N * Dimension * option ParseError.

Section Parser.
Context `{GoStd}.

(** [func parseNumber(s string) (float64, string, error)] *)
Definition parseNumber (s : string) : ParseError + (float * string) :=
  let end_ := numberEnd s 0 true true true in
  if Nat.eqb end_ 0 then inl ErrInvalidNumber
  else match ParseFloat (sliceTo end_ s) with
       | None => inl (ErrParseFloat (sliceTo end_ s))
       | Some val => inr (val, sliceFrom end_ s)
       end.

(** One iteration of [for s != ""], entered with [rest st] not empty:
    either the [return] it executes, or the state for the next iteration. *)
Definition parseStep {N} `{Number N} (orig : string) (sys : System)
    (st : LoopState N) : ParseResult N + LoopState N :=
  let separators := Separators (Config sys) in
  (* Check multi-part restriction *)
  if Nat.ltb 0 (partsCount st) && negb (AllowMultiPart (Config sys)) then
    inl (zeroN, DimDimensionless, Some (ErrMultiPart orig))
  else
  (* 1. Parse number *)
  match parseNumber (rest st) with
  | inl err => inl (zeroN, DimDimensionless, Some err)
  | inr (val, nextStr) =>
      let s := safeSkipSeps nextStr separators in
      (* 2. Parse unit string *)
      let '(unitStr, nextStr) := parseUnit s separators in
      if String.eqb unitStr "" then
        inl (zeroN, DimDimensionless, Some (ErrMissingUnit orig))
      else
      let s := nextStr in
      (* 3. Resolve unit *)
      let '(u, scaleRatio, found) := Resolve sys unitStr in
      if negb found then
        inl (zeroN, DimDimensionless, Some (ErrUnknownUnit unitStr))
      else
      (* 4. Dimension check *)
      if isDimSet st && negb (Equals (detectedDim st) (Unit_Dimension u)) then
        inl (zeroN, DimDimensionless,
             Some (ErrMixedDimensions (detectedDim st) (Unit_Dimension u)))
      else
      let detectedDim' :=
        if isDimSet st then detectedDim st else Unit_Dimension u in
      (* 5. Accumulate value (Value * PrefixScale * UnitScale) *)
      let partVal := (val * scaleRatio * Unit_Scale u)%float in
      match convertPart partVal with
      | inl err => inl (zeroN, detectedDim', Some err)
      | inr partN =>
          inr (mkLoopState (addN (total st) partN) detectedDim' true
                           (S (partsCount st)) (safeSkipSeps s separators))
      end
  end.

(** The loop [for s != "" { ... }] followed by [return total, detectedDim,
    nil]; [None] when [fuel] iterations do not reach a [return]. *)
Fixpoint parseLoop {N} `{Number N} (fuel : nat) (orig : string) (sys : System)
    (st : LoopState N) : option (ParseResult N) :=
  if String.eqb (rest st) "" then Some (total st, detectedDim st, None)
  else match fuel with
       | 0 => None
       | S fuel' =>
           match parseStep orig sys st with
           | inl r => Some r
           | inr st' => parseLoop fuel' orig sys st'
           end
       end.

(** [func Parse[N Number](s string, sys *unit.System) (N, unit.Dimension,
    error)].  Every iteration consumes at least one byte, so [len(s)]
    iterations always reach a [return] ([Parse_returns] below). *)
Definition Parse {N} `{Number N} (s : string) (sys : System)
  : option (ParseResult N) :=
  parseLoop (String.length s) s sys
    (mkLoopState zeroN DimDimensionless false 0
                 (safeSkipSeps s (Separators (Config sys)))).

End Parser.

(** ** An executable instance of the library interface

    [goModel] computes what the Go library computes on the inputs used in
    the examples below: [strings.ToLower] on ASCII strings, [sort.Slice] on
    slices of at most 12 elements (where it is an insertion sort), and
    [strconv.ParseFloat] on decimal literals made of digits, ['.'], ['e'],
    ['E'] and signs (all that [parseNumber] passes on). *)

Definition asciiLower (c : ascii) : ascii :=
  if byteIn 65 90 c then ascii_of_nat (nat_of_ascii c + 32) else c.

Fixpoint asciiToLower (s : string) : string :=
  match s with
  | EmptyString => EmptyString
  | String c rest => String (asciiLower c) (asciiToLower rest)
  end.

(** The inner loop of an insertion sort,
    [for j := i; j > a && less(j, j-1); j-- { swap(j, j-1) }], on the sorted
    part kept in reverse (its last element first). *)
Fixpoint sinkLeft {A} (less : A -> A -> bool) (x : A) (revSorted : list A)
  : list A :=
  match revSorted with
  | [] => [x]
  | y :: more => if less x y then y :: sinkLeft less x more else x :: revSorted
  end.

Definition insertionSort {A} (less : A -> A -> bool) (l : list A) : list A :=
  rev (fold_left (fun revSorted x => sinkLeft less x revSorted) l []).

(** Decimal literals: [readDigits s] is the value of the leading digits, how
    many there are, and the rest. *)
Fixpoint readDigits (s : string) (acc : Z) (count : nat) : Z * nat * string :=
  match s with
  | String c rest =>
      if isDigit c
      then readDigits rest (10 * acc + Z.of_nat (nat_of_ascii c - 48)) (S count)
      else (acc, count, s)
  | EmptyString => (acc, count, s)
  end.

Definition readSign (s : string) : bool * string :=
  match s with
  | String c rest =>
      if Ascii.eqb c "-" then (true, rest)
      else if Ascii.eqb c "+" then (false, rest)
      else (false, s)
  | EmptyString => (false, s)
  end.

(** The optional exponent part: [None] when it is malformed. *)
Definition readExponent (s : string) : option (Z * string) :=
  match s with
  | String c rest =>
      if Ascii.eqb c "e" || Ascii.eqb c "E" then
        let '(neg, rest') := readSign rest in
        let '(e, count, rest'') := readDigits rest' 0 0 in
        if Nat.eqb count 0 then None
        else Some (if neg then (- e)%Z else e, rest'')
      else Some (0%Z, s)
  | EmptyString => Some (0%Z, s)
  end.

(** [mant * 10^exp10], rounded to the nearest binary64 (ties to even). *)
Definition roundDecimal (neg : bool) (mant exp10 : Z) : spec_float :=
  if (mant =? 0)%Z then S754_zero neg
  else
    let r :=
      if (0 <=? exp10)%Z then binary_normalize prec emax (mant * 10 ^ exp10) 0 false
      else
        let den := (10 ^ (- exp10))%Z in
        let sh := (1100 + Z.log2 den)%Z in
        let num := (mant * 2 ^ sh)%Z in
        let q := (num / den)%Z in
        let sticky := if (num mod den =? 0)%Z then 0%Z else 1%Z in
        binary_normalize prec emax (2 * q + sticky) (- sh - 1) false in
    if neg then SFopp r else r.

Definition decimalParseFloat (s : string) : option float :=
  let '(neg, s1) := readSign s in
  let '(ip, n1, s2) := readDigits s1 0 0 in
  let '(mant, n2, s3) :=
    match s2 with
    | String c rest =>
        if Ascii.eqb c "." then readDigits rest ip 0 else (ip, 0, s2)
    | EmptyString => (ip, 0, s2)
    end in
  if Nat.eqb (n1 + n2) 0 then None
  else match readExponent s3 with
       | Some (e, EmptyString) =>
           match roundDecimal neg mant (e - Z.of_nat n2) with
           | S754_infinity _ => None      (* value out of range *)
           | r => Some (SF2Prim r)
           end
       | _ => None
       end.

Definition goModel : GoStd :=
  {| ToLower := asciiToLower;
     SortSlice := insertionSort;
     ParseFloat := decimalParseFloat |}.

(** ** Target representations *)

(** [N = float64] *)
Definition float64Number : Number float :=
  {| ofFloat64 := fun x => x;
     toFloat64 := fun x => x;
     addN := PrimFloat.add;
     zeroN := 0%float |}.

(** The float32 nearest to a float64 (ties to even), as the float64 of the
    same value. *)
Definition roundToFloat32 (x : float) : float :=
  match Prim2SF x with
  | S754_finite sgn m e =>
      SF2Prim (binary_normalize 24 128 (if sgn then Zneg m else Zpos m) e sgn)
  | _ => x
  end.

(** [N = float32]: a float32 is kept as the float64 of the same value, which
    is what [float64(n)] returns; the float32 sum is the rounded float64
    sum. *)
Definition float32Number : Number float :=
  {| ofFloat64 := roundToFloat32;
     toFloat64 := fun x => x;
     addN := fun a b => roundToFloat32 (a + b)%float;
     zeroN := 0%float |}.

(** The integer part of a float64 as an integer; [None] for NaN and the
    infinities. *)
Definition floatToZ (x : float) : option Z :=
  match Prim2SF x with
  | S754_zero _ => Some 0%Z
  | S754_finite sgn m e =>
      let a := if (0 <=? e)%Z then (Zpos m * 2 ^ e)%Z else Z.shiftr (Zpos m) (- e) in
      Some (if sgn then (- a)%Z else a)
  | _ => None
  end.

(** [float64(n)] of an integer: the nearest float64 (ties to even). *)
Definition floatOfZ (n : Z) : float :=
  SF2Prim (binary_normalize prec emax n 0 false).

(** An integer type of Go: its width and whether it is signed ([int] and
    [uint] are 32 or 64 bits wide, [time.Duration] is an [int64]). *)
Inductive IntWidth := W8 | W16 | W32 | W64.

Definition widthBits (w : IntWidth) : Z :=
  match w with W8 => 8 | W16 => 16 | W32 => 32 | W64 => 64 end.

Record IntKind := mkIntKind { width : IntWidth; signed : bool }.

Definition bits (k : IntKind) : Z := widthBits (width k).

Definition minInt (k : IntKind) : Z := if signed k then (- 2 ^ (bits k - 1))%Z else 0%Z.
Definition maxInt (k : IntKind) : Z :=
  if signed k then (2 ^ (bits k - 1) - 1)%Z else (2 ^ bits k - 1)%Z.

(** Two's complement wrap-around of the type. *)
Definition wrapInt (k : IntKind) (n : Z) : Z :=
  ((n - minInt k) mod 2 ^ bits k + minInt k)%Z.

(** [N] an integer type: the conversion [N(x)] truncates towards zero; when
    the truncated value is not a value of the type (or [x] is not finite)
    the Go specification leaves the result to the implementation:
    [outOfRange x] stands for it. *)
Definition intNumber (k : IntKind) (outOfRange : float -> Z) : Number Z :=
  {| ofFloat64 := fun x =>
       match floatToZ x with
       | Some n => if ((minInt k <=? n) && (n <=? maxInt k))%Z then n
                   else wrapInt k (outOfRange x)
       | None => wrapInt k (outOfRange x)
       end;
     toFloat64 := floatOfZ;
     addN := fun a b => wrapInt k (a + b);
     zeroN := 0%Z |}.

Definition int64Kind : IntKind := mkIntKind W64 true.
Definition int8Kind : IntKind := mkIntKind W8 true.

(** The amd64 conversion instruction yields the smallest int64 for every
    float64 outside the range. *)
Definition amd64OutOfRange (x : float) : Z := (- 2 ^ 63)%Z.

Definition int64Number : Number Z := intNumber int64Kind amd64OutOfRange.

(** ** Registries of the test suite *)

(** [createTestSystem] of parser_test.go. *)
Definition createTestSystem : System :=
  let sys := @NewSystem (mkSystemConfig true false "") in
  let sys := @Add goModel sys "s" 1 DimTime in
  let sys := @Add goModel sys "m" 60 DimTime in
  let sys := @Add goModel sys "h" 3600 DimTime in
  let sys := @Add goModel sys "meter" 1 DimLength in
  fst (@AddPrefix goModel sys "m" 0.001 ["s"; "meter"]).

(** A registry with a unit literally named "mm" beside the unit "m" and the
    prefix "m" bound to it. *)
Definition mmSystem : System :=
  let sys := @NewSystem (mkSystemConfig true false "") in
  let sys := @Add goModel sys "m" 1 DimLength in
  let sys := @Add goModel sys "mm" 0.001 DimLength in
  fst (@AddPrefix goModel sys "m" 0.001 ["m"]).

(** A registry with the prefixes "k" and "ki" bound to the unit "b". *)
Definition kibSystem : System :=
  let sys := @NewSystem (mkSystemConfig true false "") in
  let sys := @Add goModel sys "b" 1 DimStorage in
  let sys := fst (@AddPrefix goModel sys "k" 1000 ["b"]) in
  fst (@AddPrefix goModel sys "ki" 1024 ["b"]).

(** The same with a unit named "kib" added. *)
Definition kibUnitSystem : System :=
  @Add goModel kibSystem "kib" 1024 DimStorage.

(** Units "b" and "ib", prefix "ki" bound to "b", prefix "k" registered and
    bound to "b" only. *)
Definition ibSystem : System :=
  @Add goModel kibSystem "ib" 8 DimStorage.

(** [createStrictIntSystem] of parser_generics_test.go. *)
Definition createStrictIntSystem : System :=
  let sys := @NewSystem (mkSystemConfig true false "") in
  let sys := @Add goModel sys "u" 1 (mkDimension 1 0 0 0 0 0 0 "") in
  @Add goModel sys "k" 1000 (mkDimension 1 0 0 0 0 0 0 "").

(** The registry of [TestParse_MultiPartRestriction]. *)
Definition multiPartRestrictedSystem : System :=
  @Add goModel (@NewSystem (mkSystemConfig false false "")) "B" 1 DimStorage.


(** The registry of [TestParse_TrickySeparators]: the digit 3 is configured
    as a separator. *)
Definition trickySeparatorsSystem : System :=
  let sys := @NewSystem (mkSystemConfig true false "3 ") in
  let sys := @Add goModel sys "h" 1 DimTime in
  @Add goModel sys "m" 1 DimTime.

(** A registry with the unit "u" of scale 1.0 in which the letter u is
    configured as a separator. *)
Definition separatorUSystem : System :=
  @Add goModel (@NewSystem (mkSystemConfig true false "u")) "u" 1 DimLength.

(** ** Notions used in the statements *)

(** [s.unitPrefixes[uKey][pKey]]: the prefix is in the unit's whitelist. *)
Definition whitelisted (s : System) (uKey pKey : string) : bool :=
  match unitPrefixes s !! uKey with
  | Some allowedPrefixes => default false (allowedPrefixes !! pKey)
  | None => false
  end.

(** [lookupSymbol] is the prefix symbol [pKey] followed by a registered unit
    that whitelists it. *)
Definition decomposesAs (s : System) (lookupSymbol pKey baseSymbol : string)
  : Prop :=
  lookupSymbol = pKey +:+ baseSymbol /\ baseSymbol <> "" /\
  is_Some (units s !! baseSymbol) /\ whitelisted s baseSymbol pKey = true.

(** The part at the head of [s] scans as the number [val] followed by a
    unit symbol that resolves to [(u, scaleRatio)], leaving [after]:
    steps 1 to 3 of the loop body pass. *)
Definition scansPart `{GoStd} (sys : System) (s : string) (val : float) (u : Unit)
    (scaleRatio : float) (after : string) : Prop :=
  exists nextStr unitStr,
    parseNumber s = inr (val, nextStr) /\
    parseUnit (safeSkipSeps nextStr (Separators (Config sys)))
              (Separators (Config sys)) = (unitStr, after) /\
    unitStr <> "" /\
    Resolve sys unitStr = (u, scaleRatio, true).

(** The multi-part check at the head of the loop body lets the iteration
    proceed. *)
Definition gateOpen {N} (sys : System) (st : LoopState N) : Prop :=
  Nat.ltb 0 (partsCount st) && negb (AllowMultiPart (Config sys)) = false.

(** The scale of the registered prefix [pKey]: that of the first entry of
    the prefix list with this symbol (the one the loops of [AddPrefix] and
    [OverwritePrefix] stop at). *)
Definition prefixScale (s : System) (pKey : string) : option float :=
  option_map Prefix_Scale
    (List.find (fun q => String.eqb (Prefix_Symbol q) pKey) (prefixes s)).


(** * The rest of the packages

    [Dimension.String], and the packages [std/storage], [std/length] and
    [std/time] built on the registry and the parser. *)

(** ** [func (d Dimension) String() string] *)

(** The verb [%d] of [fmt.Sprintf] on an [int]: its decimal digits, after a
    ['-'] when it is negative. *)
Definition formatInt (n : Z) : string := NilZero.string_of_int (Z.to_int n).

(** [func (d Dimension) String() string] *)
Definition Dimension_String (d : Dimension) : string :=
  if negb (String.eqb (Dimension_Extra d) "") then
    "Dim(" +:+ Dimension_Extra d +:+ ")"
  else
    "L^" +:+ formatInt (Dimension_L d) +:+ " M^" +:+ formatInt (Dimension_M d) +:+
    " T^" +:+ formatInt (Dimension_T d) +:+ " I^" +:+ formatInt (Dimension_I d) +:+
    " K^" +:+ formatInt (Dimension_K d) +:+ " N^" +:+ formatInt (Dimension_N d) +:+
    " J^" +:+ formatInt (Dimension_J d).

(** ** Package std/storage *)

Module StdStorage.

(** What [ParseBits] and [ParseBytes] return as [error]: the error of
    [parser.Parse], or [errors.New("parsed quantity is not a storage
    unit")]. *)
Inductive Error :=
| ErrParse (err : ParseError)
| ErrNotStorage.

(** [const bitsPerByte = 8.0] *)
Definition bitsPerByte : float := 8.

Section Package.
Context `{GoStd}.

(** [var System *unit.System], as [func init()] leaves it.  The errors of
    the [AddPrefix] calls are dropped, as in the source. *)
Definition System : System :=
  let System := NewSystem (mkSystemConfig false false "") in
  (* Bit (Base Unit) *)
  let System := Add System "b" 1 DimStorage in
  let System := Add System "bit" 1 DimStorage in
  let System := Add System "bits" 1 DimStorage in
  (* Byte (1 Byte = 8 bits) *)
  let System := Add System "B" bitsPerByte DimStorage in
  let System := Add System "Byte" bitsPerByte DimStorage in
  let System := Add System "Bytes" bitsPerByte DimStorage in
  let targetUnits := ["B"; "Byte"; "Bytes"; "b"; "bit"; "bits"] in
  let iecPrefixes : list (float * list string) :=
    [ (0x1p10%float, ["Ki"; "ki"; "KI"]);
      (0x1p20%float, ["Mi"; "mi"; "MI"]);
      (0x1p30%float, ["Gi"; "gi"; "GI"]);
      (0x1p40%float, ["Ti"; "ti"; "TI"]);
      (0x1p50%float, ["Pi"; "pi"; "PI"]);
      (0x1p60%float, ["Ei"; "ei"; "EI"]) ] in
  let System :=
    fold_left
      (fun System p =>
         fold_left (fun System sym => (AddPrefix System sym p.1 targetUnits).1)
                   p.2 System)
      iecPrefixes System in
  let prefixes : list (string * float) :=
    [ ("k", 0x1p10%float); ("K", 0x1p10%float);
      ("m", 0x1p20%float); ("M", 0x1p20%float);
      ("g", 0x1p30%float); ("G", 0x1p30%float);
      ("t", 0x1p40%float); ("T", 0x1p40%float);
      ("p", 0x1p50%float); ("P", 0x1p50%float);
      ("e", 0x1p60%float); ("E", 0x1p60%float) ] in
  fold_left (fun System p => (AddPrefix System p.1 p.2 targetUnits).1)
            prefixes System.

(** [func ParseBits(s string) (int64, error)]; [outOfRange] is what the
    platform's conversion of an out-of-range float64 to [int64] yields. *)
Definition ParseBits (outOfRange : float -> Z) (s : string)
  : option (Z * option Error) :=
  '(valBits, dim, err) ← @Parse _ Z (intNumber int64Kind outOfRange) s System;
  Some match err with
       | Some err => (0%Z, Some (ErrParse err))
       | None =>
           if negb (Equals dim DimStorage) then (0%Z, Some ErrNotStorage)
           else (valBits, None)
       end.

(** [func ParseBytes(s string) (float64, error)] *)
Definition ParseBytes (s : string) : option (float * option Error) :=
  '(valBits, dim, err) ← @Parse _ float float64Number s System;
  Some match err with
       | Some err => (0%float, Some (ErrParse err))
       | None =>
           if negb (Equals dim DimStorage) then (0%float, Some ErrNotStorage)
           else ((valBits / bitsPerByte)%float, None)
       end.

End Package.
End StdStorage.

(** ** Package std/length *)

Module StdLength.

(** The error of [parser.Parse], or [errors.New("parsed quantity is not a
    length")]. *)
Inductive Error :=
| ErrParse (err : ParseError)
| ErrNotLength.

Section Package.
Context `{GoStd}.

(** [var System *unit.System], as [func init()] leaves it.  The third
    prefix symbol is the four bytes the literal has in the source file. *)
Definition System : System :=
  let System := NewSystem (mkSystemConfig true false "") in
  (* Base Unit: Meter (m) *)
  let System := Add System "m" 1 DimLength in
  let prefixes : list (string * float) :=
    [ ("n", 1e-9%float);
      ("u", 1e-6%float);
      (String "195" (String "130" (String "194" (String "181" ""))), 1e-6%float);
      ("m", 1e-3%float);
      ("c", 1e-2%float);
      ("k", 1e3%float) ] in
  fold_left (fun System p => (AddPrefix System p.1 p.2 ["m"]).1) prefixes System.

(** [func ParseLength(s string) (float64, error)] *)
Definition ParseLength (s : string) : option (float * option Error) :=
  '(val, dim, err) ← @Parse _ float float64Number s System;
  Some match err with
       | Some err => (0%float, Some (ErrParse err))
       | None =>
           if negb (Equals dim DimLength) then (0%float, Some ErrNotLength)
           else (val, None)
       end.

End Package.
End StdLength.

(** ** Package std/time *)

Module StdTime.

(** The error of [parser.Parse], or [errors.New("parsed quantity is not a
    time duration")]. *)
Inductive Error :=
| ErrParse (err : ParseError)
| ErrNotDuration.

Section Package.
Context `{GoStd}.

(** [var System *unit.System], as [func init()] leaves it.  The symbol of
    the third unit is the micro sign (bytes 0xC2 0xB5) followed by [s]. *)
Definition System : System :=
  let System := NewSystem (mkSystemConfig true false "") in
  (* SI Time Units *)
  let System := Add System "ns" 1 DimTime in
  let System := Add System "us" 1e3 DimTime in
  let System := Add System (String "194" (String "181" "s")) 1e3 DimTime in
  let System := Add System "ms" 1e6 DimTime in
  let System := Add System "s" 1e9 DimTime in
  (* Common Time Units *)
  let System := Add System "m" 60e9 DimTime in
  let System := Add System "h" 3600e9 DimTime in
  let System := Add System "d" 86400e9 DimTime in
  let System := Add System "w" 604800e9 DimTime in
  System.

(** [func ParseDuration(s string) (time.Duration, error)]; a
    [time.Duration] is an [int64]. *)
Definition ParseDuration (outOfRange : float -> Z) (s : string)
  : option (Z * option Error) :=
  '(val, dim, err) ← @Parse _ Z (intNumber int64Kind outOfRange) s System;
  Some match err with
       | Some err => (0%Z, Some (ErrParse err))
       | None =>
           if negb (Equals dim DimTime) then (0%Z, Some ErrNotDuration)
           else (val, None)
       end.

End Package.
End StdTime.

(** ** More example registries *)

(** An implementation of [sort.Slice] that leaves prefixes of equal length
    in the reverse of the order an insertion sort leaves them in. *)
Definition reversingSort : GoStd :=
  {| ToLower := asciiToLower;
     SortSlice := fun less l => insertionSort less (rev l);
     ParseFloat := decimalParseFloat |}.

(** The registry with the unit ["m"], used below. *)
Definition meterSystem : System :=
  @Add goModel (NewSystem (mkSystemConfig true false "")) "m" 1 DimLength.

(** * Strings and slices *)

Lemma append_String (c : ascii) (s t : string) :
  String c s +:+ t = String c (s +:+ t).
Proof. reflexivity. Qed.

Lemma length_append (p u : string) :
  String.length (p +:+ u) = String.length p + String.length u.
Proof.
  induction p as [|c p IH]; [reflexivity|].
  rewrite append_String. simpl. now rewrite IH.
Qed.

Lemma sliceTo_append (p u : string) : sliceTo (String.length p) (p +:+ u) = p.
Proof.
  induction p as [|c p IH]; [now destruct u|].
  rewrite append_String. simpl. now rewrite IH.
Qed.

Lemma sliceFrom_append (p u : string) : sliceFrom (String.length p) (p +:+ u) = u.
Proof.
  induction p as [|c p IH]; [now destruct u|].
  rewrite append_String. simpl. exact IH.
Qed.

Lemma slice_split (n : nat) (s : string) : sliceTo n s +:+ sliceFrom n s = s.
Proof.
  revert s; induction n as [|n IH]; intros [|c s]; simpl; try reflexivity.
  now rewrite append_String, IH.
Qed.

Lemma length_sliceFrom (n : nat) (s : string) :
  String.length (sliceFrom n s) = String.length s - n.
Proof.
  revert s; induction n as [|n IH]; intros [|c s]; simpl; try reflexivity.
  apply IH.
Qed.

Lemma append_inj_r (p a b : string) : p +:+ a = p +:+ b -> a = b.
Proof.
  induction p as [|c p IH]; intros E; [exact E|].
  rewrite !append_String in E. injection E; auto.
Qed.

(** Two prefixes of one string that have the same length are equal. *)
Lemma append_same_length (p q a b : string) :
  p +:+ a = q +:+ b -> String.length p = String.length q -> p = q.
Proof.
  revert q; induction p as [|c p IH]; intros [|d q]; simpl; intros E L;
    try reflexivity; try discriminate.
  rewrite !append_String in E. injection E as -> E. f_equal. apply IH; [exact E | lia].
Qed.

(** * Properties of the registry *)

Section RegistryFacts.
Context `{GoStd}.

(** ** One step of the decomposition loop *)

Lemma tryPrefix_Some (s : System) (lookupSymbol : string) (p : Prefix)
    (r : Unit * float * bool) :
  tryPrefix s lookupSymbol p = Some r <->
  exists baseSymbol u,
    lookupSymbol = Prefix_Symbol p +:+ baseSymbol /\ baseSymbol <> "" /\
    units s !! baseSymbol = Some u /\
    whitelisted s baseSymbol (Prefix_Symbol p) = true /\
    r = (u, Prefix_Scale p, true).
Proof.
  unfold tryPrefix, whitelisted. split.
  - destruct (Nat.ltb_spec (String.length (Prefix_Symbol p)) (String.length lookupSymbol))
      as [Hlen|Hlen]; simpl; [|discriminate].
    destruct (String.eqb_spec (sliceTo (String.length (Prefix_Symbol p)) lookupSymbol)
                              (Prefix_Symbol p)) as [Hpre|Hpre]; [|discriminate].
    set (base := sliceFrom (String.length (Prefix_Symbol p)) lookupSymbol).
    destruct (units s !! base) as [u|] eqn:Hu; [|discriminate].
    destruct (unitPrefixes s !! base) as [allowed|] eqn:Ha; [|discriminate].
    destruct (default false (allowed !! Prefix_Symbol p)) eqn:Hw; [|discriminate].
    intros [= <-]. exists base, u.
    split; [|split; [|unfold base in *; rewrite Ha; auto]].
    + rewrite <- (slice_split (String.length (Prefix_Symbol p)) lookupSymbol) at 1.
      now rewrite Hpre.
    + intros Hb. pose proof (length_sliceFrom (String.length (Prefix_Symbol p)) lookupSymbol) as HL.
      fold base in HL. rewrite Hb in HL. simpl in HL. lia.
  - intros (base & u & -> & Hne & Hu & Hw & ->).
    rewrite length_append, sliceTo_append, sliceFrom_append, String.eqb_refl.
    destruct (Nat.ltb_spec (String.length (Prefix_Symbol p))
                (String.length (Prefix_Symbol p) + String.length base)) as [_|Hlen]; simpl.
    + rewrite Hu. destruct (unitPrefixes s !! base); [|discriminate].
      now rewrite Hw.
    + destruct base; [congruence | simpl in Hlen; lia].
Qed.

Lemma tryPrefix_decomposes (s : System) (lookupSymbol : string) (p : Prefix)
    (r : Unit * float * bool) :
  tryPrefix s lookupSymbol p = Some r ->
  exists baseSymbol, decomposesAs s lookupSymbol (Prefix_Symbol p) baseSymbol.
Proof.
  intros (base & u & E & Hne & Hu & Hw & _)%tryPrefix_Some.
  exists base. unfold decomposesAs. rewrite Hu. eauto.
Qed.

Lemma tryPrefix_None (s : System) (lookupSymbol : string) (p : Prefix) :
  (forall baseSymbol, ~ decomposesAs s lookupSymbol (Prefix_Symbol p) baseSymbol) ->
  tryPrefix s lookupSymbol p = None.
Proof.
  intros Hno. destruct (tryPrefix s lookupSymbol p) as [r|] eqn:E; [|reflexivity].
  apply tryPrefix_decomposes in E as [base Hd]. now apply Hno in Hd.
Qed.

(** The loop returns at the first prefix that passes, and reports not-found
    when none does. *)
Lemma resolvePrefixes_first (s : System) (lookupSymbol : string)
    (before after : list Prefix) (p : Prefix) (r : Unit * float * bool) :
  (forall q, In q before -> tryPrefix s lookupSymbol q = None) ->
  tryPrefix s lookupSymbol p = Some r ->
  resolvePrefixes s lookupSymbol (before ++ p :: after) = r.
Proof.
  induction before as [|q before IH]; simpl; intros Hb Hp.
  - now rewrite Hp.
  - rewrite (Hb q) by auto. apply IH; auto.
Qed.

Lemma resolvePrefixes_none (s : System) (lookupSymbol : string) (ps : list Prefix) :
  (forall q, In q ps -> tryPrefix s lookupSymbol q = None) ->
  resolvePrefixes s lookupSymbol ps = (zeroUnit, 0%float, false).
Proof.
  induction ps as [|q ps IH]; simpl; intros Hb; [reflexivity|].
  rewrite (Hb q) by auto. apply IH; auto.
Qed.

Lemma find_split {A} (f : A -> bool) (l : list A) (x : A) :
  List.find f l = Some x ->
  exists before after,
    l = before ++ x :: after /\ f x = true /\ forall y, In y before -> f y = false.
Proof.
  induction l as [|a l IH]; simpl; [discriminate|].
  destruct (f a) eqn:Fa.
  - intros [= ->]. exists [], l. repeat split; auto. intros y [].
  - intros Hx. destruct (IH Hx) as (b & c & -> & Fx & Hb).
    exists (a :: b), c. repeat split; auto.
    intros y [<-|Hy]; auto.
Qed.

Lemma prefixScale_split (s : System) (pKey : string) (sc : float) :
  prefixScale s pKey = Some sc ->
  exists before after,
    prefixes s = before ++ mkPrefix pKey sc :: after /\
    forall q, In q before -> Prefix_Symbol q <> pKey.
Proof.
  unfold prefixScale. destruct (List.find _ (prefixes s)) as [p|] eqn:F; [|discriminate].
  intros [= <-]. apply find_split in F as (b & a & E & Fp & Hb).
  apply String.eqb_eq in Fp. exists b, a. split.
  - rewrite E. destruct p; simpl in *. now subst.
  - intros q Hq. apply String.eqb_neq. auto.
Qed.

Lemma prefixScale_None (s : System) (pKey : string) :
  prefixScale s pKey = None <->
  forall q, In q (prefixes s) -> Prefix_Symbol q <> pKey.
Proof.
  unfold prefixScale. split.
  - destruct (List.find _ (prefixes s)) as [p|] eqn:F; [discriminate|].
    intros _ q Hq. apply String.eqb_neq. eapply find_none in F; eauto.
  - intros Hno. destruct (List.find _ (prefixes s)) as [p|] eqn:F; [|reflexivity].
    apply find_some in F as [Hin Fp]. apply String.eqb_eq in Fp. now apply Hno in Hin.
Qed.

(** C2. Exact-match priority: when the normalized symbol is the key of a
    registered unit, [Resolve] returns that unit with prefix scale 1.0 and
    found = true, whatever prefixes are registered. *)
Theorem Resolve_exact_match (s : System) (symbol : string) (u : Unit) :
  units s !! normalizeKey s symbol = Some u ->
  Resolve s symbol = (u, 1%float, true).
Proof.
  intros Hu. unfold Resolve. now rewrite Hu.
Qed.

(** The decomposition of [pKey +:+ uKey] when no prefix with another symbol
    decomposes it. *)
Lemma resolvePrefixes_only (s : System) (pKey uKey : string) (sc : float) (un : Unit) :
  prefixScale s pKey = Some sc ->
  units s !! uKey = Some un ->
  uKey <> "" ->
  (forall q baseSymbol, In q (prefixes s) -> Prefix_Symbol q <> pKey ->
     ~ decomposesAs s (pKey +:+ uKey) (Prefix_Symbol q) baseSymbol) ->
  resolvePrefixes s (pKey +:+ uKey) (prefixes s) =
    if whitelisted s uKey pKey then (un, sc, true) else (zeroUnit, 0%float, false).
Proof.
  intros Hsc Hu Hne Hother.
  destruct (whitelisted s uKey pKey) eqn:Hw.
  - apply prefixScale_split in Hsc as (b & a & E & Hb).
    rewrite E. apply resolvePrefixes_first.
    + intros q Hq. apply tryPrefix_None. intros base.
      apply Hother; [rewrite E; apply in_or_app; auto | auto].
    + apply tryPrefix_Some. exists uKey, un. simpl. auto.
  - apply resolvePrefixes_none. intros q Hq.
    destruct (String.eqb_spec (Prefix_Symbol q) pKey) as [Eq|Nq].
    + apply tryPrefix_None. intros base (E & _ & _ & Hwb).
      rewrite Eq in E, Hwb. apply append_inj_r in E. subst base. congruence.
    + apply tryPrefix_None. intros base. now apply Hother.
Qed.

(** C3, as amended.  Whitelist-gated decomposition: let [p] be a registered
    prefix and [u] a registered unit with a non-empty symbol, such that
    [p+u] is not itself a registered unit symbol and no registered prefix
    with another symbol, followed by a unit that whitelists it, also spells
    [p+u].  Then [Resolve(p+u)] returns unit [u] with the scale of [p] and
    found = true when [p] is in the whitelist of [u], and not-found when it
    is not.  Symbols are read through [normalizeKey], which is taken to
    distribute over the concatenation [p+u]; in a case-sensitive registry it
    is the identity. *)
Theorem Resolve_prefix_unit (s : System) (p u : string) (sc : float) (un : Unit) :
  let pKey := normalizeKey s p in
  let uKey := normalizeKey s u in
  normalizeKey s (p +:+ u) = pKey +:+ uKey ->
  prefixScale s pKey = Some sc ->
  units s !! uKey = Some un ->
  uKey <> "" ->
  units s !! (pKey +:+ uKey) = None ->
  (forall q baseSymbol, In q (prefixes s) -> Prefix_Symbol q <> pKey ->
     ~ decomposesAs s (pKey +:+ uKey) (Prefix_Symbol q) baseSymbol) ->
  Resolve s (p +:+ u) =
    if whitelisted s uKey pKey then (un, sc, true) else (zeroUnit, 0%float, false).
Proof.
  intros pKey uKey Hnorm Hsc Hu Hne Hexact Hother.
  unfold Resolve. rewrite Hnorm, Hexact.
  now apply resolvePrefixes_only.
Qed.

(** ** The order of the prefix list *)

Lemma StronglySorted_before {A} (R : A -> A -> Prop) (l1 l2 : list A) (x : A) :
  StronglySorted R (l1 ++ x :: l2) -> forall y, In y l1 -> R y x.
Proof.
  induction l1 as [|a l1 IH]; simpl; intros HS y Hy; [destruct Hy|].
  apply StronglySorted_inv in HS as [HS Ha].
  destruct Hy as [<-|Hy].
  - rewrite List.Forall_forall in Ha. apply Ha. apply in_or_app. simpl. auto.
  - now apply IH.
Qed.

(** The order only looks at the symbols. *)
Lemma byDescendingLength_symbols (l l' : list Prefix) :
  List.map Prefix_Symbol l = List.map Prefix_Symbol l' ->
  byDescendingLength l -> byDescendingLength l'.
Proof.
  unfold byDescendingLength. revert l'.
  induction l as [|a l IH]; intros [|a' l']; simpl; intros E HS;
    try discriminate; [constructor|].
  injection E as Ea El. apply StronglySorted_inv in HS as [HS Ha].
  constructor; [now apply IH|].
  rewrite List.Forall_forall in *. intros b' Hb'.
  apply (in_map Prefix_Symbol) in Hb'. rewrite <- El in Hb'.
  apply in_map_iff in Hb' as (b & Eb & Hb).
  rewrite <- Ea, <- Eb. now apply Ha.
Qed.

Lemma overwriteFirst_symbols (ps ps' : list Prefix) (pKey : string) (sc : float) :
  overwriteFirst ps pKey sc = Some ps' ->
  List.map Prefix_Symbol ps' = List.map Prefix_Symbol ps.
Proof.
  revert ps'; induction ps as [|p ps IH]; simpl; intros ps'; [discriminate|].
  destruct (String.eqb (Prefix_Symbol p) pKey).
  - now intros [= <-].
  - destruct (overwriteFirst ps pKey sc) as [r|]; simpl; [|discriminate].
    intros [= <-]. simpl. now rewrite (IH r).
Qed.

(** ** The binding loop of [AddPrefix] *)

Lemma normalizeKey_Config (s s' : System) (k : string) :
  Config s' = Config s -> normalizeKey s' k = normalizeKey s k.
Proof. unfold normalizeKey. now intros ->. Qed.

Lemma whitelisted_bind (s : System) (uKey pKey b q : string) :
  whitelisted
    (mkSystem (units s) (prefixes s) (Config s)
       (<[uKey := <[pKey := true]>
                    (match unitPrefixes s !! uKey with None => ∅ | Some m => m end)]>
          (unitPrefixes s))) b q =
  if decide (b = uKey /\ q = pKey) then true else whitelisted s b q.
Proof.
  unfold whitelisted; simpl.
  destruct (decide (b = uKey)) as [->|Hb].
  - rewrite lookup_insert_eq.
    destruct (decide (q = pKey)) as [->|Hq].
    + rewrite lookup_insert_eq. simpl. now rewrite decide_True.
    + rewrite lookup_insert_ne by congruence.
      rewrite decide_False by tauto.
      destruct (unitPrefixes s !! uKey); [reflexivity | now rewrite lookup_empty].
  - rewrite lookup_insert_ne by congruence. rewrite decide_False by tauto. reflexivity.
Qed.

Lemma bindTargets_frame (s : System) (pKey : string) (targetUnits : list string) :
  units (bindTargets s pKey targetUnits).1 = units s /\
  prefixes (bindTargets s pKey targetUnits).1 = prefixes s /\
  Config (bindTargets s pKey targetUnits).1 = Config s /\
  forall b q, whitelisted s b q = true ->
              whitelisted (bindTargets s pKey targetUnits).1 b q = true.
Proof.
  revert s; induction targetUnits as [|u ts IH]; intros s; simpl; [auto|].
  destruct (units s !! normalizeKey s u); simpl; [|auto].
  match goal with |- context [bindTargets ?s1 _ _] => specialize (IH s1) end.
  destruct IH as (Hu & Hp & Hc & Hw). simpl in *.
  repeat split; auto.
  intros b q Hbq. apply Hw. rewrite whitelisted_bind, Hbq. now destruct (decide _).
Qed.



Lemma scanPrefixes_registered (s : System) (pKey : string) (sc0 sc : float) :
  prefixScale s pKey = Some sc0 ->
  scanPrefixes (prefixes s) pKey sc =
    if negb (sc0 =? sc)%float then ScanConflict else ScanExists.
Proof.
  unfold prefixScale. induction (prefixes s) as [|p ps IH]; simpl; [discriminate|].
  destruct (String.eqb (Prefix_Symbol p) pKey); simpl.
  - now intros [= ->].
  - exact IH.
Qed.

(** [AddPrefix] leaves the list as it is or sorts it. *)
Lemma AddPrefix_prefixes (s : System) (p : string) (sc : float) (ts : list string) :
  prefixes (AddPrefix s p sc ts).1 = prefixes s \/
  prefixes (AddPrefix s p sc ts).1 =
    SortSlice longerSymbol (prefixes s ++ [mkPrefix (normalizeKey s p) sc]).
Proof.
  unfold AddPrefix. destruct (scanPrefixes _ _ _); simpl.
  - now left.
  - left. apply bindTargets_frame.
  - right. match goal with |- context [bindTargets ?s1 _ _] =>
      now destruct (bindTargets_frame s1 (normalizeKey s p) ts) as (_ & -> & _) end.
Qed.

Lemma AddPrefix_sorted (s : System) (p : string) (sc : float) (ts : list string) :
  SortSliceSpec ->
  byDescendingLength (prefixes s) ->
  byDescendingLength (prefixes (AddPrefix s p sc ts).1).
Proof.
  intros Hsort HS. destruct (AddPrefix_prefixes s p sc ts) as [-> | ->]; [exact HS|].
  apply Hsort.
Qed.

Lemma Clone_prefixes (s : System) : prefixes (Clone s) = prefixes s.
Proof. unfold Clone; simpl. now destruct (prefixes s). Qed.

(** The registries that the operations of the package build. *)
Inductive Built : System -> Prop :=
| Built_NewSystem config : Built (NewSystem config)
| Built_Add s symbol scale dim : Built s -> Built (Add s symbol scale dim)
| Built_AddPrefix s p sc ts : Built s -> Built (AddPrefix s p sc ts).1
| Built_OverwritePrefix s p sc : Built s -> Built (OverwritePrefix s p sc).1
| Built_Clone s : Built s -> Built (Clone s).

Lemma Built_sorted (s : System) :
  SortSliceSpec -> Built s -> byDescendingLength (prefixes s).
Proof.
  intros Hsort. induction 1 as [config|s symbol scale dim _ IH|s p sc ts _ IH
                               |s p sc _ IH|s _ IH].
  - constructor.
  - exact IH.
  - now apply AddPrefix_sorted.
  - unfold OverwritePrefix.
    destruct (overwriteFirst (prefixes s) (normalizeKey s p) sc) as [ps|] eqn:E;
      simpl; [|exact IH].
    eapply byDescendingLength_symbols; [|exact IH].
    symmetry. eapply overwriteFirst_symbols; eauto.
  - now rewrite Clone_prefixes.
Qed.

(** With the list in descending order of length, the longest whitelisted
    decomposition is the one returned. *)
Lemma Resolve_longest (s : System) (symbol pKey baseSymbol : string)
    (sc : float) (un : Unit) :
  byDescendingLength (prefixes s) ->
  normalizeKey s symbol = pKey +:+ baseSymbol ->
  units s !! (pKey +:+ baseSymbol) = None ->
  baseSymbol <> "" ->
  units s !! baseSymbol = Some un ->
  whitelisted s baseSymbol pKey = true ->
  prefixScale s pKey = Some sc ->
  (forall q base', In q (prefixes s) ->
     String.length pKey < String.length (Prefix_Symbol q) ->
     ~ decomposesAs s (pKey +:+ baseSymbol) (Prefix_Symbol q) base') ->
  Resolve s symbol = (un, sc, true).
Proof.
  intros HS Hnorm Hexact Hne Hu Hw Hsc Hlonger.
  unfold Resolve. rewrite Hnorm, Hexact.
  apply prefixScale_split in Hsc as (b & a & E & Hb).
  rewrite E. apply resolvePrefixes_first.
  - intros q Hq. apply tryPrefix_None. intros base' Hd.
    assert (Hin : In q (prefixes s)) by (rewrite E; apply in_or_app; auto).
    unfold byDescendingLength in HS. rewrite E in HS.
    pose proof (StronglySorted_before _ _ _ _ HS q Hq) as Hlen. simpl in Hlen.
    destruct (Nat.eq_dec (String.length (Prefix_Symbol q)) (String.length pKey)) as [El|Nl].
    + destruct Hd as (Eq & _). symmetry in Eq.
      apply append_same_length in Eq; [|exact El]. now apply Hb in Hq.
    + apply (Hlonger q base' Hin); [lia | exact Hd].
  - apply tryPrefix_Some. exists baseSymbol, un. simpl. auto.
Qed.

(** C4, as amended.  Longest-prefix-first precedence: every registry built
    by the package keeps its prefix list in descending order of symbol
    length, [AddPrefix] preserving the order; [Resolve] tries the prefixes
    in that order, so the whitelisted decomposition with the longest
    registered prefix is the one returned; in particular, with the prefix
    "ki" registered and bound to the unit "b" (and whatever shorter prefix
    "k" and unit "ib" there are), [Resolve("kib")] returns unit "b" with
    the scale of "ki" - provided "kib" is not itself a registered unit
    symbol, which would win as an exact match. *)
Theorem longest_prefix_first :
  SortSliceSpec ->
  (forall s, Built s -> byDescendingLength (prefixes s)) /\
  (forall s p sc ts,
     byDescendingLength (prefixes s) ->
     byDescendingLength (prefixes (AddPrefix s p sc ts).1)) /\
  (forall s symbol pKey baseSymbol sc un,
     byDescendingLength (prefixes s) ->
     normalizeKey s symbol = pKey +:+ baseSymbol ->
     units s !! (pKey +:+ baseSymbol) = None ->
     baseSymbol <> "" ->
     units s !! baseSymbol = Some un ->
     whitelisted s baseSymbol pKey = true ->
     prefixScale s pKey = Some sc ->
     (forall q base', In q (prefixes s) ->
        String.length pKey < String.length (Prefix_Symbol q) ->
        ~ decomposesAs s (pKey +:+ baseSymbol) (Prefix_Symbol q) base') ->
     Resolve s symbol = (un, sc, true)) /\
  (forall s ub sc,
     Built s ->
     normalizeKey s "kib" = "kib" ->
     units s !! "kib" = None ->
     units s !! "b" = Some ub ->
     whitelisted s "b" "ki" = true ->
     prefixScale s "ki" = Some sc ->
     Resolve s "kib" = (ub, sc, true)).
Proof.
  intros Hsort. split; [|split; [|split]].
  - intros s. now apply Built_sorted.
  - intros s p sc ts. now apply AddPrefix_sorted.
  - intros s symbol pKey baseSymbol sc un. apply Resolve_longest.
  - intros s ub sc HB Hnorm Hexact Hu Hw Hsc.
    apply (Resolve_longest s "kib" "ki" "b" sc ub);
      [now apply Built_sorted | exact Hnorm | exact Hexact | discriminate
      | exact Hu | exact Hw | exact Hsc | ].
    intros q base' _ Hlen (E & Hne & _).
    apply (f_equal String.length) in E. rewrite !length_append in E.
    simpl in E, Hlen. destruct base'; [congruence | simpl in E; lia].
Qed.

(** ** A failed [AddPrefix] *)



Lemma find_unique {A} (f : A -> bool) (l l0 : list A) (x : A) :
  Permutation l (l0 ++ [x]) -> f x = true ->
  (forall y, In y l0 -> f y = false) ->
  List.find f l = Some x.
Proof.
  intros HP Fx Hl0. destruct (List.find f l) as [z|] eqn:F.
  - apply find_some in F as [Hz Fz].
    apply (Permutation_in _ HP) in Hz. apply in_app_or in Hz as [Hz|[<-|[]]].
    + apply Hl0 in Hz. congruence.
    + reflexivity.
  - exfalso. assert (Hx : In x l).
    { apply (Permutation_in _ (Permutation_sym HP)). apply in_or_app. simpl. auto. }
    eapply find_none in F; eauto. congruence.
Qed.


End RegistryFacts.

(** ** The executable instance meets the contract of [sort.Slice] *)

Lemma sinkLeft_Permutation {A} (less : A -> A -> bool) (x : A) (l : list A) :
  Permutation (sinkLeft less x l) (x :: l).
Proof.
  induction l as [|y l IH]; simpl; [reflexivity|].
  destruct (less x y); [|reflexivity].
  rewrite IH. apply perm_swap.
Qed.

Lemma insertionSort_Permutation {A} (less : A -> A -> bool) (l : list A) :
  Permutation (insertionSort less l) l.
Proof.
  unfold insertionSort. rewrite <- Permutation_rev.
  assert (G : forall acc, Permutation
            (fold_left (fun revSorted x => sinkLeft less x revSorted) l acc) (l ++ acc)).
  { induction l as [|a l IH]; intros acc; simpl; [reflexivity|].
    rewrite IH, sinkLeft_Permutation. symmetry. apply Permutation_middle. }
  rewrite G. now rewrite app_nil_r.
Qed.

(** The sorted part, last element first: lengths ascend. *)
Definition ascendingLength (l : list Prefix) : Prop :=
  StronglySorted
    (fun a b => String.length (Prefix_Symbol a) <= String.length (Prefix_Symbol b)) l.

Lemma sinkLeft_ascending (x : Prefix) (l : list Prefix) :
  ascendingLength l -> ascendingLength (sinkLeft longerSymbol x l).
Proof.
  unfold ascendingLength. induction l as [|y l IH]; simpl; intros HS.
  - repeat constructor.
  - apply StronglySorted_inv in HS as [HS Hy]. unfold longerSymbol at 1.
    destruct (Nat.ltb_spec (String.length (Prefix_Symbol y)) (String.length (Prefix_Symbol x)))
      as [Hlt|Hge].
    + constructor; [now apply IH|].
      rewrite List.Forall_forall in *. intros z Hz.
      apply (Permutation_in _ (sinkLeft_Permutation longerSymbol x l)) in Hz.
      destruct Hz as [<-|Hz]; [lia | now apply Hy].
    + constructor; [now constructor|].
      constructor; [exact Hge|].
      rewrite List.Forall_forall in *. intros z Hz. specialize (Hy z Hz). lia.
Qed.

Lemma StronglySorted_snoc {A} (R : A -> A -> Prop) (l : list A) (x : A) :
  StronglySorted R l -> Forall (fun y => R y x) l -> StronglySorted R (l ++ [x]).
Proof.
  induction l as [|a l IH]; simpl; intros HS HF.
  - repeat constructor.
  - apply StronglySorted_inv in HS as [HS Ha].
    apply List.Forall_cons_iff in HF as [Hax HF].
    constructor; [now apply IH|].
    apply List.Forall_app. split; [exact Ha | now constructor].
Qed.

Lemma ascending_rev (l : list Prefix) :
  ascendingLength l -> byDescendingLength (rev l).
Proof.
  unfold ascendingLength, byDescendingLength.
  induction l as [|a l IH]; simpl; intros HS; [constructor|].
  apply StronglySorted_inv in HS as [HS Ha].
  apply StronglySorted_snoc; [now apply IH|].
  rewrite List.Forall_forall in *. intros y Hy. apply Ha. now apply in_rev.
Qed.

Lemma goModel_SortSliceSpec : @SortSliceSpec goModel.
Proof.
  intros ps. split; [apply insertionSort_Permutation|].
  simpl. unfold insertionSort. apply ascending_rev.
  assert (G : forall acc, ascendingLength acc ->
            ascendingLength (fold_left (fun r x => sinkLeft longerSymbol x r) ps acc)).
  { induction ps as [|a ps IH]; intros acc Hacc; simpl; [exact Hacc|].
    apply IH. now apply sinkLeft_ascending. }
  apply G. constructor.
Qed.

(** ** The claims at concrete registries *)

(** The unit "mm" is returned as itself, not as prefix "m" + unit "m". *)
Lemma Resolve_exact_match_witness :
  @Resolve goModel mmSystem "mm" = (mkUnit "mm" DimLength 0.001, 1%float, true).
Proof.
  apply (@Resolve_exact_match goModel mmSystem "mm").
  vm_compute. reflexivity.
Defined.

(** "ms" in the registry of the parser tests: prefix "m" + unit "s". *)
Lemma Resolve_prefix_unit_witness :
  @Resolve goModel createTestSystem "ms" = (mkUnit "s" DimTime 1, 0.001%float, true).
Proof.
  apply (@Resolve_prefix_unit goModel createTestSystem "m" "s" 0.001%float
           (mkUnit "s" DimTime 1)).
  - reflexivity.
  - vm_compute. reflexivity.
  - vm_compute. reflexivity.
  - discriminate.
  - vm_compute. reflexivity.
  - intros q base Hq Hne. vm_compute in Hq.
    destruct Hq as [<-|[]]. exfalso. apply Hne. reflexivity.
Defined.

(** C3 as stated fails.  In [mmSystem] the prefix "m" is registered and
    bound to the registered unit "m", yet [Resolve("m"+"m")] is the unit
    "mm" with prefix scale 1, not the unit "m" with the scale 0.001 of the
    prefix.  In [ibSystem] the prefix "k" and the unit "ib" are registered
    and "k" is not in the whitelist of "ib", yet [Resolve("k"+"ib")] is
    found: it is "ki" + "b". *)
Lemma Resolve_prefix_unit_counterexample :
  (prefixScale mmSystem "m" = Some 0.001%float /\
   units mmSystem !! "m" = Some (mkUnit "m" DimLength 1) /\
   whitelisted mmSystem "m" "m" = true /\
   @Resolve goModel mmSystem ("m" +:+ "m") =
     (mkUnit "mm" DimLength 0.001, 1%float, true)) /\
  (prefixScale ibSystem "k" = Some 1000%float /\
   units ibSystem !! "ib" = Some (mkUnit "ib" DimStorage 8) /\
   whitelisted ibSystem "ib" "k" = false /\
   @Resolve goModel ibSystem ("k" +:+ "ib") =
     (mkUnit "b" DimStorage 1, 1024%float, true)).
Proof. vm_compute. repeat split. Qed.

Lemma kibSystem_Built : @Built goModel kibSystem.
Proof. unfold kibSystem. repeat constructor. Qed.

(** "kib" with the prefixes "k" and "ki" bound to "b". *)
Lemma longest_prefix_first_witness :
  @Resolve goModel kibSystem "kib" = (mkUnit "b" DimStorage 1, 1024%float, true).
Proof.
  destruct (@longest_prefix_first goModel goModel_SortSliceSpec) as (_ & _ & _ & Hkib).
  apply Hkib.
  - exact kibSystem_Built.
  - reflexivity.
  - vm_compute. reflexivity.
  - vm_compute. reflexivity.
  - vm_compute. reflexivity.
  - vm_compute. reflexivity.
Defined.

(** C4 as stated fails.  [kibUnitSystem] has the prefixes "k" and "ki"
    registered and bound to the unit "b", and a unit named "kib":
    [Resolve("kib")] is that unit with prefix scale 1, not the unit "b"
    with the scale 1024 of "ki". *)
Lemma longest_prefix_first_counterexample :
  prefixScale kibUnitSystem "k" = Some 1000%float /\
  prefixScale kibUnitSystem "ki" = Some 1024%float /\
  units kibUnitSystem !! "b" = Some (mkUnit "b" DimStorage 1) /\
  whitelisted kibUnitSystem "b" "k" = true /\
  whitelisted kibUnitSystem "b" "ki" = true /\
  @Resolve goModel kibUnitSystem "kib" =
    (mkUnit "kib" DimStorage 1024, 1%float, true).
Proof. vm_compute. repeat split. Qed.


(** * Properties of the parser *)

(** ** Scanning consumes input *)

Lemma skipSeps_length (s separators : string) :
  String.length (skipSeps s separators) <= String.length s.
Proof.
  induction s as [|c s IH]; simpl; [lia|].
  destruct (isNumberStart c); simpl; [lia|].
  destruct (ContainsRune separators c); simpl; lia.
Qed.

Lemma safeSkipSeps_length (s separators : string) :
  String.length (safeSkipSeps s separators) <= String.length s.
Proof. apply skipSeps_length. Qed.

Lemma numberEnd_bounds (s : string) (end_ : nat) (allowSign allowDot allowE : bool) :
  end_ <= numberEnd s end_ allowSign allowDot allowE <= end_ + String.length s.
Proof.
  revert end_ allowSign allowDot allowE.
  induction s as [|c s IH]; intros end_ allowSign allowDot allowE; simpl; [lia|].
  repeat match goal with
         | |- context [if ?b then _ else _] => destruct b
         end;
    try lia;
    match goal with
    | |- context [numberEnd s ?e ?a ?b ?c] => specialize (IH e a b c); lia
    end.
Qed.

Lemma unitEnd_bound (s separators : string) :
  unitEnd s separators <= String.length s.
Proof.
  induction s as [|c s IH]; simpl; [lia|].
  repeat match goal with
         | |- context [if ?b then _ else _] => destruct b
         end; lia.
Qed.

Section ParserFacts.
Context `{GoStd}.
Context {N : Type} `{Number N}.

Lemma parseNumber_consumes (s : string) (val : float) (nextStr : string) :
  parseNumber s = inr (val, nextStr) ->
  String.length nextStr < String.length s.
Proof.
  unfold parseNumber.
  pose proof (numberEnd_bounds s 0 true true true) as Hb.
  destruct (Nat.eqb_spec (numberEnd s 0 true true true) 0) as [|Hpos]; [discriminate|].
  destruct (ParseFloat _); [|discriminate].
  intros [= _ <-]. rewrite length_sliceFrom. lia.
Qed.

Lemma parseUnit_length (s separators unitStr nextStr : string) :
  parseUnit s separators = (unitStr, nextStr) ->
  String.length nextStr <= String.length s.
Proof.
  unfold parseUnit. intros [= _ <-]. rewrite length_sliceFrom. lia.
Qed.

(** An iteration that does not return leaves strictly less input. *)
Lemma parseStep_consumes (orig : string) (sys : System) (st st' : LoopState N) :
  parseStep orig sys st = inr st' ->
  String.length (rest st') < String.length (rest st).
Proof.
  unfold parseStep.
  destruct (_ && _); [discriminate|].
  destruct (parseNumber (rest st)) as [err|[val nextStr]] eqn:En; [discriminate|].
  apply parseNumber_consumes in En.
  destruct (parseUnit _ _) as [unitStr nextStr'] eqn:Eu.
  apply parseUnit_length in Eu.
  pose proof (safeSkipSeps_length nextStr (Separators (Config sys))).
  pose proof (safeSkipSeps_length nextStr' (Separators (Config sys))).
  destruct (String.eqb unitStr ""); [discriminate|].
  destruct (Resolve sys unitStr) as [[u scaleRatio] found].
  destruct (negb found); [discriminate|].
  destruct (_ && _); [discriminate|].
  destruct (convertPart _); [discriminate|].
  intros [= <-]. simpl. lia.
Qed.

(** The loop reaches a [return] within [len(rest)] iterations. *)
Lemma parseLoop_returns (fuel : nat) (orig : string) (sys : System) (st : LoopState N) :
  String.length (rest st) <= fuel ->
  is_Some (parseLoop fuel orig sys st).
Proof.
  revert st; induction fuel as [|fuel IH]; intros st Hlen; simpl.
  - destruct (rest st); [simpl; eauto | simpl in Hlen; lia].
  - destruct (String.eqb (rest st) ""); [eauto|].
    destruct (parseStep orig sys st) as [r|st'] eqn:E; [eauto|].
    apply IH. apply parseStep_consumes in E. lia.
Qed.

(** More fuel than that changes nothing. *)
Lemma parseLoop_fuel (fuel fuel' : nat) (orig : string) (sys : System)
    (st : LoopState N) :
  String.length (rest st) <= fuel -> String.length (rest st) <= fuel' ->
  parseLoop fuel orig sys st = parseLoop fuel' orig sys st.
Proof.
  revert fuel' st; induction fuel as [|fuel IH]; intros fuel' st Hlen Hlen'.
  - destruct (rest st) eqn:E; [|simpl in Hlen; lia].
    destruct fuel'; simpl; now rewrite E.
  - destruct fuel' as [|fuel'].
    + destruct (rest st) eqn:E; [|simpl in Hlen'; lia].
      simpl; now rewrite E.
    + simpl. destruct (String.eqb (rest st) ""); [reflexivity|].
      destruct (parseStep orig sys st) as [r|st'] eqn:E; [reflexivity|].
      apply parseStep_consumes in E. apply IH; lia.
Qed.

(** The loop from a state, with the fuel the state needs. *)
Definition run (orig : string) (sys : System) (st : LoopState N)
  : option (ParseResult N) :=
  parseLoop (String.length (rest st)) orig sys st.

Lemma run_unfold (orig : string) (sys : System) (st : LoopState N) :
  run orig sys st =
    if String.eqb (rest st) "" then Some (total st, detectedDim st, None)
    else match parseStep orig sys st with
         | inl r => Some r
         | inr st' => run orig sys st'
         end.
Proof.
  unfold run. destruct (rest st) as [|c s] eqn:E.
  - simpl. now rewrite E.
  - simpl. rewrite E. simpl.
    destruct (parseStep orig sys st) as [r|st'] eqn:Es; [reflexivity|].
    apply parseStep_consumes in Es. rewrite E in Es. simpl in Es.
    apply parseLoop_fuel; lia.
Qed.

(** The state [Parse] enters its loop with. *)
Definition initialState (s : string) (sys : System) : LoopState N :=
  mkLoopState zeroN DimDimensionless false 0
              (safeSkipSeps s (Separators (Config sys))).

Lemma Parse_run (s : string) (sys : System) :
  Parse s sys = run s sys (initialState s sys).
Proof.
  unfold Parse, run. apply parseLoop_fuel; simpl; [|lia].
  apply safeSkipSeps_length.
Qed.

(** [Parse] always returns. *)
Lemma Parse_returns (s : string) (sys : System) : is_Some (Parse (N := N) s sys).
Proof. unfold Parse. apply parseLoop_returns. simpl. apply safeSkipSeps_length. Qed.

End ParserFacts.

Section ParseFacts.
Context `{GoStd}.
Context {N : Type} `{Number N}.

(** ** The loop body on a part that scans and resolves *)

Lemma parseStep_scanned (orig : string) (sys : System) (st : LoopState N)
    (val : float) (u : Unit) (scaleRatio : float) (after : string) :
  gateOpen sys st ->
  scansPart sys (rest st) val u scaleRatio after ->
  parseStep orig sys st =
    if isDimSet st && negb (Equals (detectedDim st) (Unit_Dimension u)) then
      inl (zeroN, DimDimensionless,
           Some (ErrMixedDimensions (detectedDim st) (Unit_Dimension u)))
    else
      let detectedDim' := if isDimSet st then detectedDim st else Unit_Dimension u in
      match convertPart (val * scaleRatio * Unit_Scale u)%float with
      | inl err => inl (zeroN, detectedDim', Some err)
      | inr partN =>
          inr (mkLoopState (addN (total st) partN) detectedDim' true
                 (S (partsCount st))
                 (safeSkipSeps after (Separators (Config sys))))
      end.
Proof.
  intros Hgate (nextStr & unitStr & En & Eu & Hne & Er).
  unfold parseStep. unfold gateOpen in Hgate. rewrite Hgate, En, Eu.
  apply String.eqb_neq in Hne. rewrite Hne, Er. reflexivity.
Qed.

(** An iteration that continues has counted one more part and has a
    dimension set: the one it entered with when one was set. *)
Lemma parseStep_continues (orig : string) (sys : System) (st st' : LoopState N) :
  parseStep orig sys st = inr st' ->
  partsCount st' = S (partsCount st) /\ isDimSet st' = true /\
  (isDimSet st = true -> detectedDim st' = detectedDim st) /\
  rest st <> "".
Proof.
  unfold parseStep.
  destruct (_ && _); [discriminate|].
  destruct (parseNumber (rest st)) as [err|[val nextStr]] eqn:En; [discriminate|].
  destruct (parseUnit _ _) as [unitStr nextStr'].
  destruct (String.eqb unitStr ""); [discriminate|].
  destruct (Resolve sys unitStr) as [[u scaleRatio] found].
  destruct (negb found); [discriminate|].
  destruct (_ && _); [discriminate|].
  destruct (convertPart _); [discriminate|].
  intros [= <-]. simpl. repeat split; auto.
  - now intros ->.
  - intros E. rewrite E in En. discriminate.
Qed.

(** The error of a returning iteration is a mixed-dimensions error only
    from the dimension check. *)
Lemma parseStep_mixed (orig : string) (sys : System) (st : LoopState N)
    (r : ParseResult N) (d1 d2 : Dimension) :
  parseStep orig sys st = inl r -> r.2 = Some (ErrMixedDimensions d1 d2) ->
  gateOpen sys st /\ isDimSet st = true /\ d1 = detectedDim st /\
  Equals d1 d2 = false /\
  exists val u scaleRatio after,
    scansPart sys (rest st) val u scaleRatio after /\ d2 = Unit_Dimension u.
Proof.
  unfold parseStep, gateOpen, scansPart.
  destruct (_ && _) eqn:Hg; [intros [= <-]; discriminate|].
  destruct (parseNumber (rest st)) as [err|[val nextStr]] eqn:En.
  { unfold parseNumber in En. destruct (Nat.eqb _ 0); [|destruct (ParseFloat _)];
      try discriminate; injection En as <-; intros [= <-]; discriminate. }
  destruct (parseUnit _ _) as [unitStr nextStr'] eqn:Eu.
  destruct (String.eqb_spec unitStr "") as [|Hne]; [intros [= <-]; discriminate|].
  destruct (Resolve sys unitStr) as [[u scaleRatio] found] eqn:Er.
  destruct found; simpl; [|intros [= <-]; discriminate].
  destruct (isDimSet st) eqn:Hset; simpl.
  - destruct (Equals (detectedDim st) (Unit_Dimension u)) eqn:He; simpl.
    + unfold convertPart.
      repeat match goal with
             | |- context [if ?b then _ else _] => destruct b
             end; intros [= <-]; discriminate.
    + intros [= <-]. simpl. intros [= <- <-]. repeat split; auto.
      exists val, u, scaleRatio, nextStr'. split; [|reflexivity].
      exists nextStr, unitStr. auto.
  - unfold convertPart.
    repeat match goal with
           | |- context [if ?b then _ else _] => destruct b
           end; intros [= <-]; discriminate.
Qed.

(** A single part followed by nothing but separators. *)
Lemma Parse_single_part (s : string) (sys : System) (val : float) (u : Unit)
    (scaleRatio : float) (after : string) :
  scansPart sys (safeSkipSeps s (Separators (Config sys))) val u scaleRatio after ->
  safeSkipSeps after (Separators (Config sys)) = "" ->
  Parse s sys =
    match convertPart (val * scaleRatio * Unit_Scale u)%float with
    | inl err => Some (zeroN, Unit_Dimension u, Some err)
    | inr partN => Some (addN zeroN partN, Unit_Dimension u, None)
    end.
Proof.
  intros Hscan Hafter. rewrite Parse_run, run_unfold.
  assert (Hne : rest (initialState (N := N) s sys) <> "").
  { destruct Hscan as (nextStr & unitStr & En & _). intros E. simpl in E.
    rewrite E in En. discriminate. }
  apply String.eqb_neq in Hne. rewrite Hne.
  rewrite (parseStep_scanned s sys _ val u scaleRatio after); [|reflexivity|exact Hscan].
  simpl. destruct (convertPart _) as [err|partN]; [reflexivity|].
  rewrite run_unfold. simpl. now rewrite Hafter.
Qed.

End ParseFacts.

(** ** Dimensions *)

Lemma Equals_fields (d other : Dimension) :
  Equals d other = true <->
  Dimension_L d = Dimension_L other /\ Dimension_M d = Dimension_M other /\
  Dimension_T d = Dimension_T other /\ Dimension_I d = Dimension_I other /\
  Dimension_K d = Dimension_K other /\ Dimension_N d = Dimension_N other /\
  Dimension_J d = Dimension_J other /\ Dimension_Extra d = Dimension_Extra other.
Proof.
  unfold Equals. rewrite !andb_true_iff, !Z.eqb_eq, String.eqb_eq. tauto.
Qed.

Lemma Equals_eq (d other : Dimension) : Equals d other = true <-> d = other.
Proof.
  rewrite Equals_fields. split.
  - destruct d, other; simpl. intros (-> & -> & -> & -> & -> & -> & -> & ->). reflexivity.
  - intros ->. repeat split.
Qed.


(** ** Separators *)

Lemma skipSeps_empty_iff (s separators : string) :
  skipSeps s separators = "" <->
  forall c, In c (list_ascii_of_string s) ->
            isNumberStart c = false /\ ContainsRune separators c = true.
Proof.
  induction s as [|c s IH]; simpl.
  - split; [intros _ c [] | reflexivity].
  - destruct (isNumberStart c) eqn:Hn.
    + split; [discriminate|]. intros Hall. destruct (Hall c); [auto | congruence].
    + destruct (ContainsRune separators c) eqn:Hc.
      * rewrite IH. split.
        -- intros Hall d [<-|Hd]; auto.
        -- intros Hall d Hd. apply Hall. auto.
      * split; [discriminate|]. intros Hall. destruct (Hall c); [auto | congruence].
Qed.

Lemma containsByte_In (s : string) (c : ascii) :
  containsByte s c = true <-> In c (list_ascii_of_string s).
Proof.
  induction s as [|d s IH]; simpl; [split; [discriminate | tauto]|].
  rewrite orb_true_iff, IH, Ascii.eqb_eq. tauto.
Qed.

(** For an ASCII byte, [ContainsRune] is membership in the separator string. *)
Lemma ContainsRune_ascii (separators : string) (c : ascii) :
  nat_of_ascii c < 128 ->
  (ContainsRune separators c = true <-> In c (list_ascii_of_string separators)).
Proof.
  intros Hc. unfold ContainsRune.
  destruct (Nat.ltb_spec (nat_of_ascii c) 128); [apply containsByte_In | lia].
Qed.

Lemma wrapInt_idem (k : IntKind) (n : Z) : wrapInt k (wrapInt k n) = wrapInt k n.
Proof.
  unfold wrapInt. f_equal.
  replace ((n - minInt k) mod 2 ^ bits k + minInt k - minInt k)%Z
    with ((n - minInt k) mod 2 ^ bits k)%Z by lia.
  apply Z.mod_mod. destruct k as [[] ?]; discriminate.
Qed.

(** The snap branch on an integer that the target type cannot hold. *)
Lemma convertPart_int_out_of_range (k : IntKind) (outOfRange : float -> Z)
    (x : float) (n : Z) :
  (PrimFloat.abs (Round x - x) <=? epsilon)%float = true ->
  floatToZ (Round x) = Some n ->
  ((minInt k <=? n)%Z && (n <=? maxInt k)%Z) = false ->
  @convertPart Z (intNumber k outOfRange) x = inr (wrapInt k (outOfRange (Round x))).
Proof.
  intros Hsnap Hz Hrange. unfold convertPart. rewrite Hsnap.
  unfold ofFloat64, intNumber. now rewrite Hz, Hrange.
Qed.

Section ParseClaims.
Context `{GoStd}.

(** ** The guard of the conversion *)

(** The part "0.5u" when "u" is a unit and the letter u is not a
    separator. *)
Lemma scans_half_u (sys : System) (U : Unit) :
  ParseFloat "0.5" = Some 0.5%float ->
  units sys !! normalizeKey sys "u" = Some U ->
  ContainsRune (effectiveSeparators (Separators (Config sys))) "u" = false ->
  scansPart sys (safeSkipSeps "0.5u" (Separators (Config sys))) 0.5%float U 1%float "".
Proof.
  intros HPF HU Hsep. exists "u", "u".
  change (safeSkipSeps "0.5u" (Separators (Config sys))) with "0.5u".
  assert (Hskip : safeSkipSeps "u" (Separators (Config sys)) = "u").
  { unfold safeSkipSeps. cbn -[ContainsRune effectiveSeparators]. now rewrite Hsep. }
  split; [|split; [|split]].
  - unfold parseNumber. change (numberEnd "0.5u" 0 true true true) with 3.
    change (sliceTo 3 "0.5u") with "0.5". change (sliceFrom 3 "0.5u") with "u".
    now rewrite HPF.
  - rewrite Hskip. unfold parseUnit. cbn -[ContainsRune effectiveSeparators].
    now rewrite Hsep.
  - discriminate.
  - unfold Resolve. now rewrite HU.
Qed.

Lemma convertPart_int_half (k : IntKind) (outOfRange : float -> Z) :
  @convertPart Z (intNumber k outOfRange) 0.5%float = inl (ErrPrecisionLoss 0.5%float).
Proof. destruct k as [[] []]; vm_compute; reflexivity. Qed.

(** C1, as amended.  Precision-loss guard: for every registry that contains
    a unit "u" with scale 1.0 and does not have the letter u among its
    separators, parsing "0.5u" into an integer target fails with the
    precision-loss error, while parsing it into a float64 or float32 target
    succeeds and returns 0.5.  In general, for a part that scans and
    resolves, with [partVal = number * prefixScale * unitScale]: when
    [partVal] is within 1e-12 of [math.Round(partVal)] the value added to
    the total is [N(rounded)]; otherwise [Parse] fails with the
    precision-loss error exactly when [float64(N(partVal))] differs from
    [partVal] by more than 1e-12, and adds [N(partVal)] when it does not.
    This is stated for one iteration of the loop and for the result of
    [Parse] on an input of one part. *)
Theorem precision_loss_guard :
  (forall (N : Type) (HN : Number N) orig sys (st : LoopState N) val u scaleRatio after,
     gateOpen sys st ->
     scansPart sys (rest st) val u scaleRatio after ->
     isDimSet st && negb (Equals (detectedDim st) (Unit_Dimension u)) = false ->
     let partVal := (val * scaleRatio * Unit_Scale u)%float in
     let detectedDim' := if isDimSet st then detectedDim st else Unit_Dimension u in
     let accumulate (partN : N) : ParseResult N + LoopState N :=
       inr (mkLoopState (addN (total st) partN) detectedDim' true
              (S (partsCount st)) (safeSkipSeps after (Separators (Config sys)))) in
     parseStep orig sys st =
       if (PrimFloat.abs (Round partVal - partVal) <=? epsilon)%float then
         accumulate (ofFloat64 (Round partVal))
       else if (epsilon <? PrimFloat.abs (toFloat64 (ofFloat64 (N := N) partVal) - partVal))%float
       then inl (zeroN, detectedDim', Some (ErrPrecisionLoss partVal))
       else accumulate (ofFloat64 partVal)) /\
  (forall (N : Type) (HN : Number N) s sys val u scaleRatio after,
     scansPart sys (safeSkipSeps s (Separators (Config sys))) val u scaleRatio after ->
     safeSkipSeps after (Separators (Config sys)) = "" ->
     let partVal := (val * scaleRatio * Unit_Scale u)%float in
     Parse s sys =
       if (PrimFloat.abs (Round partVal - partVal) <=? epsilon)%float then
         Some (addN zeroN (ofFloat64 (Round partVal)), Unit_Dimension u, None)
       else if (epsilon <? PrimFloat.abs (toFloat64 (ofFloat64 (N := N) partVal) - partVal))%float
       then Some (zeroN, Unit_Dimension u, Some (ErrPrecisionLoss partVal))
       else Some (addN zeroN (ofFloat64 partVal), Unit_Dimension u, None)) /\
  (forall sys U,
     ParseFloat "0.5" = Some 0.5%float ->
     units sys !! normalizeKey sys "u" = Some U ->
     Unit_Scale U = 1%float ->
     ContainsRune (effectiveSeparators (Separators (Config sys))) "u" = false ->
     (forall k outOfRange,
        @Parse _ Z (intNumber k outOfRange) "0.5u" sys =
          Some (0%Z, Unit_Dimension U, Some (ErrPrecisionLoss 0.5%float))) /\
     @Parse _ float float64Number "0.5u" sys = Some (0.5%float, Unit_Dimension U, None) /\
     @Parse _ float float32Number "0.5u" sys = Some (0.5%float, Unit_Dimension U, None)).
Proof.
  split; [|split].
  - intros N HN orig sys st val u scaleRatio after Hgate Hscan Hdim partVal dim' acc.
    rewrite (parseStep_scanned orig sys st val u scaleRatio after Hgate Hscan), Hdim.
    fold partVal dim'. unfold convertPart.
    destruct (PrimFloat.abs (Round partVal - partVal) <=? epsilon)%float; [reflexivity|].
    destruct (epsilon <? PrimFloat.abs (toFloat64 (ofFloat64 partVal) - partVal))%float;
      reflexivity.
  - intros N HN s sys val u scaleRatio after Hscan Hafter partVal.
    rewrite (Parse_single_part s sys val u scaleRatio after Hscan Hafter).
    fold partVal. unfold convertPart.
    destruct (PrimFloat.abs (Round partVal - partVal) <=? epsilon)%float; [reflexivity|].
    destruct (epsilon <? PrimFloat.abs (toFloat64 (ofFloat64 partVal) - partVal))%float;
      reflexivity.
  - intros sys U HPF HU Hscale Hsep.
    pose proof (scans_half_u sys U HPF HU Hsep) as Hscan.
    assert (Hafter : safeSkipSeps "" (Separators (Config sys)) = "") by reflexivity.
    assert (Hval : (0.5 * 1 * Unit_Scale U)%float = 0.5%float) by now rewrite Hscale.
    split; [|split].
    + intros k outOfRange.
      rewrite (Parse_single_part _ sys _ U _ _ Hscan Hafter), Hval.
      now rewrite convertPart_int_half.
    + now rewrite (Parse_single_part _ sys _ U _ _ Hscan Hafter), Hval.
    + now rewrite (Parse_single_part _ sys _ U _ _ Hscan Hafter), Hval.
Qed.

(** C10. No range check in the integer-snap branch: for any target type,
    when the value of a part is within 1e-12 of [math.Round] of itself the
    iteration adds [N(rounded)] to the total and goes on - [float64(N(...))]
    is not computed and no precision-loss error is raised, whatever [N]
    makes of the value; an input of one such part parses without error.  So
    "1000u" parses into an int8 and "1e19u" into an
    int64 without error, the result being whatever the conversion of the
    out-of-range value yields. *)
Theorem snap_branch_has_no_range_check :
  (forall (N : Type) (HN : Number N) orig sys (st : LoopState N) val u scaleRatio after,
     gateOpen sys st ->
     scansPart sys (rest st) val u scaleRatio after ->
     isDimSet st && negb (Equals (detectedDim st) (Unit_Dimension u)) = false ->
     let partVal := (val * scaleRatio * Unit_Scale u)%float in
     (PrimFloat.abs (Round partVal - partVal) <=? epsilon)%float = true ->
     parseStep orig sys st =
       inr (mkLoopState (addN (total st) (ofFloat64 (Round partVal)))
              (if isDimSet st then detectedDim st else Unit_Dimension u) true
              (S (partsCount st)) (safeSkipSeps after (Separators (Config sys))))) /\
  (forall (N : Type) (HN : Number N) s sys val u scaleRatio after,
     scansPart sys (safeSkipSeps s (Separators (Config sys))) val u scaleRatio after ->
     safeSkipSeps after (Separators (Config sys)) = "" ->
     let partVal := (val * scaleRatio * Unit_Scale u)%float in
     (PrimFloat.abs (Round partVal - partVal) <=? epsilon)%float = true ->
     Parse s sys = Some (addN zeroN (ofFloat64 (Round partVal)), Unit_Dimension u, None)) /\
  (forall outOfRange,
     floatToZ 1000%float = Some 1000%Z /\ (maxInt int8Kind <? 1000)%Z = true /\
     @Parse goModel Z (intNumber int8Kind outOfRange) "1000u" createStrictIntSystem =
       Some (wrapInt int8Kind (outOfRange 1000%float), mkDimension 1 0 0 0 0 0 0 "", None)) /\
  (forall outOfRange,
     floatToZ 1e19%float = Some (10 ^ 19)%Z /\ (maxInt int64Kind <? 10 ^ 19)%Z = true /\
     @Parse goModel Z (intNumber int64Kind outOfRange) "1e19u" createStrictIntSystem =
       Some (wrapInt int64Kind (outOfRange 1e19%float), mkDimension 1 0 0 0 0 0 0 "", None)).
Proof.
  split; [|split; [|split]].
  - intros N HN orig sys st val u scaleRatio after Hgate Hscan Hdim partVal Hsnap.
    rewrite (parseStep_scanned orig sys st val u scaleRatio after Hgate Hscan), Hdim.
    fold partVal. unfold convertPart. now rewrite Hsnap.
  - intros N HN s sys val u scaleRatio after Hscan Hafter partVal Hsnap.
    rewrite (Parse_single_part s sys val u scaleRatio after Hscan Hafter).
    fold partVal. unfold convertPart. now rewrite Hsnap.
  - intros outOfRange. split; [reflexivity|]. split; [reflexivity|].
    rewrite (@Parse_single_part goModel Z _ "1000u" createStrictIntSystem 1000%float
               (mkUnit "u" (mkDimension 1 0 0 0 0 0 0 "") 1) 1%float "").
    + change (1000 * 1 * Unit_Scale _)%float with 1000%float.
      rewrite (convertPart_int_out_of_range int8Kind outOfRange 1000%float 1000%Z)
        by reflexivity.
      change (Round 1000%float) with 1000%float.
      unfold addN, zeroN, intNumber. now rewrite Z.add_0_l, wrapInt_idem.
    + exists "u", "u". vm_compute. repeat split. discriminate.
    + reflexivity.
  - intros outOfRange. split; [vm_compute; reflexivity|]. split; [reflexivity|].
    rewrite (@Parse_single_part goModel Z _ "1e19u" createStrictIntSystem 1e19%float
               (mkUnit "u" (mkDimension 1 0 0 0 0 0 0 "") 1) 1%float "").
    + change (1e19 * 1 * Unit_Scale _)%float with 1e19%float.
      rewrite (convertPart_int_out_of_range int64Kind outOfRange 1e19%float (10 ^ 19)%Z)
        by (vm_compute; reflexivity).
      replace (Round 1e19%float) with 1e19%float by (vm_compute; reflexivity).
      unfold addN, zeroN, intNumber. now rewrite Z.add_0_l, wrapInt_idem.
    + exists "u", "u". vm_compute. repeat split. discriminate.
    + reflexivity.
Qed.

(** ** The multi-part gate *)

(** C5, as amended.  The multi-part gate is the first statement of the loop
    body: in a registry that disallows multi-part accumulation, every
    iteration after the first returns the "multi-part not allowed" error
    before the part's number is scanned, its unit resolved or its dimension
    checked.  So when the first part has been accumulated and input remains
    after the separators that follow it, [Parse] fails with the multi-part
    error, whatever that input is (a second part with an unknown unit
    included). *)
Theorem multi_part_gate (sys : System) :
  AllowMultiPart (Config sys) = false ->
  (forall (N : Type) (HN : Number N) orig (st : LoopState N),
     0 < partsCount st ->
     parseStep orig sys st = inl (zeroN, DimDimensionless, Some (ErrMultiPart orig))) /\
  (forall (N : Type) (HN : Number N) s (st1 : LoopState N),
     parseStep s sys (initialState s sys) = inr st1 ->
     rest st1 <> "" ->
     Parse s sys = Some (zeroN, DimDimensionless, Some (ErrMultiPart s))).
Proof.
  intros Hallow.
  assert (Hgate : forall (N : Type) (HN : Number N) orig (st : LoopState N),
            0 < partsCount st ->
            parseStep orig sys st = inl (zeroN, DimDimensionless, Some (ErrMultiPart orig))).
  { intros N HN orig st Hcount. unfold parseStep. rewrite Hallow.
    destruct (Nat.ltb_spec 0 (partsCount st)); [reflexivity | lia]. }
  split; [exact Hgate|].
  intros N HN s st1 Hstep Hrest.
  rewrite Parse_run, run_unfold.
  destruct (parseStep_continues _ _ _ _ Hstep) as (Hcount & _ & _ & Hne).
  apply String.eqb_neq in Hne. rewrite Hne, Hstep.
  rewrite run_unfold. apply String.eqb_neq in Hrest. rewrite Hrest.
  rewrite Hgate by lia. reflexivity.
Qed.

(** ** Mixed dimensions *)

Lemma parseLoop_mixed {N : Type} {HN : Number N} (fuel : nat) (orig : string)
    (sys : System) (st : LoopState N) (v : N) (d d1 d2 : Dimension) :
  parseLoop fuel orig sys st = Some (v, d, Some (ErrMixedDimensions d1 d2)) ->
  Equals d1 d2 = false.
Proof.
  revert st; induction fuel as [|fuel IH]; intros st; simpl.
  - destruct (String.eqb (rest st) ""); discriminate.
  - destruct (String.eqb (rest st) ""); [discriminate|].
    destruct (parseStep orig sys st) as [r|st'] eqn:E; [|apply IH].
    intros [= ->]. eapply (parseStep_mixed orig sys st) in E; [|reflexivity].
    tauto.
Qed.







(** ** Empty input *)

(** C8, as amended.  Empty-input success: for every registry and target
    [N], when the leading separator skip leaves nothing, [Parse] returns the
    zero value of [N] and the dimensionless dimension with no error.  The
    skip leaves nothing exactly when every byte of the input is accepted by
    [strings.ContainsRune] for the effective separator set (the configured
    one, or the default one when none is configured) and is not a digit,
    '.', '+' or '-'; for an ASCII byte, being accepted means being one of the
    separator characters.  So an input made only of ASCII separator
    characters, none of which can start a number, parses to zero. *)
Theorem empty_input_success :
  (forall (N : Type) (HN : Number N) s sys,
     safeSkipSeps s (Separators (Config sys)) = "" ->
     Parse s sys = Some (zeroN, DimDimensionless, None)) /\
  (forall (N : Type) (HN : Number N) sys,
     Parse "" sys = Some (zeroN, DimDimensionless, None)) /\
  (forall s separators,
     safeSkipSeps s separators = "" <->
     forall c, In c (list_ascii_of_string s) ->
       isNumberStart c = false /\
       ContainsRune (effectiveSeparators separators) c = true) /\
  (forall separators c,
     nat_of_ascii c < 128 ->
     (ContainsRune separators c = true <-> In c (list_ascii_of_string separators))) /\
  (forall (N : Type) (HN : Number N) s sys,
     (forall c, In c (list_ascii_of_string s) ->
        nat_of_ascii c < 128 /\ isNumberStart c = false /\
        In c (list_ascii_of_string (effectiveSeparators (Separators (Config sys))))) ->
     Parse s sys = Some (zeroN, DimDimensionless, None)).
Proof.
  assert (Hskip : forall (N : Type) (HN : Number N) s sys,
            safeSkipSeps s (Separators (Config sys)) = "" ->
            Parse s sys = Some (zeroN, DimDimensionless, None)).
  { intros N HN s sys Hs. unfold Parse. rewrite Hs. now destruct (String.length s). }
  split; [exact Hskip|]. split; [|split; [|split]].
  - intros N HN sys. now apply Hskip.
  - intros s separators. apply skipSeps_empty_iff.
  - exact ContainsRune_ascii.
  - intros N HN s sys Hs. apply Hskip, skipSeps_empty_iff.
    intros c Hc. destruct (Hs c Hc) as (Hascii & Hstart & Hin).
    split; [exact Hstart|]. now apply ContainsRune_ascii.
Qed.

End ParseClaims.

(** ** The claims of the parser at concrete registries *)

(** "0.5u" in the registry of the generics tests. *)
Lemma precision_loss_guard_witness :
  @Parse goModel Z int64Number "0.5u" createStrictIntSystem =
    Some (0%Z, mkDimension 1 0 0 0 0 0 0 "", Some (ErrPrecisionLoss 0.5%float)) /\
  @Parse goModel float float64Number "0.5u" createStrictIntSystem =
    Some (0.5%float, mkDimension 1 0 0 0 0 0 0 "", None).
Proof.
  destruct (@precision_loss_guard goModel) as (_ & _ & Hhalf).
  destruct (Hhalf createStrictIntSystem (mkUnit "u" (mkDimension 1 0 0 0 0 0 0 "") 1))
    as (Hint & Hfloat & _); try reflexivity.
  split; [apply Hint | exact Hfloat].
Defined.

(** C1 as stated fails.  [separatorUSystem] contains the unit "u" with
    scale 1.0, and has the letter u as its separator: the unit scan of
    "0.5u" finds nothing, and [Parse] returns the missing-unit error for the
    integer target (not the precision-loss error) and for the float64 target
    (not 0.5). *)
Lemma precision_loss_guard_counterexample :
  units separatorUSystem !! "u" = Some (mkUnit "u" DimLength 1) /\
  @Parse goModel Z int64Number "0.5u" separatorUSystem =
    Some (0%Z, DimDimensionless, Some (ErrMissingUnit "0.5u")) /\
  @Parse goModel float float64Number "0.5u" separatorUSystem =
    Some (0%float, DimDimensionless, Some (ErrMissingUnit "0.5u")).
Proof. vm_compute. repeat split. Qed.

(** "1B2B" in the registry of [TestParse_MultiPartRestriction]. *)
Lemma multi_part_gate_witness :
  @Parse goModel float float64Number "1B2B" multiPartRestrictedSystem =
    Some (0%float, DimDimensionless, Some (ErrMultiPart "1B2B")).
Proof.
  destruct (@multi_part_gate goModel multiPartRestrictedSystem eq_refl) as [_ Hparse].
  apply (Hparse float float64Number "1B2B"
           (mkLoopState 1%float DimStorage true 1 "2B")).
  - vm_compute. reflexivity.
  - discriminate.
Defined.

(** C5 as stated fails.  With multi-part accumulation disallowed, the second
    part of "1B2x" has the unknown unit "x", and [Parse] returns the
    multi-part error, not the unknown-unit error: the gate comes before the
    second part is scanned and resolved. *)
Lemma multi_part_gate_counterexample :
  AllowMultiPart (Config multiPartRestrictedSystem) = false /\
  @Resolve goModel multiPartRestrictedSystem "x" = (zeroUnit, 0%float, false) /\
  @Parse goModel float float64Number "1B2x" multiPartRestrictedSystem =
    Some (0%float, DimDimensionless, Some (ErrMultiPart "1B2x")).
Proof. vm_compute. repeat split. Qed.


(** C8 as stated fails.  In the registry of [TestParse_TrickySeparators] the
    digit 3 is a configured separator; the input "3" consists of that
    separator only, and [Parse] returns the missing-unit error: a byte that
    can start a number is never skipped. *)
Lemma empty_input_success_counterexample :
  Separators (Config trickySeparatorsSystem) = "3 " /\
  ContainsRune (effectiveSeparators (Separators (Config trickySeparatorsSystem))) "3" = true /\
  @Parse goModel float float64Number "3" trickySeparatorsSystem =
    Some (0%float, DimDimensionless, Some (ErrMissingUnit "3")).
Proof. vm_compute. repeat split. Qed.

(** * The store behind [*System]

    A [*System] is a pointer to a struct whose maps and prefix slice are
    themselves references: two registries can share a map or a backing
    array.  This module puts the objects in a store, gives the operations of
    the package as they read and write it, and relates a pointer in a store
    to the registry value it stands for ([Represents]). *)
Module Store.

Definition loc := nat.

(** A slice header: the backing array and the length.  (The capacity is the
    length of the backing array: the code never reslices.) *)
Record Slice := mkSlice { array : loc; len : nat }.

Inductive Object :=
| ObjSystem (unitsRef : loc) (prefixesHdr : Slice) (config : SystemConfig)
            (unitPrefixesRef : loc)          (* a [System] struct *)
| ObjUnits (m : gmap string Unit)            (* a [map[string]Unit] *)
| ObjArray (elems : list Prefix)             (* the backing array of a [[]Prefix] *)
| ObjBindings (m : gmap string loc)          (* a [map[string]map[string]bool] *)
| ObjSet (m : gmap string bool).             (* a [map[string]bool] *)

Abbreviation Heap := (gmap loc Object).

(** What the Go runtime decides: the address of a new object, which is not
    in use, and how much spare capacity [append] gives a slice it has to
    move. *)
Class GoRuntime := {
  newLoc : Heap -> loc;
  newLoc_fresh : forall h, h !! newLoc h = None;
  spareCapacity : nat -> nat }.

Definition getSystem (h : Heap) (p : loc) : option (loc * Slice * SystemConfig * loc) :=
  match h !! p with Some (ObjSystem u s c b) => Some (u, s, c, b) | _ => None end.
Definition getUnits (h : Heap) (l : loc) : option (gmap string Unit) :=
  match h !! l with Some (ObjUnits m) => Some m | _ => None end.
Definition getArray (h : Heap) (l : loc) : option (list Prefix) :=
  match h !! l with Some (ObjArray a) => Some a | _ => None end.
Definition getBindings (h : Heap) (l : loc) : option (gmap string loc) :=
  match h !! l with Some (ObjBindings m) => Some m | _ => None end.
Definition getSet (h : Heap) (l : loc) : option (gmap string bool) :=
  match h !! l with Some (ObjSet m) => Some m | _ => None end.

(** [Prefix{}] *)
Definition zeroPrefix : Prefix := mkPrefix "" 0%float.

Section Operations.
Context `{GoStd} `{GoRuntime}.

Definition alloc (h : Heap) (o : Object) : Heap * loc :=
  (<[newLoc h := o]> h, newLoc h).

Definition normalize (config : SystemConfig) (k : string) : string :=
  if CaseInsensitive config then ToLower k else k.

(** [NewSystem]: two maps, an empty slice and the struct are allocated. *)
Definition hNewSystem (h : Heap) (config : SystemConfig) : Heap * loc :=
  let '(h, u) := alloc h (ObjUnits ∅) in
  let '(h, a) := alloc h (ObjArray []) in
  let '(h, b) := alloc h (ObjBindings ∅) in
  alloc h (ObjSystem u (mkSlice a 0) config b).

(** [s.units[key] = Unit{...}] writes the map object in place.  [None] is a
    run-time panic (a nil or dangling reference), which [Represents]
    excludes. *)
Definition hAdd (h : Heap) (p : loc) (symbol : string) (scale : float)
    (dim : Dimension) : option Heap :=
  '(u, _, config, _) ← getSystem h p;
  um ← getUnits h u;
  Some (<[u := ObjUnits (<[normalize config symbol := mkUnit symbol dim scale]> um)]> h).

(** [s.Config = config] writes the struct. *)
Definition hSetConfig (h : Heap) (p : loc) (config : SystemConfig) : option Heap :=
  '(u, s, _, b) ← getSystem h p;
  Some (<[p := ObjSystem u s config b]> h).

(** [append(s, x)]: in place when the backing array has room, in a new
    array otherwise. *)
Definition hAppend (h : Heap) (s : Slice) (x : Prefix) : option (Heap * Slice) :=
  arr ← getArray h (array s);
  if Nat.ltb (len s) (length arr) then
    Some (<[array s := ObjArray (<[len s := x]> arr)]> h, mkSlice (array s) (S (len s)))
  else
    let '(h', a') :=
      alloc h (ObjArray (take (len s) arr ++
                         x :: replicate (spareCapacity (length arr)) zeroPrefix)) in
    Some (h', mkSlice a' (S (len s))).

(** [sort.Slice(s, less)] permutes the elements of the slice in place. *)
Definition hSort (h : Heap) (s : Slice) : option Heap :=
  arr ← getArray h (array s);
  Some (<[array s := ObjArray (SortSlice longerSymbol (take (len s) arr) ++
                               drop (len s) arr)]> h).

(** The binding loop of [AddPrefix]. *)
Fixpoint hBindTargets (h : Heap) (p : loc) (pKey : string)
    (targetUnits : list string) : option (Heap * option RegistryError) :=
  match targetUnits with
  | [] => Some (h, None)
  | uSymbol :: more =>
      '(u, _, config, b) ← getSystem h p;
      um ← getUnits h u;
      let uKey := normalize config uSymbol in
      match um !! uKey with
      | None => Some (h, Some (ErrUnknownTargetUnit uSymbol))
      | Some _ =>
          outer ← getBindings h b;
          '(h1, r) ←
            match outer !! uKey with
            | Some r => Some (h, r)
            | None =>
                (* s.unitPrefixes[uKey] = make(map[string]bool) *)
                let '(h1, r) := alloc h (ObjSet ∅) in
                Some (<[b := ObjBindings (<[uKey := r]> outer)]> h1, r)
            end;
          set ← getSet h1 r;
          (* s.unitPrefixes[uKey][pKey] = true *)
          hBindTargets (<[r := ObjSet (<[pKey := true]> set)]> h1) p pKey more
      end
  end.

Definition hAddPrefix (h : Heap) (p : loc) (prefixSymbol : string) (scale : float)
    (targetUnits : list string) : option (Heap * option RegistryError) :=
  '(u, s, config, b) ← getSystem h p;
  arr ← getArray h (array s);
  let pKey := normalize config prefixSymbol in
  match scanPrefixes (take (len s) arr) pKey scale with
  | ScanConflict => Some (h, Some (ErrPrefixConflict prefixSymbol))
  | ScanExists => hBindTargets h p pKey targetUnits
  | ScanAbsent =>
      '(h1, s1) ← hAppend h s (mkPrefix pKey scale);
      (* s.prefixes = append(...) *)
      let h2 := <[p := ObjSystem u s1 config b]> h1 in
      h3 ← hSort h2 s1;
      hBindTargets h3 p pKey targetUnits
  end.

(** [s.prefixes[i].Scale = newScale] writes the backing array in place. *)
Definition hOverwritePrefix (h : Heap) (p : loc) (symbol : string)
    (newScale : float) : option (Heap * option RegistryError) :=
  '(_, s, config, _) ← getSystem h p;
  arr ← getArray h (array s);
  match overwriteFirst (take (len s) arr) (normalize config symbol) newScale with
  | Some ps => Some (<[array s := ObjArray (ps ++ drop (len s) arr)]> h, None)
  | None => Some (h, Some (ErrPrefixNotFound symbol))
  end.

(** The loop of [Clone] over [s.unitPrefixes]: every set is copied into a
    new map object, which is stored in the new outer map [b']. *)
Fixpoint hCopySets (h : Heap) (b' : loc) (entries : list (string * loc))
  : option Heap :=
  match entries with
  | [] => Some h
  | (uKey, r) :: more =>
      pSet ← getSet h r;
      let '(h1, r') :=
        alloc h (ObjSet (map_fold (fun pKey allowed set => <[pKey := allowed]> set) ∅ pSet)) in
      outer' ← getBindings h1 b';
      hCopySets (<[b' := ObjBindings (<[uKey := r']> outer')]> h1) b' more
  end.

(** [func (s *System) Clone() *System]: the new store and the new pointer. *)
Definition hClone (h : Heap) (p : loc) : option (Heap * loc) :=
  '(u, s, config, b) ← getSystem h p;
  (* 1. Copy Config *)
  let '(h1, q) := hNewSystem h config in
  '(u', s', _, b') ← getSystem h1 q;
  (* 2. Copy Units *)
  um ← getUnits h1 u;
  um' ← getUnits h1 u';
  let h2 := <[u' := ObjUnits (map_fold (fun k x acc => <[k := x]> acc) um' um)]> h1 in
  (* 3. Copy Prefixes *)
  arr ← getArray h2 (array s);
  let h3 :=
    if Nat.ltb 0 (len s) then
      let '(h3, a') := alloc h2 (ObjArray (take (len s) arr)) in
      <[q := ObjSystem u' (mkSlice a' (len s)) config b']> h3
    else h2 in
  (* 4. Copy Bindings (Deep Copy) *)
  outer ← getBindings h3 b;
  h4 ← hCopySets h3 b' (map_to_list outer);
  Some (h4, q).

(** [Resolve] reads the store. *)
Definition hTryPrefix (h : Heap) (um : gmap string Unit) (outer : gmap string loc)
    (lookupSymbol : string) (p : Prefix) : option (option (Unit * float * bool)) :=
  let pLen := String.length (Prefix_Symbol p) in
  if Nat.ltb pLen (String.length lookupSymbol) &&
     String.eqb (sliceTo pLen lookupSymbol) (Prefix_Symbol p) then
    let baseSymbol := sliceFrom pLen lookupSymbol in
    match um !! baseSymbol with
    | Some u =>
        match outer !! baseSymbol with
        | Some r =>
            allowedPrefixes ← getSet h r;
            Some (if default false (allowedPrefixes !! Prefix_Symbol p)
                  then Some (u, Prefix_Scale p, true) else None)
        | None => Some None
        end
    | None => Some None
    end
  else Some None.

Fixpoint hResolvePrefixes (h : Heap) (um : gmap string Unit) (outer : gmap string loc)
    (lookupSymbol : string) (ps : list Prefix) : option (Unit * float * bool) :=
  match ps with
  | [] => Some (zeroUnit, 0%float, false)
  | p :: more =>
      r ← hTryPrefix h um outer lookupSymbol p;
      match r with
      | Some found => Some found
      | None => hResolvePrefixes h um outer lookupSymbol more
      end
  end.

Definition hResolve (h : Heap) (p : loc) (symbol : string)
  : option (Unit * float * bool) :=
  '(u, s, config, b) ← getSystem h p;
  um ← getUnits h u;
  let lookupSymbol := normalize config symbol in
  match um !! lookupSymbol with
  | Some un => Some (un, 1%float, true)
  | None =>
      arr ← getArray h (array s);
      outer ← getBindings h b;
      hResolvePrefixes h um outer lookupSymbol (take (len s) arr)
  end.

(** The mutating operations (the three methods and an assignment to the
    exported [Config] field), as data; [runOps] applies a sequence of them
    to the registry behind one pointer (the errors they return are
    dropped, the store they leave is kept). *)
Inductive Op :=
| OpAdd (symbol : string) (scale : float) (dim : Dimension)
| OpAddPrefix (prefixSymbol : string) (scale : float) (targetUnits : list string)
| OpOverwritePrefix (symbol : string) (newScale : float)
| OpSetConfig (config : SystemConfig).

Definition runOp (h : Heap) (p : loc) (op : Op) : option Heap :=
  match op with
  | OpAdd symbol scale dim => hAdd h p symbol scale dim
  | OpAddPrefix prefixSymbol scale targetUnits =>
      fst <$> hAddPrefix h p prefixSymbol scale targetUnits
  | OpOverwritePrefix symbol newScale =>
      fst <$> hOverwritePrefix h p symbol newScale
  | OpSetConfig config => hSetConfig h p config
  end.

Fixpoint runOps (h : Heap) (p : loc) (ops : list Op) : option Heap :=
  match ops with
  | [] => Some h
  | op :: more => h' ← runOp h p op; runOps h' p more
  end.

(** The same operations on registry values. *)
Definition applyOp (s : System) (op : Op) : System :=
  match op with
  | OpAdd symbol scale dim => Add s symbol scale dim
  | OpAddPrefix prefixSymbol scale targetUnits =>
      (AddPrefix s prefixSymbol scale targetUnits).1
  | OpOverwritePrefix symbol newScale => (OverwritePrefix s symbol newScale).1
  | OpSetConfig config => SetConfig s config
  end.

Definition applyOps (s : System) (ops : list Op) : System :=
  fold_left applyOp ops s.

(** A sequence of operations, each on the source registry or on its clone. *)
Inductive Side := OnSource | OnClone.

Definition pointerOf (pS pC : loc) (w : Side) : loc :=
  match w with OnSource => pS | OnClone => pC end.

Fixpoint runMixed (h : Heap) (pS pC : loc) (ops : list (Side * Op)) : option Heap :=
  match ops with
  | [] => Some h
  | (w, op) :: more => h' ← runOp h (pointerOf pS pC w) op; runMixed h' pS pC more
  end.

(** The operations of the sequence that are on side [w]. *)
Fixpoint opsOn (w : Side) (ops : list (Side * Op)) : list Op :=
  match ops with
  | [] => []
  | (OnSource, op) :: more =>
      match w with OnSource => op :: opsOn w more | OnClone => opsOn w more end
  | (OnClone, op) :: more =>
      match w with OnSource => opsOn w more | OnClone => op :: opsOn w more end
  end.

(** ** What a pointer stands for *)

(** The sets behind the outer map are the whitelists [bm]; no set is shared
    by two units. *)
Definition bindingsRep (h : Heap) (outer : gmap string loc)
    (bm : gmap string (gmap string bool)) : Prop :=
  (forall k, bm !! k = outer !! k ≫= getSet h) /\
  (forall k r, outer !! k = Some r -> is_Some (getSet h r)) /\
  (forall k1 k2 r, outer !! k1 = Some r -> outer !! k2 = Some r -> k1 = k2).

Inductive Represents (h : Heap) (p : loc) (s : System) : Prop :=
| Represents_intro u a n b arr outer :
    h !! p = Some (ObjSystem u (mkSlice a n) (Config s) b) ->
    h !! u = Some (ObjUnits (units s)) ->
    h !! a = Some (ObjArray arr) ->
    n <= length arr ->
    prefixes s = take n arr ->
    h !! b = Some (ObjBindings outer) ->
    bindingsRep h outer (unitPrefixes s) ->
    Represents h p s.

(** The locations the registry behind [p] is made of. *)
Definition footprint (h : Heap) (p : loc) : gset loc :=
  match h !! p with
  | Some (ObjSystem u s _ b) =>
      {[p]} ∪ {[u]} ∪ {[array s]} ∪ {[b]} ∪
      match h !! b with
      | Some (ObjBindings outer) => map_img outer
      | _ => ∅
      end
  | _ => {[p]}
  end.

End Operations.

(** An executable runtime: the first unused address, and an array that
    doubles when [append] has to move it. *)
Definition goRuntime : GoRuntime.
Proof.
  refine {| newLoc := fun h => fresh (dom h); spareCapacity := fun n => n |}.
  intros h. apply not_elem_of_dom. apply is_fresh.
Defined.

(** The registry of [TestSystem_CloneAndOverwrite], built in the empty
    store. *)
Definition cloneTestStore : option (Heap * loc) :=
  let '(h, p) := @hNewSystem goRuntime ∅ (mkSystemConfig false false "") in
  h ← @hAdd goModel h p "B" 1 DimStorage;
  '(h, _) ← @hAddPrefix goModel goRuntime h p "k" 1000 ["B"];
  Some (h, p).

Definition cloneTestSystem : System :=
  let sys := @NewSystem (mkSystemConfig false false "") in
  let sys := @Add goModel sys "B" 1 DimStorage in
  (@AddPrefix goModel sys "k" 1000 ["B"]).1.
Section StoreFacts.
Context `{GoStd} `{GoRuntime}.

(** ** Allocation and frames *)

Lemma newLoc_not_in_dom (h : Heap) : newLoc h ∉ dom h.
Proof. apply not_elem_of_dom. apply newLoc_fresh. Qed.

Lemma lookup_alloc_old (h : Heap) (o : Object) (l : loc) :
  l ∈ dom h -> (alloc h o).1 !! l = h !! l.
Proof.
  intros Hl. unfold alloc; simpl. apply lookup_insert_ne.
  intros <-. now apply newLoc_not_in_dom in Hl.
Qed.

Lemma lookup_Some_dom (h : Heap) (l : loc) (o : Object) :
  h !! l = Some o -> l ∈ dom h.
Proof. intros E. apply elem_of_dom. eauto. Qed.

Lemma getSet_Some_dom (h : Heap) (r : loc) (set : gmap string bool) :
  getSet h r = Some set -> r ∈ dom h.
Proof.
  unfold getSet. intros E. apply elem_of_dom.
  destruct (h !! r); [eauto | discriminate].
Qed.

Lemma getSet_Some (h : Heap) (r : loc) (set : gmap string bool) :
  getSet h r = Some set <-> h !! r = Some (ObjSet set).
Proof.
  unfold getSet. destruct (h !! r) as [[]|]; split; intros E; try discriminate;
    congruence.
Qed.

(** Membership in the footprint of a registry whose struct and outer
    binding map can be read. *)
Lemma elem_of_footprint (h : Heap) (p u b : loc) (sl : Slice) (config : SystemConfig)
    (outer : gmap string loc) (l : loc) :
  h !! p = Some (ObjSystem u sl config b) ->
  h !! b = Some (ObjBindings outer) ->
  l ∈ footprint h p <->
  l = p \/ l = u \/ l = array sl \/ l = b \/ exists k, outer !! k = Some l.
Proof.
  intros Hp Hb. unfold footprint. rewrite Hp, Hb.
  rewrite !elem_of_union, !elem_of_singleton, elem_of_map_img. tauto.
Qed.

(** [h'] is a store reached from [h] by work on the registry behind [p]:
    whatever existed outside the footprint of [p] is as it was, nothing is
    freed, and the footprint has grown by new locations only. *)
Definition frames (h h' : Heap) (p : loc) : Prop :=
  (forall l, l ∈ dom h -> l ∉ footprint h p -> h' !! l = h !! l) /\
  dom h ⊆ dom h' /\
  (forall l, l ∈ footprint h' p -> l ∈ footprint h p \/ l ∉ dom h).

Lemma frames_refl (h : Heap) (p : loc) : frames h h p.
Proof. repeat split; auto. Qed.

Lemma frames_trans (h h1 h2 : Heap) (p : loc) :
  frames h h1 p -> frames h1 h2 p -> frames h h2 p.
Proof.
  intros (F1 & D1 & G1) (F2 & D2 & G2). repeat split.
  - intros l Hl Hn. rewrite F2, F1; auto.
    intros Hf. destruct (G1 l Hf); auto.
  - set_solver.
  - intros l Hl. destruct (G2 l Hl) as [Hf|Hd]; [auto|].
    right. intros Hd'. apply Hd. set_solver.
Qed.

Lemma Represents_closed (h : Heap) (p : loc) (s : System) :
  Represents h p s -> footprint h p ⊆ dom h.
Proof.
  intros [u a n b arr outer Hp Hu Ha Hn Hps Hb (Hbm & Hsets & Hinj)] l Hl.
  rewrite (elem_of_footprint h p u b _ _ outer l Hp Hb) in Hl. simpl in Hl.
  destruct Hl as [->|[->|[->|[->|[k Hk]]]]]; try (eapply lookup_Some_dom; eassumption).
  destruct (Hsets k l Hk) as [set Hset]. eapply getSet_Some_dom; eauto.
Qed.

(** A registry only depends on its footprint. *)
Lemma Represents_agree (h h' : Heap) (p : loc) (s : System) :
  Represents h p s ->
  (forall l, l ∈ footprint h p -> h' !! l = h !! l) ->
  Represents h' p s /\ footprint h' p = footprint h p.
Proof.
  intros [u a n b arr outer Hp Hu Ha Hn Hps Hb (Hbm & Hsets & Hinj)] Hag.
  assert (Hin : forall l, l = p \/ l = u \/ l = a \/ l = b \/ (exists k, outer !! k = Some l) ->
                          h' !! l = h !! l).
  { intros l Hl. apply Hag. rewrite (elem_of_footprint h p u b _ _ outer l Hp Hb). exact Hl. }
  assert (Hset : forall k r, outer !! k = Some r -> getSet h' r = getSet h r).
  { intros k r Hk. unfold getSet. rewrite Hin; eauto 10. }
  split.
  - apply (Represents_intro h' p s u a n b arr outer); auto.
    + rewrite Hin; auto.
    + rewrite Hin; auto.
    + rewrite Hin; auto.
    + rewrite Hin; auto.
    + repeat split; auto.
      * intros k. rewrite Hbm. destruct (outer !! k) as [r|] eqn:Hk; simpl; [|reflexivity].
        symmetry. eauto.
      * intros k r Hk. rewrite (Hset k r Hk). eauto.
  - apply set_eq. intros l.
    rewrite (elem_of_footprint h p u b _ _ outer l Hp Hb).
    rewrite (elem_of_footprint h' p u b (mkSlice a n) (Config s) outer l);
      [reflexivity| |]; rewrite Hin; auto.
Qed.

(** Work on one registry leaves alone a registry that shares nothing with
    it. *)
Lemma frames_other (h h' : Heap) (p q : loc) (t : System) :
  frames h h' p -> Represents h q t ->
  footprint h p ## footprint h q ->
  Represents h' q t /\ footprint h' q = footprint h q /\
  footprint h' p ## footprint h' q.
Proof.
  intros (F & D & G) Hq Hdisj.
  pose proof (Represents_closed h q t Hq) as Hclosed.
  destruct (Represents_agree h h' q t Hq) as [Hq' Hfp].
  { intros l Hl. apply F; [set_solver | set_solver]. }
  split; [exact Hq'|]. split; [exact Hfp|].
  rewrite Hfp. intros l Hl Hl'. destruct (G l Hl) as [Hf|Hd]; set_solver.
Qed.


(** ** The operations on the store do what they do on registry values *)

Lemma normalize_normalizeKey (s : System) (k : string) :
  normalize (Config s) k = normalizeKey s k.
Proof. reflexivity. Qed.

Lemma footprint_insert_other (h : Heap) (p u b l0 : loc) (sl : Slice)
    (config : SystemConfig) (o : Object) :
  h !! p = Some (ObjSystem u sl config b) ->
  l0 <> p -> l0 <> b ->
  footprint (<[l0 := o]> h) p = footprint h p.
Proof.
  intros Hp Hnp Hnb. unfold footprint.
  rewrite lookup_insert_ne by auto. rewrite Hp. now rewrite lookup_insert_ne by auto.
Qed.

(** An object of the registry, other than its struct and its outer binding
    map, is overwritten in place. *)
Lemma frames_update (h : Heap) (p u b l0 : loc) (sl : Slice)
    (config : SystemConfig) (o : Object) :
  h !! p = Some (ObjSystem u sl config b) ->
  l0 <> p -> l0 <> b -> l0 ∈ footprint h p ->
  frames h (<[l0 := o]> h) p.
Proof.
  intros Hp Hnp Hnb Hin. repeat split.
  - intros l _ Hl. apply lookup_insert_ne. intros <-. auto.
  - rewrite dom_insert_L. set_solver.
  - intros l. rewrite (footprint_insert_other h p u b l0 sl config o); auto.
Qed.

Lemma hAdd_spec (h : Heap) (p : loc) (s : System) (symbol : string) (scale : float)
    (dim : Dimension) :
  Represents h p s ->
  exists h', hAdd h p symbol scale dim = Some h' /\
             Represents h' p (Add s symbol scale dim) /\ frames h h' p.
Proof.
  intros [u a n b arr outer Hp Hu Ha Hn Hps Hb (Hbm & Hsets & Hinj)].
  unfold hAdd, getSystem, getUnits. rewrite Hp. simpl. rewrite Hu. simpl.
  eexists. split; [reflexivity|].
  assert (Hup : u <> p) by congruence.
  assert (Hua : u <> a) by congruence.
  assert (Hub : u <> b) by congruence.
  assert (Hur : forall k r, outer !! k = Some r -> u <> r).
  { intros k r Hk <-. destruct (Hsets k u Hk) as [set Hset].
    apply getSet_Some in Hset. congruence. }
  split.
  - apply (Represents_intro _ p _ u a n b arr outer); simpl; auto.
    + now rewrite lookup_insert_ne.
    + now rewrite lookup_insert_eq.
    + now rewrite lookup_insert_ne.
    + now rewrite lookup_insert_ne.
    + assert (Hg : forall k r, outer !! k = Some r ->
                     getSet (<[u:=ObjUnits (<[normalize (Config s) symbol:=
                        mkUnit symbol dim scale]> (units s))]> h) r = getSet h r).
      { intros k r Hk. unfold getSet. rewrite lookup_insert_ne; eauto. }
      repeat split; auto.
      * intros k. rewrite Hbm. destruct (outer !! k) as [r|] eqn:Hk; simpl; [|reflexivity].
        symmetry. eauto.
      * intros k r Hk. rewrite (Hg k r Hk). eauto.
  - apply (frames_update h p u b u _ _ _ Hp); auto.
    rewrite (elem_of_footprint h p u b _ _ outer u Hp Hb). auto.
Qed.

Lemma bindingsRep_agree (h h' : Heap) (outer : gmap string loc)
    (bm : gmap string (gmap string bool)) :
  (forall k r, outer !! k = Some r -> getSet h' r = getSet h r) ->
  bindingsRep h outer bm -> bindingsRep h' outer bm.
Proof.
  intros Hg (Hbm & Hsets & Hinj). repeat split; auto.
  - intros k. rewrite Hbm. destruct (outer !! k) as [r|] eqn:Hk; simpl; [|reflexivity].
    symmetry. eauto.
  - intros k r Hk. rewrite (Hg k r Hk). eauto.
Qed.

Lemma hSetConfig_spec (h : Heap) (p : loc) (s : System) (config : SystemConfig) :
  Represents h p s ->
  exists h', hSetConfig h p config = Some h' /\
             Represents h' p (SetConfig s config) /\ frames h h' p.
Proof.
  intros [u a n b arr outer Hp Hu Ha Hn Hps Hb Hbr].
  unfold hSetConfig, getSystem. rewrite Hp. simpl.
  eexists. split; [reflexivity|].
  assert (Hl : forall l o, l <> p ->
            (<[p := o]> h : Heap) !! l = h !! l)
    by (intros l o Hl; now apply lookup_insert_ne).
  assert (Hpr : forall k r, outer !! k = Some r -> r <> p).
  { intros k r Hk ->. destruct Hbr as (_ & Hsets & _).
    destruct (Hsets k p Hk) as [set Hset]. apply getSet_Some in Hset. congruence. }
  set (h' := <[p := ObjSystem u (mkSlice a n) config b]> h).
  assert (Hp' : h' !! p = Some (ObjSystem u (mkSlice a n) config b))
    by apply lookup_insert_eq.
  assert (Hb' : h' !! b = Some (ObjBindings outer))
    by (unfold h'; rewrite Hl; congruence).
  split.
  - apply (Represents_intro h' p _ u a n b arr outer); simpl; auto;
      try (unfold h'; rewrite Hl; congruence).
    apply (bindingsRep_agree h); [|exact Hbr].
    intros k r Hk. unfold getSet, h'. rewrite Hl; eauto.
  - repeat split.
    + intros l _ Hnf. apply Hl. intros ->. apply Hnf.
      rewrite (elem_of_footprint h p u b _ _ outer p Hp Hb). auto.
    + unfold h'. rewrite dom_insert_L. set_solver.
    + intros l. rewrite (elem_of_footprint h' p u b _ _ outer l Hp' Hb').
      rewrite (elem_of_footprint h p u b _ _ outer l Hp Hb). auto.
Qed.

(** [Resolve] through the pointer is [Resolve] on the registry it stands
    for. *)
Lemma hTryPrefix_spec (h : Heap) (s : System) (outer : gmap string loc)
    (lookupSymbol : string) (q : Prefix) :
  bindingsRep h outer (unitPrefixes s) ->
  hTryPrefix h (units s) outer lookupSymbol q = Some (tryPrefix s lookupSymbol q).
Proof.
  intros (Hbm & Hsets & _). unfold hTryPrefix, tryPrefix.
  destruct (_ && _); [|reflexivity].
  destruct (units s !! _) as [un|]; [|reflexivity].
  rewrite Hbm. destruct (outer !! _) as [r|] eqn:Hk; simpl; [|reflexivity].
  destruct (Hsets _ r Hk) as [set Hset]. rewrite Hset. reflexivity.
Qed.

Lemma hResolvePrefixes_spec (h : Heap) (s : System) (outer : gmap string loc)
    (lookupSymbol : string) (ps : list Prefix) :
  bindingsRep h outer (unitPrefixes s) ->
  hResolvePrefixes h (units s) outer lookupSymbol ps =
    Some (resolvePrefixes s lookupSymbol ps).
Proof.
  intros Hrep. induction ps as [|q ps IH]; simpl; [reflexivity|].
  rewrite (hTryPrefix_spec h s outer lookupSymbol q Hrep). simpl.
  destruct (tryPrefix s lookupSymbol q); [reflexivity | exact IH].
Qed.

Lemma hResolve_spec (h : Heap) (p : loc) (s : System) (symbol : string) :
  Represents h p s -> hResolve h p symbol = Some (Resolve s symbol).
Proof.
  intros [u a n b arr outer Hp Hu Ha Hn Hps Hb Hrep].
  unfold hResolve, Resolve, getSystem, getUnits, getArray, getBindings.
  rewrite Hp. simpl. rewrite Hu. simpl. rewrite normalize_normalizeKey.
  destruct (units s !! normalizeKey s symbol); [reflexivity|].
  rewrite Ha. simpl. rewrite Hb. simpl. rewrite Hps.
  now apply hResolvePrefixes_spec.
Qed.

Lemma overwriteFirst_length (ps ps' : list Prefix) (pKey : string) (sc : float) :
  overwriteFirst ps pKey sc = Some ps' -> length ps' = length ps.
Proof.
  intros E. apply overwriteFirst_symbols in E.
  apply (f_equal (@length string)) in E. now rewrite !length_map in E.
Qed.

Lemma hOverwritePrefix_spec (h : Heap) (p : loc) (s : System) (symbol : string)
    (newScale : float) :
  Represents h p s ->
  exists h', hOverwritePrefix h p symbol newScale =
               Some (h', (OverwritePrefix s symbol newScale).2) /\
             Represents h' p (OverwritePrefix s symbol newScale).1 /\ frames h h' p.
Proof.
  intros Hrep. pose proof Hrep as [u a n b arr outer Hp Hu Ha Hn Hps Hb (Hbm & Hsets & Hinj)].
  unfold hOverwritePrefix, OverwritePrefix, getSystem, getArray.
  rewrite Hp. simpl. rewrite Ha. simpl. rewrite normalize_normalizeKey, Hps.
  destruct (overwriteFirst (take n arr) (normalizeKey s symbol) newScale) as [ps|] eqn:E;
    simpl.
  - eexists. split; [reflexivity|].
    assert (Hlen : length ps = n).
    { rewrite (overwriteFirst_length _ _ _ _ E), length_take. lia. }
    assert (Hap : a <> p) by congruence.
    assert (Hau : a <> u) by congruence.
    assert (Hab : a <> b) by congruence.
    assert (Har : forall k r, outer !! k = Some r -> a <> r).
    { intros k r Hk <-. destruct (Hsets k a Hk) as [set Hset].
      apply getSet_Some in Hset. congruence. }
    split.
    + apply (Represents_intro _ p _ u a n b (ps ++ drop n arr) outer); simpl; auto.
      * now rewrite lookup_insert_ne.
      * now rewrite lookup_insert_ne.
      * now rewrite lookup_insert_eq.
      * rewrite length_app. lia.
      * rewrite take_app_length'; auto.
      * now rewrite lookup_insert_ne.
      * assert (Hg : forall k r, outer !! k = Some r ->
                     getSet (<[a:=ObjArray (ps ++ drop n arr)]> h) r = getSet h r).
        { intros k r Hk. unfold getSet. rewrite lookup_insert_ne; eauto. }
        repeat split; auto.
        -- intros k. rewrite Hbm. destruct (outer !! k) as [r|] eqn:Hk; simpl; [|reflexivity].
           symmetry. eauto.
        -- intros k r Hk. rewrite (Hg k r Hk). eauto.
    + apply (frames_update h p u b a _ _ _ Hp); auto.
      rewrite (elem_of_footprint h p u b _ _ outer a Hp Hb). simpl. auto.
  - exists h. split; [reflexivity|]. split; [exact Hrep | apply frames_refl].
Qed.


(** One pass of the binding loop on a registered target. *)
Lemma bind_one_spec (h : Heap) (p : loc) (s : System) (uKey pKey : string)
    (u a b : loc) (n : nat) (arr : list Prefix) (outer : gmap string loc) :
  h !! p = Some (ObjSystem u (mkSlice a n) (Config s) b) ->
  h !! u = Some (ObjUnits (units s)) ->
  h !! a = Some (ObjArray arr) -> n <= length arr -> prefixes s = take n arr ->
  h !! b = Some (ObjBindings outer) ->
  bindingsRep h outer (unitPrefixes s) ->
  exists h1 r set,
    match outer !! uKey with
    | Some r => Some (h, r)
    | None => let '(h1, r) := alloc h (ObjSet ∅) in
              Some (<[b := ObjBindings (<[uKey := r]> outer)]> h1, r)
    end = Some (h1, r) /\
    getSet h1 r = Some set /\
    Represents (<[r := ObjSet (<[pKey := true]> set)]> h1) p
      (mkSystem (units s) (prefixes s) (Config s)
         (<[uKey := <[pKey := true]>
                      (match unitPrefixes s !! uKey with None => ∅ | Some m => m end)]>
            (unitPrefixes s))) /\
    frames h (<[r := ObjSet (<[pKey := true]> set)]> h1) p.
Proof.
  intros Hp Hu Ha Hn Hps Hb Hrep. pose proof Hrep as (Hbm & Hsets & Hinj).
  assert (Hfp : forall h' outer', h' !! p = Some (ObjSystem u (mkSlice a n) (Config s) b) ->
            h' !! b = Some (ObjBindings outer') ->
            forall l, l ∈ footprint h' p <->
              l = p \/ l = u \/ l = a \/ l = b \/ exists k, outer' !! k = Some l).
  { intros h' outer' Hp' Hb' l. apply (elem_of_footprint h' p u b _ _ outer' l Hp' Hb'). }
  destruct (outer !! uKey) as [r|] eqn:Hk.
  - destruct (Hsets uKey r Hk) as [set Hset].
    exists h, r, set. split; [reflexivity|]. split; [exact Hset|].
    pose proof (proj1 (getSet_Some h r set) Hset) as Hr.
    assert (Hrp : r <> p) by congruence.
    assert (Hru : r <> u) by congruence.
    assert (Hra : r <> a) by congruence.
    assert (Hrb : r <> b) by congruence.
    split.
    + apply (Represents_intro _ p _ u a n b arr outer); simpl; auto;
        try (now rewrite lookup_insert_ne).
      repeat split; auto.
      * intros k. destruct (decide (k = uKey)) as [->|Hne].
        -- rewrite lookup_insert_eq, Hk. simpl. unfold getSet. rewrite lookup_insert_eq.
           rewrite Hbm, Hk. simpl. now rewrite Hset.
        -- rewrite lookup_insert_ne by auto. rewrite Hbm.
           destruct (outer !! k) as [r'|] eqn:Hk'; simpl; [|reflexivity].
           unfold getSet. rewrite lookup_insert_ne; [reflexivity|].
           intros <-. apply Hne. eapply Hinj; eauto.
      * intros k r' Hk'. unfold getSet.
        destruct (decide (r' = r)) as [->|Hne].
        -- rewrite lookup_insert_eq. eauto.
        -- rewrite lookup_insert_ne by auto. apply (Hsets k r' Hk').
    + apply (frames_update h p u b r _ _ _ Hp); auto.
      rewrite (Hfp h outer Hp Hb). eauto 10.
  - set (r := newLoc h).
    assert (Hfresh : h !! r = None) by apply newLoc_fresh.
    assert (Hrp : r <> p) by congruence.
    assert (Hru : r <> u) by congruence.
    assert (Hra : r <> a) by congruence.
    assert (Hrb : r <> b) by congruence.
    assert (Hro : forall k r', outer !! k = Some r' -> r' <> r).
    { intros k r' Hk' ->. destruct (Hsets k r Hk') as [set Hset].
      apply getSet_Some in Hset. congruence. }
    exists (<[b := ObjBindings (<[uKey := r]> outer)]> (<[r := ObjSet ∅]> h)), r, ∅.
    split; [reflexivity|].
    split; [unfold getSet; rewrite lookup_insert_ne by auto; now rewrite lookup_insert_eq|].
    assert (Hnone : unitPrefixes s !! uKey = None) by (rewrite Hbm, Hk; reflexivity).
    rewrite Hnone.
    set (h' := <[r := ObjSet (<[pKey := true]> ∅)]>
                 (<[b := ObjBindings (<[uKey := r]> outer)]> (<[r := ObjSet ∅]> h))).
    assert (Hl : forall l, l <> r -> l <> b -> h' !! l = h !! l).
    { intros l Hlr Hlb. unfold h'. now rewrite !lookup_insert_ne by auto. }
    assert (Hp' : h' !! p = Some (ObjSystem u (mkSlice a n) (Config s) b))
      by (rewrite Hl; congruence).
    assert (Hb' : h' !! b = Some (ObjBindings (<[uKey := r]> outer))).
    { unfold h'. rewrite lookup_insert_ne by auto. now rewrite lookup_insert_eq. }
    split.
    + apply (Represents_intro _ p _ u a n b arr (<[uKey := r]> outer)); simpl; auto;
        try (rewrite Hl; congruence).
      repeat split.
      * intros k. destruct (decide (k = uKey)) as [->|Hne].
        -- rewrite !lookup_insert_eq. simpl. unfold getSet, h'. now rewrite lookup_insert_eq.
        -- rewrite !lookup_insert_ne by auto. rewrite Hbm.
           destruct (outer !! k) as [r'|] eqn:Hk'; simpl; [|reflexivity].
           unfold getSet. rewrite Hl; [reflexivity | eauto |].
           intros ->. destruct (Hsets k b Hk') as [set Hset].
           apply getSet_Some in Hset. congruence.
      * intros k r'. destruct (decide (k = uKey)) as [->|Hne].
        -- rewrite lookup_insert_eq. intros [= <-]. unfold getSet, h'.
           rewrite lookup_insert_eq. eauto.
        -- rewrite lookup_insert_ne by auto. intros Hk'. unfold getSet.
           rewrite Hl; [apply (Hsets k r' Hk') | eauto |].
           intros ->. destruct (Hsets k b Hk') as [set Hset].
           apply getSet_Some in Hset. congruence.
      * intros k1 k2 r'.
        destruct (decide (k1 = uKey)) as [->|Hne1], (decide (k2 = uKey)) as [->|Hne2];
          rewrite ?lookup_insert_eq, ?lookup_insert_ne by auto; auto.
        -- intros [= <-] Hk2. now apply Hro in Hk2.
        -- intros Hk1 [= <-]. now apply Hro in Hk1.
        -- apply Hinj.
    + repeat split.
      * intros l Hd Hnf. apply Hl.
        -- intros ->. apply not_elem_of_dom in Hfresh. auto.
        -- intros ->. apply Hnf. rewrite (Hfp h outer Hp Hb). auto.
      * unfold h'. rewrite !dom_insert_L. set_solver.
      * intros l. rewrite (Hfp h' _ Hp' Hb'), (Hfp h outer Hp Hb).
        intros [->|[->|[->|[->|[k Hk']]]]]; auto 10.
        destruct (decide (k = uKey)) as [->|Hne].
        -- rewrite lookup_insert_eq in Hk'. injection Hk' as <-.
           right. now apply not_elem_of_dom.
        -- rewrite lookup_insert_ne in Hk' by auto. left. eauto 10.
Qed.

Lemma hBindTargets_spec (h : Heap) (p : loc) (s : System) (pKey : string)
    (targetUnits : list string) :
  Represents h p s ->
  exists h', hBindTargets h p pKey targetUnits =
               Some (h', (bindTargets s pKey targetUnits).2) /\
             Represents h' p (bindTargets s pKey targetUnits).1 /\ frames h h' p.
Proof.
  revert h s; induction targetUnits as [|uSymbol more IH]; intros h s Hrep; simpl.
  - exists h. split; [reflexivity|]. split; [exact Hrep | apply frames_refl].
  - pose proof Hrep as [u a n b arr outer Hp Hu Ha Hn Hps Hb Hbr].
    unfold getSystem, getUnits, getBindings. rewrite Hp. simpl. rewrite Hu. simpl.
    rewrite normalize_normalizeKey.
    destruct (units s !! normalizeKey s uSymbol) as [un|]; simpl.
    + rewrite Hb. simpl.
      destruct (bind_one_spec h p s (normalizeKey s uSymbol) pKey u a b n arr outer
                  Hp Hu Ha Hn Hps Hb Hbr) as (h1 & r & set & E & Hset & Hrep1 & Hfr1).
      unfold alloc in E; simpl in E. rewrite E. simpl. rewrite Hset. simpl.
      destruct (IH _ _ Hrep1) as (h' & E' & Hrep' & Hfr').
      exists h'. split; [exact E'|]. split; [exact Hrep'|].
      eapply frames_trans; eauto.
    + exists h. split; [reflexivity|]. split; [exact Hrep | apply frames_refl].
Qed.


(** [append]: the new slice holds the old elements and the new one; its
    backing array is the old one, written in place, or a new one. *)
Lemma hAppend_spec (h : Heap) (a : loc) (n : nat) (arr : list Prefix) (x : Prefix) :
  h !! a = Some (ObjArray arr) -> n <= length arr ->
  exists h1 a1 arr1,
    hAppend h (mkSlice a n) x = Some (h1, mkSlice a1 (S n)) /\
    h1 !! a1 = Some (ObjArray arr1) /\
    S n <= length arr1 /\ take (S n) arr1 = take n arr ++ [x] /\
    (a1 = a \/ a1 ∉ dom h) /\
    (forall l, l <> a1 -> h1 !! l = h !! l) /\
    dom h ⊆ dom h1.
Proof.
  intros Ha Hn. unfold hAppend, getArray. simpl. rewrite Ha. simpl.
  destruct (Nat.ltb_spec n (length arr)) as [Hlt|Hge].
  - exists (<[a := ObjArray (<[n := x]> arr)]> h), a, (<[n := x]> arr).
    split; [reflexivity|]. split; [apply lookup_insert_eq|].
    split; [rewrite length_insert; lia|].
    split.
    + rewrite (take_S_r _ _ x) by (now apply list_lookup_insert_eq).
      now rewrite take_insert_ge by lia.
    + split; [auto|]. split.
      * intros l Hl. now apply lookup_insert_ne.
      * rewrite dom_insert_L. set_solver.
  - set (arr1 := take n arr ++ x :: replicate (spareCapacity (length arr)) zeroPrefix).
    exists (<[newLoc h := ObjArray arr1]> h), (newLoc h), arr1.
    split; [reflexivity|]. split; [apply lookup_insert_eq|].
    assert (Hlen : length (take n arr) = n) by (rewrite length_take; lia).
    split; [unfold arr1; rewrite length_app; simpl; lia|].
    split.
    + unfold arr1. rewrite (cons_middle x), app_assoc.
      rewrite take_app_length'; [reflexivity|]. rewrite length_app. simpl. lia.
    + split; [right; apply newLoc_not_in_dom|]. split.
      * intros l Hl. now apply lookup_insert_ne.
      * rewrite dom_insert_L. set_solver.
Qed.

Lemma hAddPrefix_spec (h : Heap) (p : loc) (s : System) (prefixSymbol : string)
    (scale : float) (targetUnits : list string) :
  SortSliceSpec ->
  Represents h p s ->
  exists h', hAddPrefix h p prefixSymbol scale targetUnits =
               Some (h', (AddPrefix s prefixSymbol scale targetUnits).2) /\
             Represents h' p (AddPrefix s prefixSymbol scale targetUnits).1 /\
             frames h h' p.
Proof.
  intros Hsort Hrep.
  pose proof Hrep as [u a n b arr outer Hp Hu Ha Hn Hps Hb Hbr].
  unfold hAddPrefix, AddPrefix, getSystem, getArray.
  rewrite Hp. simpl. rewrite Ha. simpl. rewrite normalize_normalizeKey, <- Hps.
  set (pKey := normalizeKey s prefixSymbol).
  destruct (scanPrefixes (prefixes s) pKey scale).
  - exists h. split; [reflexivity|]. split; [exact Hrep | apply frames_refl].
  - now apply hBindTargets_spec.
  - set (x := mkPrefix pKey scale).
    destruct (hAppend_spec h a n arr x Ha Hn)
      as (h1 & a1 & arr1 & E1 & Ha1 & Hn1 & Htake & Hnew & Hold & Hdom).
    rewrite E1. simpl.
    assert (Hap : a1 <> p).
    { destruct Hnew as [->|Hf]; [congruence|]. intros ->. apply Hf.
      eapply lookup_Some_dom; eauto. }
    assert (Hau : a1 <> u).
    { destruct Hnew as [->|Hf]; [congruence|]. intros ->. apply Hf.
      eapply lookup_Some_dom; eauto. }
    assert (Hab : a1 <> b).
    { destruct Hnew as [->|Hf]; [congruence|]. intros ->. apply Hf.
      eapply lookup_Some_dom; eauto. }
    assert (Har : forall k r, outer !! k = Some r -> a1 <> r).
    { intros k r Hk <-. destruct Hbr as (_ & Hsets & _).
      destruct (Hsets k a1 Hk) as [set Hset].
      destruct Hnew as [->|Hf].
      - apply getSet_Some in Hset. congruence.
      - apply Hf. eapply getSet_Some_dom; eauto. }
    unfold hSort, getArray. simpl.
    rewrite lookup_insert_ne by auto. rewrite Ha1. simpl.
    set (sorted := SortSlice longerSymbol (take (S n) arr1)).
    set (h3 := <[a1 := ObjArray (sorted ++ drop (S n) arr1)]>
                 (<[p := ObjSystem u (mkSlice a1 (S n)) (Config s) b]> h1)).
    set (s3 := mkSystem (units s) (SortSlice longerSymbol (prefixes s ++ [x]))
                        (Config s) (unitPrefixes s)).
    assert (Hsorted : sorted = prefixes s3).
    { unfold sorted, s3. simpl. now rewrite Htake, Hps. }
    assert (Hlen : length sorted = S n).
    { unfold sorted. destruct (Hsort (take (S n) arr1)) as [Hperm _].
      rewrite (Permutation_length Hperm), length_take. lia. }
    assert (Hl : forall l, l <> a1 -> l <> p -> h3 !! l = h !! l).
    { intros l Hla Hlp. unfold h3. rewrite !lookup_insert_ne by auto. now apply Hold. }
    assert (Hp3 : h3 !! p = Some (ObjSystem u (mkSlice a1 (S n)) (Config s) b)).
    { unfold h3. rewrite lookup_insert_ne by auto. apply lookup_insert_eq. }
    assert (Hb3 : h3 !! b = Some (ObjBindings outer)) by (rewrite Hl; congruence).
    assert (Hrep3 : Represents h3 p s3).
    { apply (Represents_intro _ p s3 u a1 (S n) b (sorted ++ drop (S n) arr1) outer);
        simpl; auto.
      - rewrite Hl; congruence.
      - unfold h3. apply lookup_insert_eq.
      - rewrite length_app. lia.
      - rewrite take_app_length'; auto.
      - apply (bindingsRep_agree h); [|exact Hbr].
        intros k r Hk. unfold getSet. rewrite Hl; [reflexivity| |].
        + intros <-. eapply Har; eauto.
        + intros ->. destruct Hbr as (_ & Hsets & _).
          destruct (Hsets k p Hk) as [set Hset]. apply getSet_Some in Hset. congruence. }
    assert (Hfr3 : frames h h3 p).
    { repeat split.
      - intros l Hd Hnf. apply Hl.
        + intros ->. destruct Hnew as [->|Hf]; [|auto].
          apply Hnf. rewrite (elem_of_footprint h p u b _ _ outer a Hp Hb). simpl. auto.
        + intros ->. apply Hnf. rewrite (elem_of_footprint h p u b _ _ outer p Hp Hb). auto.
      - unfold h3. rewrite !dom_insert_L. set_solver.
      - intros l. rewrite (elem_of_footprint h3 p u b _ _ outer l Hp3 Hb3).
        rewrite (elem_of_footprint h p u b _ _ outer l Hp Hb). simpl.
        intros [->|[->|[->|[->|[k Hk]]]]]; eauto 10.
        destruct Hnew as [->|Hf]; auto. }
    destruct (hBindTargets_spec h3 p s3 pKey targetUnits Hrep3) as (h' & E' & Hrep' & Hfr').
    exists h'. split; [exact E'|]. split; [exact Hrep'|].
    eapply frames_trans; eauto.
Qed.


(** ** [Clone] *)

Lemma map_fold_insert_id {A} (m : gmap string A) :
  map_fold (fun k x acc => <[k := x]> acc) ∅ m = m.
Proof.
  apply (map_fold_weak_ind (fun acc m => acc = m)); [reflexivity|].
  intros k x m' acc _ ->. reflexivity.
Qed.

(** On registry values, the clone is the registry itself. *)
Lemma Clone_eq (s : System) : Clone s = s.
Proof.
  destruct s as [um ps config bm]. unfold Clone; simpl. f_equal.
  - apply map_fold_insert_id.
  - now destruct ps.
  - apply (map_fold_weak_ind (fun acc m => acc = m)); [reflexivity|].
    intros k x m' acc _ ->. now rewrite map_fold_insert_id.
Qed.

Lemma hNewSystem_spec (h : Heap) (config : SystemConfig) :
  exists h1 q u' a0 b',
    hNewSystem h config = (h1, q) /\
    h1 !! q = Some (ObjSystem u' (mkSlice a0 0) config b') /\
    h1 !! u' = Some (ObjUnits ∅) /\
    h1 !! a0 = Some (ObjArray []) /\
    h1 !! b' = Some (ObjBindings ∅) /\
    (q ∉ dom h) /\ (u' ∉ dom h) /\ (a0 ∉ dom h) /\ (b' ∉ dom h) /\
    (forall l, l ∈ dom h -> h1 !! l = h !! l) /\
    dom h ⊆ dom h1.
Proof.
  unfold hNewSystem, alloc; simpl.
  set (u' := newLoc h). set (hA := <[u' := ObjUnits ∅]> h).
  set (a0 := newLoc hA). set (hB := <[a0 := ObjArray []]> hA).
  set (b' := newLoc hB). set (hC := <[b' := ObjBindings ∅]> hB).
  set (q := newLoc hC).
  pose proof (newLoc_not_in_dom h) as Fu. fold u' in Fu.
  pose proof (newLoc_not_in_dom hA) as Fa. fold a0 in Fa.
  pose proof (newLoc_not_in_dom hB) as Fb. fold b' in Fb.
  pose proof (newLoc_not_in_dom hC) as Fq. fold q in Fq.
  unfold hC in Fq. unfold hB in Fq, Fb. unfold hA in Fq, Fb, Fa.
  rewrite !dom_insert_L in Fq. rewrite !dom_insert_L in Fb. rewrite dom_insert_L in Fa.
  assert (q <> b' /\ q <> a0 /\ q <> u' /\ b' <> a0 /\ b' <> u' /\ a0 <> u')
    as (Hqb & Hqa & Hqu & Hba & Hbu & Hau) by set_solver.
  exists (<[q := ObjSystem u' (mkSlice a0 0) config b']> hC), q, u', a0, b'.
  split; [reflexivity|].
  split; [apply lookup_insert_eq|].
  split; [unfold hC, hB, hA; rewrite !lookup_insert_ne by auto; apply lookup_insert_eq|].
  split; [unfold hC, hB; rewrite !lookup_insert_ne by auto; apply lookup_insert_eq|].
  split; [unfold hC; rewrite !lookup_insert_ne by auto; apply lookup_insert_eq|].
  split; [set_solver|]. split; [exact Fu|]. split; [set_solver|]. split; [set_solver|].
  split.
  - intros l Hl. unfold hC, hB, hA.
    rewrite !lookup_insert_ne; [reflexivity | | | |]; intros <-; set_solver.
  - unfold hC, hB, hA. rewrite !dom_insert_L. set_solver.
Qed.

(** The invariant of the loop that copies the whitelist sets: the new outer
    map [oc], stored at [b'], maps keys of the source map [outer] to sets
    that did not exist in the store [h0] the clone started from and that
    hold what the source sets held; nothing of [h0] has changed. *)
Definition copyInv (h0 : Heap) (outer : gmap string loc) (b' : loc)
    (hc : Heap) (oc : gmap string loc) : Prop :=
  hc !! b' = Some (ObjBindings oc) /\
  (forall k r', oc !! k = Some r' ->
     (r' ∉ dom h0) /\ is_Some (outer !! k) /\
     getSet hc r' = outer !! k ≫= getSet h0) /\
  (forall k1 k2 r, oc !! k1 = Some r -> oc !! k2 = Some r -> k1 = k2) /\
  (forall l, l ∈ dom h0 -> hc !! l = h0 !! l) /\
  dom h0 ⊆ dom hc.

Lemma hCopySets_spec (h0 : Heap) (outer : gmap string loc) (b' : loc) :
  b' ∉ dom h0 ->
  (forall k r, outer !! k = Some r -> is_Some (getSet h0 r)) ->
  forall entries hc oc,
    (forall k r, (k, r) ∈ entries -> outer !! k = Some r) ->
    NoDup entries.*1 ->
    (forall k, k ∈ entries.*1 -> oc !! k = None) ->
    copyInv h0 outer b' hc oc ->
    exists h4 o4,
      hCopySets hc b' entries = Some h4 /\
      copyInv h0 outer b' h4 o4 /\
      (forall k, is_Some (o4 !! k) <-> is_Some (oc !! k) \/ k ∈ entries.*1) /\
      (forall l, l ∈ dom hc -> l <> b' -> h4 !! l = hc !! l) /\
      dom hc ⊆ dom h4.
Proof.
  intros Hb' Hsrc entries.
  induction entries as [|[k r] more IH]; intros hc oc Hent Hnd Hnew Hinv; simpl.
  - exists hc, oc. split; [reflexivity|]. split; [exact Hinv|].
    split; [intros k; rewrite elem_of_nil; tauto|]. split; auto.
  - destruct Hinv as (Hbc & Hoc & Hinj & Hag & Hdom).
    assert (Hk : outer !! k = Some r) by (apply Hent; left).
    destruct (Hsrc k r Hk) as [set Hset].
    assert (Hr0 : r ∈ dom h0) by (eapply getSet_Some_dom; eauto).
    assert (Hsetc : getSet hc r = Some set).
    { unfold getSet. rewrite Hag by auto. exact Hset. }
    rewrite Hsetc. simpl. rewrite map_fold_insert_id.
    unfold alloc, getBindings. simpl.
    set (r' := newLoc hc).
    pose proof (newLoc_not_in_dom hc) as Fr. fold r' in Fr.
    assert (Hrb : r' <> b').
    { intros E. apply Fr. rewrite E. eapply lookup_Some_dom; eauto. }
    rewrite lookup_insert_ne by auto. rewrite Hbc. simpl.
    set (hc2 := <[b' := ObjBindings (<[k := r']> oc)]> (<[r' := ObjSet set]> hc)).
    assert (Hl2 : forall l, l <> b' -> l <> r' -> hc2 !! l = hc !! l).
    { intros l H1 H2. unfold hc2. now rewrite !lookup_insert_ne by auto. }
    assert (Hinv2 : copyInv h0 outer b' hc2 (<[k := r']> oc)).
    { split; [unfold hc2; apply lookup_insert_eq|]. split; [|split; [|split]].
      - intros k2 r2. destruct (decide (k2 = k)) as [->|Hne].
        + rewrite lookup_insert_eq. intros [= <-].
          split; [set_solver|]. split; [eauto|].
          rewrite Hk. simpl. rewrite Hset. unfold getSet, hc2.
          rewrite lookup_insert_ne by auto. now rewrite lookup_insert_eq.
        + rewrite lookup_insert_ne by auto. intros Hk2.
          destruct (Hoc k2 r2 Hk2) as (Hf & Hin & Hg).
          split; [exact Hf|]. split; [exact Hin|].
          rewrite <- Hg. unfold getSet. rewrite Hl2; [reflexivity| |].
          * intros ->. destruct Hin as [r0 Hr0']. rewrite Hr0' in Hg. simpl in Hg.
            destruct (Hsrc k2 r0 Hr0') as [set0 Hset0]. rewrite Hset0 in Hg.
            apply getSet_Some in Hg. congruence.
          * intros ->. destruct Hin as [r0 Hr0']. rewrite Hr0' in Hg. simpl in Hg.
            destruct (Hsrc k2 r0 Hr0') as [set0 Hset0]. rewrite Hset0 in Hg.
            apply getSet_Some_dom in Hg. auto.
      - intros k1 k2 r2.
        assert (Hold : forall k0, oc !! k0 = Some r' -> False).
        { intros k0 Hk0. destruct (Hoc k0 r' Hk0) as (_ & [r0 Hr0'] & Hg).
          rewrite Hr0' in Hg. simpl in Hg.
          destruct (Hsrc k0 r0 Hr0') as [set0 Hset0]. rewrite Hset0 in Hg.
          apply getSet_Some_dom in Hg. auto. }
        destruct (decide (k1 = k)) as [->|Hne1], (decide (k2 = k)) as [->|Hne2];
          rewrite ?lookup_insert_eq, ?lookup_insert_ne by auto; auto.
        * intros [= <-] Hk2. now apply Hold in Hk2.
        * intros Hk1 [= <-]. now apply Hold in Hk1.
        * apply Hinj.
      - intros l Hl. rewrite Hl2; [auto| |]; intros ->; set_solver.
      - unfold hc2. rewrite !dom_insert_L. set_solver. }
    rewrite fmap_cons in Hnd. simpl in Hnd. apply NoDup_cons in Hnd as [Hnotin Hnd].
    destruct (IH hc2 (<[k := r']> oc)) as (h4 & o4 & E & Hinv4 & Hkeys & Hkeep & Hdom4); auto.
    + intros k0 r0 Hin. apply Hent. now right.
    + intros k0 Hin. rewrite lookup_insert_ne; [apply Hnew; rewrite fmap_cons; now right|].
      intros <-. auto.
    + exists h4, o4. split; [exact E|]. split; [exact Hinv4|]. split; [|split].
      * intros k0. rewrite Hkeys, elem_of_cons. simpl.
        destruct (decide (k0 = k)) as [->|Hne].
        -- rewrite lookup_insert_eq. split; [auto|]. intros _. left. eauto.
        -- rewrite lookup_insert_ne by auto. split; [tauto|].
           intros [?|[?|?]]; auto. congruence.
      * intros l Hl Hlb. rewrite Hkeep; auto.
        -- apply Hl2; auto. intros ->. auto.
        -- unfold hc2. rewrite !dom_insert_L. set_solver.
      * unfold hc2 in Hdom4. rewrite !dom_insert_L in Hdom4. set_solver.
Qed.


#[local] Arguments hNewSystem : simpl never.
#[local] Arguments hCopySets : simpl never.

(** [Clone] allocates a registry that stands for the same value as the
    source and is made of new objects only; the store it found is
    unchanged. *)
Lemma hClone_spec (h : Heap) (p : loc) (s : System) :
  Represents h p s ->
  exists h' q,
    hClone h p = Some (h', q) /\
    Represents h' q (Clone s) /\
    (forall l, l ∈ dom h -> h' !! l = h !! l) /\
    (forall l, l ∈ footprint h' q -> l ∉ dom h) /\
    dom h ⊆ dom h'.
Proof.
  intros Hrep. rewrite Clone_eq.
  pose proof Hrep as [u a n b arr outer Hp Hu Ha Hn Hps Hb (Hbm & Hsets & Hinj)].
  unfold hClone, getSystem. rewrite Hp. unfold mbind, option_bind. cbv beta iota.
  destruct (hNewSystem_spec h (Config s))
    as (h1 & q & u' & a0 & b' & E1 & Hq1 & Hu1 & Ha1 & Hb1 & Fq & Fu & Fa & Fb & Hold1 & Hdom1).
  rewrite E1, Hq1. cbv beta iota.
  assert (Hin : forall l o, h !! l = Some o -> l ∈ dom h)
    by (intros l o E; eapply lookup_Some_dom; eauto).
  unfold getUnits. rewrite (Hold1 u) by eauto. rewrite Hu. simpl. rewrite Hu1. simpl.
  rewrite map_fold_insert_id.
  set (h2 := <[u' := ObjUnits (units s)]> h1).
  assert (Hl2 : forall l, l <> u' -> h2 !! l = h1 !! l)
    by (intros l Hl; unfold h2; now rewrite lookup_insert_ne by auto).
  assert (Hne : forall l, l ∈ dom h -> l <> u' /\ l <> a0 /\ l <> b' /\ l <> q).
  { intros l Hl. repeat split; intros ->; auto. }
  assert (Hdistinct : q <> u' /\ q <> a0 /\ q <> b' /\ u' <> a0 /\ u' <> b' /\ a0 <> b').
  { repeat split; congruence. }
  destruct Hdistinct as (Hqu & Hqa & Hqb & Hua & Hub & Hab).
  unfold getArray. rewrite Hl2, (Hold1 a), Ha by (try apply Hne; eauto). simpl.
  (* the slice of the clone *)
  set (h3 := if Nat.ltb 0 n
             then <[q := ObjSystem u' (mkSlice (newLoc h2) n) (Config s) b']>
                    (<[newLoc h2 := ObjArray (take n arr)]> h2)
             else h2).
  assert (H3 : exists aq arrq,
             h3 !! q = Some (ObjSystem u' (mkSlice aq n) (Config s) b') /\
             h3 !! aq = Some (ObjArray arrq) /\ n <= length arrq /\
             take n arrq = take n arr /\ (aq ∉ dom h) /\ aq <> b' /\ aq <> u' /\
             (forall l, l <> q -> l <> aq -> h3 !! l = h2 !! l) /\
             dom h2 ⊆ dom h3).
  { unfold h3. destruct (Nat.ltb_spec 0 n) as [Hpos|Hzero].
    - set (a' := newLoc h2).
      pose proof (newLoc_not_in_dom h2) as Fa'. fold a' in Fa'.
      assert (Hd2 : dom h ⊆ dom h2) by (unfold h2; rewrite dom_insert_L; set_solver).
      assert (Hqd : q ∈ dom h2) by (apply elem_of_dom; rewrite Hl2, Hq1; eauto).
      assert (Hbd : b' ∈ dom h2) by (apply elem_of_dom; rewrite Hl2, Hb1; eauto).
      assert (Haq : a' <> q) by (intros E; rewrite E in Fa'; auto).
      exists a', (take n arr).
      split; [apply lookup_insert_eq|].
      split; [rewrite lookup_insert_ne by auto; apply lookup_insert_eq|].
      split; [rewrite length_take; lia|].
      split; [rewrite take_take; f_equal; lia|].
      split; [set_solver|].
      split; [intros E; rewrite E in Fa'; auto|].
      split.
      { intros E; rewrite E in Fa'. apply Fa'. unfold h2. rewrite dom_insert_L. set_solver. }
      split.
      + intros l H1 H2. now rewrite !lookup_insert_ne by auto.
      + rewrite !dom_insert_L. set_solver.
    - assert (n = 0) as -> by lia.
      exists a0, []. rewrite !Hl2 by auto. rewrite Hq1, Ha1.
      repeat split; auto. }
  destruct H3 as (aq & arrq & Hq3 & Haq3 & Hnq & Htakeq & Faq & Haqb & Haqu & Hl3 & Hdom3).
  clearbody h3.
  assert (Hdom2 : dom h ⊆ dom h2) by (unfold h2; rewrite dom_insert_L; set_solver).
  assert (Hold3 : forall l, l ∈ dom h -> h3 !! l = h !! l).
  { intros l Hl. destruct (Hne l Hl) as (N1 & N2 & N3 & N4).
    rewrite Hl3, Hl2, Hold1; auto. intros ->. auto. }
  unfold getBindings. rewrite (Hold3 b), Hb by eauto. simpl.
  assert (Hb3 : h3 !! b' = Some (ObjBindings ∅)).
  { rewrite Hl3, Hl2; auto. }
  destruct (hCopySets_spec h outer b' Fb Hsets (map_to_list outer) h3 ∅)
    as (h4 & o4 & E4 & Hinv4 & Hkeys & Hkeep & Hdom4).
  { intros k r Hkr. now apply elem_of_map_to_list in Hkr. }
  { apply NoDup_fst_map_to_list. }
  { intros k _. apply lookup_empty. }
  { split; [exact Hb3|]. split; [|split; [|split]].
    - intros k r'. rewrite lookup_empty. discriminate.
    - intros k1 k2 r. rewrite lookup_empty. discriminate.
    - exact Hold3.
    - set_solver. }
  rewrite E4. simpl. exists h4, q. split; [reflexivity|].
  destruct Hinv4 as (Hb4 & Ho4 & Hinj4 & Hag4 & Hd4).
  assert (Hqd3 : q ∈ dom h3) by (eapply lookup_Some_dom; eauto).
  assert (Hq4 : h4 !! q = Some (ObjSystem u' (mkSlice aq n) (Config s) b')).
  { rewrite Hkeep; auto. }
  assert (Hu4 : h4 !! u' = Some (ObjUnits (units s))).
  { rewrite Hkeep; auto.
    - rewrite Hl3; [unfold h2; apply lookup_insert_eq|auto|auto].
    - apply Hdom3. unfold h2. rewrite dom_insert_L. set_solver. }
  assert (Ha4 : h4 !! aq = Some (ObjArray arrq)).
  { rewrite Hkeep; auto. eapply lookup_Some_dom; eauto. }
  assert (Hkeys' : forall k, is_Some (o4 !! k) <-> is_Some (outer !! k)).
  { intros k. rewrite Hkeys. rewrite lookup_empty.
    split.
    - intros [[x Hx]|Hk]; [discriminate|].
      apply list_elem_of_fmap in Hk as ([k' r] & -> & Hkr).
      apply elem_of_map_to_list in Hkr. simpl. eauto.
    - intros [r Hr]. right. apply list_elem_of_fmap. exists (k, r). split; [reflexivity|].
      now apply elem_of_map_to_list. }
  split; [|split; [exact Hag4|split; [|set_solver]]].
  - apply (Represents_intro _ q _ u' aq n b' arrq o4); auto.
    + now rewrite Htakeq.
    + repeat split; auto.
      * intros k. rewrite Hbm. destruct (o4 !! k) as [r'|] eqn:Hk4; simpl.
        -- destruct (Ho4 k r' Hk4) as (_ & _ & ->). reflexivity.
        -- destruct (outer !! k) as [r|] eqn:Hk; [|reflexivity].
           assert (is_Some (o4 !! k)) as [x Hx] by (apply Hkeys'; eauto). congruence.
      * intros k r' Hk4. destruct (Ho4 k r' Hk4) as (_ & [r Hr] & ->).
        rewrite Hr. simpl. eauto.
  - intros l. rewrite (elem_of_footprint h4 q u' b' _ _ o4 l Hq4 Hb4). simpl.
    intros [->|[->|[->|[->|[k Hk]]]]]; auto.
    now destruct (Ho4 k l Hk).
Qed.


(** ** Isolation *)

Lemma hNewSystem_Represents (h : Heap) (config : SystemConfig) :
  Represents (hNewSystem h config).1 (hNewSystem h config).2 (NewSystem config).
Proof.
  destruct (hNewSystem_spec h config)
    as (h1 & q & u' & a0 & b' & E1 & Hq1 & Hu1 & Ha1 & Hb1 & _).
  rewrite E1. simpl.
  apply (Represents_intro h1 q _ u' a0 0 b' [] ∅); auto.
  split; [|split].
  - intros k. now rewrite !lookup_empty.
  - intros k r. rewrite lookup_empty. discriminate.
  - intros k1 k2 r. rewrite lookup_empty. discriminate.
Qed.

Lemma runOp_spec (h : Heap) (p : loc) (s : System) (op : Op) :
  SortSliceSpec ->
  Represents h p s ->
  exists h', runOp h p op = Some h' /\ Represents h' p (applyOp s op) /\ frames h h' p.
Proof.
  intros Hsort Hrep.
  destruct op as [symbol scale dim|prefixSymbol scale ts|symbol sc|config]; simpl.
  - now apply hAdd_spec.
  - destruct (hAddPrefix_spec h p s prefixSymbol scale ts Hsort Hrep) as (h' & E & Hr & Hf).
    exists h'. rewrite E. auto.
  - destruct (hOverwritePrefix_spec h p s symbol sc Hrep) as (h' & E & Hr & Hf).
    exists h'. rewrite E. auto.
  - now apply hSetConfig_spec.
Qed.

(** Two registries that share nothing: any sequence of operations on the
    one and the other leaves each standing for its own value with its own
    operations applied. *)
Lemma runMixed_isolated (ops : list (Side * Op)) :
  SortSliceSpec ->
  forall (h : Heap) (pS pC : loc) (s c : System),
    Represents h pS s -> Represents h pC c ->
    footprint h pS ## footprint h pC ->
    exists h', runMixed h pS pC ops = Some h' /\
               Represents h' pS (applyOps s (opsOn OnSource ops)) /\
               Represents h' pC (applyOps c (opsOn OnClone ops)).
Proof.
  intros Hsort. induction ops as [|[w op] more IH]; intros h pS pC s c HS HC Hdisj; simpl.
  - exists h. auto.
  - destruct w; simpl.
    + destruct (runOp_spec h pS s op Hsort HS) as (h1 & E & HS1 & Hf).
      rewrite E. simpl.
      destruct (frames_other h h1 pS pC c Hf HC Hdisj) as (HC1 & _ & Hdisj1).
      apply (IH h1 pS pC (applyOp s op) c HS1 HC1 Hdisj1).
    + destruct (runOp_spec h pC c op Hsort HC) as (h1 & E & HC1 & Hf).
      rewrite E. simpl.
      destruct (frames_other h h1 pC pS s Hf HS) as (HS1 & _ & Hdisj1); [set_solver|].
      apply (IH h1 pS pC s (applyOp c op) HS1 HC1). set_solver.
Qed.

Lemma runMixed_one_side (h : Heap) (pS pC : loc) (w : Side) (ops : list Op) :
  runMixed h pS pC (List.map (pair w) ops) = runOps h (pointerOf pS pC w) ops /\
  opsOn w (List.map (pair w) ops) = ops /\
  opsOn (match w with OnSource => OnClone | OnClone => OnSource end)
        (List.map (pair w) ops) = [].
Proof.
  revert h; induction ops as [|op ops IH]; intros h; simpl; [auto|].
  split; [|split].
  - destruct (runOp h (pointerOf pS pC w) op) as [h'|]; simpl; [apply IH | reflexivity].
  - destruct w; f_equal; apply (IH h).
  - destruct w; apply (IH h).
Qed.

(** C7. Clone isolation: [Clone] on a pointer to a registry returns a
    pointer to a registry with the same contents, made of objects that did
    not exist before - its own struct, unit map, backing array, outer
    binding map and whitelist sets.  After it, any sequence of [Add],
    [AddPrefix] and [OverwritePrefix] calls and [Config] assignments on the
    clone and on the source runs as if each registry were alone: every [Resolve] on the source
    returns what the source's own calls make it return, and likewise for
    the clone.  So calls on the clone leave every [Resolve] result of the
    source unchanged, and calls on the source leave every [Resolve] result
    of the clone unchanged. *)
Theorem Clone_isolation (h : Heap) (pS : loc) (s : System) :
  SortSliceSpec ->
  Represents h pS s ->
  exists h1 pC,
    hClone h pS = Some (h1, pC) /\
    (forall symbol,
       hResolve h pS symbol = Some (Resolve s symbol) /\
       hResolve h1 pS symbol = Some (Resolve s symbol) /\
       hResolve h1 pC symbol = Some (Resolve s symbol)) /\
    (forall l, l ∈ footprint h1 pC -> l ∉ dom h) /\
    (forall ops, exists h2,
       runMixed h1 pS pC ops = Some h2 /\
       forall symbol,
         hResolve h2 pS symbol = Some (Resolve (applyOps s (opsOn OnSource ops)) symbol) /\
         hResolve h2 pC symbol = Some (Resolve (applyOps s (opsOn OnClone ops)) symbol)) /\
    (forall ops, exists h2,
       runOps h1 pC ops = Some h2 /\
       forall symbol, hResolve h2 pS symbol = hResolve h pS symbol) /\
    (forall ops, exists h2,
       runOps h1 pS ops = Some h2 /\
       forall symbol, hResolve h2 pC symbol = hResolve h1 pC symbol).
Proof.
  intros Hsort HS.
  destruct (hClone_spec h pS s HS) as (h1 & pC & E & HC & Hold & Hnew & Hdom).
  rewrite Clone_eq in HC.
  pose proof (Represents_closed h pS s HS) as Hclosed.
  destruct (Represents_agree h h1 pS s HS) as [HS1 Hfp].
  { intros l Hl. apply Hold. auto. }
  assert (Hdisj : footprint h1 pS ## footprint h1 pC).
  { rewrite Hfp. intros l Hl Hl'. apply (Hnew l Hl'). auto. }
  assert (Hmixed : forall ops, exists h2,
            runMixed h1 pS pC ops = Some h2 /\
            forall symbol,
              hResolve h2 pS symbol =
                Some (Resolve (applyOps s (opsOn OnSource ops)) symbol) /\
              hResolve h2 pC symbol =
                Some (Resolve (applyOps s (opsOn OnClone ops)) symbol)).
  { intros ops.
    destruct (runMixed_isolated ops Hsort h1 pS pC s s HS1 HC Hdisj) as (h2 & E2 & HS2 & HC2).
    exists h2. split; [exact E2|]. intros symbol.
    split; now apply hResolve_spec. }
  exists h1, pC. split; [exact E|]. split; [|split; [exact Hnew|split; [exact Hmixed|split]]].
  - intros symbol. repeat split; now apply hResolve_spec.
  - intros ops. destruct (Hmixed (List.map (pair OnClone) ops)) as (h2 & E2 & Hres).
    destruct (runMixed_one_side h1 pS pC OnClone ops) as (Erun & _ & Eother).
    rewrite Erun in E2. exists h2. split; [exact E2|]. intros symbol.
    destruct (Hres symbol) as [-> _]. rewrite Eother. simpl.
    symmetry. now apply hResolve_spec.
  - intros ops. destruct (Hmixed (List.map (pair OnSource) ops)) as (h2 & E2 & Hres).
    destruct (runMixed_one_side h1 pS pC OnSource ops) as (Erun & _ & Eother).
    rewrite Erun in E2. exists h2. split; [exact E2|]. intros symbol.
    destruct (Hres symbol) as [_ ->]. rewrite Eother. simpl.
    symmetry. now apply hResolve_spec.
Qed.

End StoreFacts.

(** ** The registry of the clone test *)

Lemma cloneTestStore_Represents :
  exists h0 pS, cloneTestStore = Some (h0, pS) /\ Represents h0 pS cloneTestSystem.
Proof.
  unfold cloneTestStore, cloneTestSystem.
  pose proof (@hNewSystem_Represents goRuntime ∅ (mkSystemConfig false false "")) as Hrep.
  destruct (@hNewSystem goRuntime ∅ (mkSystemConfig false false "")) as [h p].
  simpl in Hrep.
  destruct (@hAdd_spec goModel h p _ "B" 1%float DimStorage Hrep) as (h' & E & Hrep' & _).
  rewrite E. simpl.
  destruct (@hAddPrefix_spec goModel goRuntime h' p _ "k" 1000%float ["B"]
              goModel_SortSliceSpec Hrep') as (h'' & E' & Hrep'' & _).
  rewrite E'. simpl. exists h'', p. auto.
Qed.

(** [TestSystem_CloneAndOverwrite]: after [Clone] and
    [OverwritePrefix("k", 1024)] on the clone, "kB" resolves with scale
    1000 in the source and with scale 1024 in the clone. *)
Lemma Clone_isolation_witness :
  exists h0 pS h1 pC h2,
    cloneTestStore = Some (h0, pS) /\
    @hClone goRuntime h0 pS = Some (h1, pC) /\
    @runOps goModel goRuntime h1 pC [OpOverwritePrefix "k" 1024%float] = Some h2 /\
    @hResolve goModel h2 pS "kB" = Some (mkUnit "B" DimStorage 1, 1000%float, true) /\
    @hResolve goModel h2 pC "kB" = Some (mkUnit "B" DimStorage 1, 1024%float, true).
Proof.
  destruct cloneTestStore_Represents as (h0 & pS & E0 & Hrep).
  destruct (@Clone_isolation goModel goRuntime h0 pS cloneTestSystem
              goModel_SortSliceSpec Hrep) as (h1 & pC & E1 & _ & _ & Hmixed & _ & _).
  destruct (Hmixed [(OnClone, OpOverwritePrefix "k" 1024%float)]) as (h2 & E2 & Hres).
  exists h0, pS, h1, pC, h2.
  split; [exact E0|]. split; [exact E1|]. split; [exact E2|].
  destruct (Hres "kB") as [HS HC]. rewrite HS, HC.
  split; vm_compute; reflexivity.
Defined.

End Store.

(** * More of the registry *)

(** ** Lists of prefixes *)

Lemma StronglySorted_after {A} (R : A -> A -> Prop) (l1 l2 : list A) (x : A) :
  StronglySorted R (l1 ++ x :: l2) -> forall y, In y l2 -> R x y.
Proof.
  induction l1 as [|a l1 IH]; simpl; intros Hs y Hy.
  - apply StronglySorted_inv in Hs as [_ Hall].
    rewrite List.Forall_forall in Hall. now apply Hall.
  - apply StronglySorted_inv in Hs as [Hs _]. now apply IH.
Qed.

(** Entries of a list without repeated symbols are told apart by their
    symbol. *)
Lemma symbols_NoDup_eq (ps : list Prefix) (a b : Prefix) :
  List.NoDup (List.map Prefix_Symbol ps) -> In a ps -> In b ps ->
  Prefix_Symbol a = Prefix_Symbol b -> a = b.
Proof.
  induction ps as [|q ps IH]; simpl; [tauto|].
  intros Hnd Ha Hb E. apply List.NoDup_cons_iff in Hnd as [Hq Hnd].
  destruct Ha as [->|Ha], Hb as [->|Hb]; auto.
  - exfalso. apply Hq. rewrite E. now apply in_map.
  - exfalso. apply Hq. rewrite <- E. now apply in_map.
Qed.

Lemma find_unique_Permutation {A} (f : A -> bool) (l1 l2 : list A) :
  Permutation l1 l2 ->
  (forall a b, In a l1 -> In b l1 -> f a = true -> f b = true -> a = b) ->
  List.find f l1 = List.find f l2.
Proof.
  intros Hp Huniq.
  destruct (List.find f l1) as [a|] eqn:E1, (List.find f l2) as [b|] eqn:E2; auto.
  - apply find_some in E1 as [Ha Hfa]. apply find_some in E2 as [Hb Hfb].
    f_equal. apply Huniq; auto. now apply (Permutation_in _ (Permutation_sym Hp)).
  - apply find_some in E1 as [Ha Hfa].
    pose proof (find_none _ _ E2 a (Permutation_in _ Hp Ha)). congruence.
  - apply find_some in E2 as [Hb Hfb].
    pose proof (find_none _ _ E1 b (Permutation_in _ (Permutation_sym Hp) Hb)).
    congruence.
Qed.

(** The first entry a test accepts is the same in two orderings by
    descending length, when the entries it accepts have different lengths. *)
Lemma find_sorted_Permutation (f : Prefix -> bool) (ps1 ps2 : list Prefix) :
  Permutation ps1 ps2 -> byDescendingLength ps1 -> byDescendingLength ps2 ->
  (forall a b, In a ps1 -> In b ps1 -> f a = true -> f b = true ->
     String.length (Prefix_Symbol a) = String.length (Prefix_Symbol b) -> a = b) ->
  List.find f ps1 = List.find f ps2.
Proof.
  intros Hp Hs1 Hs2 Huniq.
  assert (Hle : forall l1 l2 a b,
            Permutation l1 l2 -> byDescendingLength l1 ->
            List.find f l1 = Some a -> List.find f l2 = Some b ->
            String.length (Prefix_Symbol b) <= String.length (Prefix_Symbol a)).
  { intros l1 l2 a b Hperm Hsorted E1 E2.
    apply find_split in E1 as (before & after & -> & Hfa & Hbefore).
    apply find_some in E2 as [Hb Hfb].
    apply (Permutation_in _ (Permutation_sym Hperm)) in Hb.
    apply in_app_or in Hb as [Hb|[<-|Hb]]; [|lia|].
    - rewrite (Hbefore b Hb) in Hfb. discriminate.
    - exact (StronglySorted_after _ _ _ _ Hsorted b Hb). }
  destruct (List.find f ps1) as [a|] eqn:E1, (List.find f ps2) as [b|] eqn:E2; auto.
  - pose proof (Hle ps1 ps2 a b Hp Hs1 E1 E2).
    pose proof (Hle ps2 ps1 b a (Permutation_sym Hp) Hs2 E2 E1).
    apply find_some in E1 as [Ha Hfa]. apply find_some in E2 as [Hb Hfb].
    f_equal. apply Huniq; auto; [|lia].
    now apply (Permutation_in _ (Permutation_sym Hp)).
  - apply find_some in E1 as [Ha Hfa].
    pose proof (find_none _ _ E2 a (Permutation_in _ Hp Ha)). congruence.
  - apply find_some in E2 as [Hb Hfb].
    pose proof (find_none _ _ E1 b (Permutation_in _ (Permutation_sym Hp) Hb)).
    congruence.
Qed.

(** ** The loops of the registry as searches *)

Definition matches (s : System) (lookupSymbol : string) (q : Prefix) : bool :=
  match tryPrefix s lookupSymbol q with Some _ => true | None => false end.

Lemma resolvePrefixes_find (s : System) (lookupSymbol : string) (ps : list Prefix) :
  resolvePrefixes s lookupSymbol ps =
    match List.find (matches s lookupSymbol) ps with
    | Some q => default (zeroUnit, 0%float, false) (tryPrefix s lookupSymbol q)
    | None => (zeroUnit, 0%float, false)
    end.
Proof.
  induction ps as [|p ps IH]; simpl; [reflexivity|].
  unfold matches at 1.
  destruct (tryPrefix s lookupSymbol p) as [r|] eqn:E; [now rewrite E|exact IH].
Qed.

Lemma resolvePrefixes_cases (s : System) (lookupSymbol : string) (ps : list Prefix) :
  (resolvePrefixes s lookupSymbol ps = (zeroUnit, 0%float, false) /\
   forall q, In q ps -> tryPrefix s lookupSymbol q = None) \/
  (exists q r, In q ps /\ tryPrefix s lookupSymbol q = Some r /\
               resolvePrefixes s lookupSymbol ps = r).
Proof.
  induction ps as [|p ps IH]; simpl.
  - left. split; [reflexivity|]. tauto.
  - destruct (tryPrefix s lookupSymbol p) as [r|] eqn:E.
    + right. exists p, r. auto.
    + destruct IH as [[E0 Hall]|(q & r & Hq & Eq & Er)].
      * left. split; [exact E0|]. intros q [<-|Hq]; auto.
      * right. exists q, r. auto.
Qed.

Lemma matches_same_length (s : System) (lookupSymbol : string) (a b : Prefix) :
  matches s lookupSymbol a = true -> matches s lookupSymbol b = true ->
  String.length (Prefix_Symbol a) = String.length (Prefix_Symbol b) ->
  Prefix_Symbol a = Prefix_Symbol b.
Proof.
  unfold matches.
  destruct (tryPrefix s lookupSymbol a) as [ra|] eqn:Ea; [|discriminate].
  destruct (tryPrefix s lookupSymbol b) as [rb|] eqn:Eb; [|discriminate].
  intros _ _ Hlen.
  apply tryPrefix_Some in Ea as (base1 & u1 & E1 & _).
  apply tryPrefix_Some in Eb as (base2 & u2 & E2 & _).
  rewrite E1 in E2. exact (append_same_length _ _ _ _ E2 Hlen).
Qed.

(** [Resolve]'s loop does not depend on the order of prefixes of equal
    length. *)
Lemma resolvePrefixes_order (s : System) (lookupSymbol : string)
    (ps1 ps2 : list Prefix) :
  Permutation ps1 ps2 -> byDescendingLength ps1 -> byDescendingLength ps2 ->
  List.NoDup (List.map Prefix_Symbol ps1) ->
  resolvePrefixes s lookupSymbol ps1 = resolvePrefixes s lookupSymbol ps2.
Proof.
  intros Hp Hs1 Hs2 Hnd. rewrite !resolvePrefixes_find.
  rewrite (find_sorted_Permutation (matches s lookupSymbol) ps1 ps2 Hp Hs1 Hs2);
    [reflexivity|].
  intros a b Ha Hb Hfa Hfb Hlen.
  apply (symbols_NoDup_eq ps1); auto.
  exact (matches_same_length s lookupSymbol a b Hfa Hfb Hlen).
Qed.

Definition hasSymbol (pKey : string) (q : Prefix) : bool :=
  String.eqb (Prefix_Symbol q) pKey.

Lemma scanPrefixes_find (ps : list Prefix) (pKey : string) (scale : float) :
  scanPrefixes ps pKey scale =
    match List.find (hasSymbol pKey) ps with
    | None => ScanAbsent
    | Some q => if negb (Prefix_Scale q =? scale)%float then ScanConflict else ScanExists
    end.
Proof.
  induction ps as [|p ps IH]; simpl; [reflexivity|].
  unfold hasSymbol at 1. destruct (String.eqb (Prefix_Symbol p) pKey); [reflexivity|exact IH].
Qed.

Lemma hasSymbol_unique (ps : list Prefix) (pKey : string) :
  List.NoDup (List.map Prefix_Symbol ps) ->
  forall a b, In a ps -> In b ps ->
    hasSymbol pKey a = true -> hasSymbol pKey b = true -> a = b.
Proof.
  intros Hnd a b Ha Hb Hfa Hfb. apply (symbols_NoDup_eq ps); auto.
  apply String.eqb_eq in Hfa, Hfb. congruence.
Qed.

(** Without repeated symbols, [OverwritePrefix]'s loop rewrites the entries
    that carry the symbol. *)
Definition withScale (pKey : string) (newScale : float) (q : Prefix) : Prefix :=
  if hasSymbol pKey q then mkPrefix (Prefix_Symbol q) newScale else q.

Lemma overwriteFirst_map (ps : list Prefix) (pKey : string) (newScale : float) :
  List.NoDup (List.map Prefix_Symbol ps) ->
  overwriteFirst ps pKey newScale =
    match List.find (hasSymbol pKey) ps with
    | Some _ => Some (List.map (withScale pKey newScale) ps)
    | None => None
    end.
Proof.
  unfold withScale, hasSymbol.
  induction ps as [|p ps IH]; simpl; [reflexivity|].
  intros Hnd. apply List.NoDup_cons_iff in Hnd as [Hp Hnd].
  destruct (String.eqb_spec (Prefix_Symbol p) pKey) as [E|Hne].
  - do 2 f_equal. rewrite <- (map_id ps) at 1. apply map_ext_in. intros q Hq.
    destruct (String.eqb_spec (Prefix_Symbol q) pKey) as [Eq|]; [|reflexivity].
    exfalso. apply Hp. rewrite E, <- Eq. now apply in_map.
  - rewrite (IH Hnd).
    now destruct (List.find (fun q => String.eqb (Prefix_Symbol q) pKey) ps).
Qed.

Lemma withScale_symbol (pKey : string) (newScale : float) (q : Prefix) :
  Prefix_Symbol (withScale pKey newScale q) = Prefix_Symbol q.
Proof. unfold withScale. now destruct (hasSymbol pKey q). Qed.

Lemma prefixScale_find (s : System) (pKey : string) :
  prefixScale s pKey = option_map Prefix_Scale (List.find (hasSymbol pKey) (prefixes s)).
Proof. reflexivity. Qed.

Section RegistryMore.
Context `{GoStd}.

(** A target unit of [AddPrefix] that is a registered unit. *)
Definition registered (s : System) (uSymbol : string) : Prop :=
  is_Some (units s !! normalizeKey s uSymbol).

(** ** The binding loop of [AddPrefix] *)

Lemma bindTargets_cases (s : System) (pKey : string) (ts : list string) :
  (Forall (registered s) ts /\ (bindTargets s pKey ts).2 = None) \/
  (exists pre bad post,
     ts = pre ++ bad :: post /\ Forall (registered s) pre /\
     units s !! normalizeKey s bad = None /\
     (bindTargets s pKey ts).2 = Some (ErrUnknownTargetUnit bad)).
Proof.
  revert s. induction ts as [|t ts IH]; intros s; simpl.
  - left. split; [constructor|reflexivity].
  - destruct (units s !! normalizeKey s t) as [u|] eqn:E.
    + match goal with |- context [bindTargets ?s1 pKey ts] => specialize (IH s1) end.
      destruct IH as [[Hall E2]|(pre & bad & post & -> & Hpre & Hbad & E2)].
      * left. split; [|exact E2]. constructor; [|exact Hall].
        unfold registered. rewrite E. eauto.
      * right. exists (t :: pre), bad, post. repeat split; auto.
        constructor; [|exact Hpre]. unfold registered. rewrite E. eauto.
    + right. exists [], t, ts. repeat split; auto.
Qed.

Lemma bindTargets_whitelisted (s : System) (pKey : string) (ts : list string)
    (b q : string) :
  whitelisted (bindTargets s pKey ts).1 b q = true ->
  whitelisted s b q = true \/
  (q = pKey /\ is_Some (units s !! b) /\ exists t, In t ts /\ b = normalizeKey s t).
Proof.
  revert s. induction ts as [|t ts IH]; intros s; simpl; [auto|].
  destruct (units s !! normalizeKey s t) as [u|] eqn:E; simpl; [|auto].
  intros Hw. apply IH in Hw. simpl in Hw.
  destruct Hw as [Hw|(-> & Hb & t' & Ht' & ->)].
  - rewrite whitelisted_bind in Hw.
    destruct (decide (b = normalizeKey s t /\ q = pKey)) as [[-> ->]|_]; [|auto].
    right. rewrite E. eauto 10.
  - right. eauto 10.
Qed.

Lemma bindTargets_binds (s : System) (pKey : string) (ts : list string) :
  Forall (registered s) ts ->
  forall t, In t ts ->
    whitelisted (bindTargets s pKey ts).1 (normalizeKey s t) pKey = true.
Proof.
  revert s. induction ts as [|t ts IH]; intros s Hall t' Ht'; [destruct Ht'|].
  apply List.Forall_cons_iff in Hall as [[u E] Hall]. simpl. rewrite E.
  match goal with |- context [bindTargets ?s1 pKey ts] => set (s1' := s1) end.
  destruct Ht' as [<-|Ht'].
  - apply (bindTargets_frame s1' pKey ts). unfold s1'. rewrite whitelisted_bind.
    now rewrite decide_True.
  - apply (IH s1' Hall t' Ht').
Qed.

(** The whitelists belong to registered units. *)
Lemma bindTargets_keys (s : System) (pKey : string) (ts : list string)
    (k : string) :
  is_Some (unitPrefixes (bindTargets s pKey ts).1 !! k) ->
  is_Some (unitPrefixes s !! k) \/ is_Some (units s !! k).
Proof.
  revert s. induction ts as [|t ts IH]; intros s; simpl; [auto|].
  destruct (units s !! normalizeKey s t) as [u|] eqn:E; simpl; [|auto].
  intros Hk. apply IH in Hk. simpl in Hk. destruct Hk as [Hk|Hk]; [|auto].
  destruct (decide (k = normalizeKey s t)) as [->|Hne].
  - right. rewrite E. eauto.
  - left. now rewrite lookup_insert_ne in Hk.
Qed.

(** Binding again what is bound changes nothing. *)
Lemma bindTargets_again (s : System) (pKey : string) (ts : list string) :
  Forall (registered s) ts ->
  (forall t, In t ts -> whitelisted s (normalizeKey s t) pKey = true) ->
  bindTargets s pKey ts = (s, None).
Proof.
  induction ts as [|t ts IH]; intros Hall Hw; simpl; [reflexivity|].
  apply List.Forall_cons_iff in Hall as [[u E] Hall]. rewrite E.
  assert (Hsame :
    mkSystem (units s) (prefixes s) (Config s)
      (<[normalizeKey s t :=
           <[pKey := true]>
             (match unitPrefixes s !! normalizeKey s t with
              | Some m => m | None => ∅ end)]> (unitPrefixes s)) = s).
  { pose proof (Hw t (or_introl eq_refl)) as Ht. unfold whitelisted in Ht.
    destruct (unitPrefixes s !! normalizeKey s t) as [set|] eqn:Eset; [|discriminate].
    destruct (set !! pKey) as [[]|] eqn:Ep; try discriminate.
    rewrite (insert_id set pKey true Ep), (insert_id _ _ _ Eset).
    now destruct s. }
  rewrite Hsame. apply IH; [exact Hall|]. intros t' Ht'. apply Hw. now right.
Qed.

Lemma scanPrefixes_cases (s : System) (pKey : string) (sc : float) :
  match scanPrefixes (prefixes s) pKey sc with
  | ScanAbsent => prefixScale s pKey = None
  | ScanExists => exists sc0, prefixScale s pKey = Some sc0 /\ (sc0 =? sc)%float = true
  | ScanConflict => exists sc0, prefixScale s pKey = Some sc0 /\ (sc0 =? sc)%float = false
  end.
Proof.
  rewrite scanPrefixes_find, prefixScale_find.
  destruct (List.find (hasSymbol pKey) (prefixes s)) as [q|]; simpl; [|reflexivity].
  destruct (Prefix_Scale q =? sc)%float eqn:E; simpl; eauto.
Qed.


(** ** [Resolve] *)

(** X1. [Resolve] reports found exactly when the normalized symbol is the
    key of a registered unit, or is the symbol of a registered prefix
    followed by the non-empty key of a registered unit that whitelists the
    prefix.  What it returns when found is a registered unit, with scale 1.0
    for an exact match and with the scale of such a prefix otherwise; when
    not found it returns the zero [Unit] and 0. *)
Theorem Resolve_found_iff (s : System) (symbol : string) :
  ((Resolve s symbol).2 = true <->
     is_Some (units s !! normalizeKey s symbol) \/
     exists q baseSymbol,
       In q (prefixes s) /\
       decomposesAs s (normalizeKey s symbol) (Prefix_Symbol q) baseSymbol) /\
  (forall u sc, Resolve s symbol = (u, sc, true) ->
     (units s !! normalizeKey s symbol = Some u /\ sc = 1%float) \/
     (units s !! normalizeKey s symbol = None /\
      exists q baseSymbol,
        In q (prefixes s) /\
        normalizeKey s symbol = Prefix_Symbol q +:+ baseSymbol /\
        baseSymbol <> "" /\ units s !! baseSymbol = Some u /\
        whitelisted s baseSymbol (Prefix_Symbol q) = true /\
        sc = Prefix_Scale q)) /\
  ((Resolve s symbol).2 = false -> Resolve s symbol = (zeroUnit, 0%float, false)).
Proof.
  unfold Resolve.
  destruct (units s !! normalizeKey s symbol) as [u0|] eqn:E; simpl.
  - split; [|split].
    + split; [eauto|reflexivity].
    + intros u sc [= <- <-]. auto.
    + discriminate.
  - destruct (resolvePrefixes_cases s (normalizeKey s symbol) (prefixes s))
      as [[E0 Hnone]|(q & r & Hq & Eq & Er)].
    + rewrite E0. split; [|split]; [|discriminate|reflexivity].
      split; [discriminate|]. intros [[? [=]]|(q & base & Hq & Hd)].
      destruct Hd as (Ek & Hne & [u Hu] & Hw).
      assert (tryPrefix s (normalizeKey s symbol) q = Some (u, Prefix_Scale q, true))
        by (apply tryPrefix_Some; eauto 10).
      rewrite (Hnone q Hq) in *. discriminate.
    + rewrite Er. pose proof Eq as Eq'.
      apply tryPrefix_Some in Eq as (base & u & Ek & Hne & Hu & Hw & ->). simpl.
      split; [|split]; [| |discriminate].
      * split; [|reflexivity]. intros _. right. exists q, base.
        split; [exact Hq|]. repeat split; eauto.
      * intros u' sc' [= <- <-]. right. split; [reflexivity|].
        exists q, base. auto 10.
Qed.

Lemma tryPrefix_ext (s s' : System) (lookupSymbol : string) (q : Prefix) :
  units s' = units s -> unitPrefixes s' = unitPrefixes s ->
  tryPrefix s' lookupSymbol q = tryPrefix s lookupSymbol q.
Proof. intros Eu Eb. unfold tryPrefix. now rewrite Eu, Eb. Qed.

Lemma resolvePrefixes_ext (s s' : System) (lookupSymbol : string) (ps : list Prefix) :
  units s' = units s -> unitPrefixes s' = unitPrefixes s ->
  resolvePrefixes s' lookupSymbol ps = resolvePrefixes s lookupSymbol ps.
Proof.
  intros Eu Eb. induction ps as [|p ps IH]; simpl; [reflexivity|].
  now rewrite (tryPrefix_ext s s' lookupSymbol p Eu Eb), IH.
Qed.

(** ** [Add] *)

(** X2. After [Add(symbol, scale, dim)], every symbol with the key of
    [symbol] resolves, by exact match, to the unit just given, which keeps
    the symbol as written: the last registration of a key is the one in
    force.  [Add] leaves the prefixes, the configuration and the whitelists
    as they are (a unit that is registered again keeps its prefix bindings),
    and it changes the result of [Resolve] at most for that key and for a
    registered prefix followed by that key. *)
Theorem Add_then_Resolve (s : System) (symbol symbol' : string) (scale : float)
    (dim : Dimension) :
  normalizeKey s symbol' = normalizeKey s symbol ->
  Resolve (Add s symbol scale dim) symbol' = (mkUnit symbol dim scale, 1%float, true) /\
  prefixes (Add s symbol scale dim) = prefixes s /\
  Config (Add s symbol scale dim) = Config s /\
  unitPrefixes (Add s symbol scale dim) = unitPrefixes s /\
  (forall other,
     normalizeKey s other <> normalizeKey s symbol ->
     (forall q, In q (prefixes s) ->
        normalizeKey s other <> Prefix_Symbol q +:+ normalizeKey s symbol) ->
     Resolve (Add s symbol scale dim) other = Resolve s other).
Proof.
  intros Ekey. split; [|split; [|split; [|split]]]; try reflexivity.
  - unfold Resolve, Add, normalizeKey in *. simpl. rewrite Ekey.
    now rewrite lookup_insert_eq.
  - intros other Hne Hpre. unfold Resolve.
    change (normalizeKey (Add s symbol scale dim) other) with (normalizeKey s other).
    set (k := normalizeKey s other) in *. set (key := normalizeKey s symbol) in *.
    change (units (Add s symbol scale dim)) with
      (<[key := mkUnit symbol dim scale]> (units s)).
    rewrite lookup_insert_ne by congruence.
    destruct (units s !! k); [reflexivity|].
    change (prefixes (Add s symbol scale dim)) with (prefixes s).
    assert (Hin : forall q, In q (prefixes s) -> In q (prefixes s)) by auto.
    revert Hin. generalize (prefixes s) at 1 3 4 as ps.
    induction ps as [|p ps IH]; intros Hin; simpl; [reflexivity|].
    assert (Htry : tryPrefix (Add s symbol scale dim) k p = tryPrefix s k p).
    { unfold tryPrefix.
      destruct (Nat.ltb _ _ && String.eqb (sliceTo _ k) (Prefix_Symbol p)) eqn:Ec;
        [|reflexivity].
      apply andb_prop in Ec as [_ Ec]. apply String.eqb_eq in Ec.
      change (units (Add s symbol scale dim)) with
        (<[key := mkUnit symbol dim scale]> (units s)).
      rewrite lookup_insert_ne; [reflexivity|].
      intros Ebase. apply (Hpre p (Hin p (or_introl eq_refl))).
      rewrite <- (slice_split (String.length (Prefix_Symbol p)) k) at 1.
      now rewrite Ec, <- Ebase. }
    rewrite Htry. destruct (tryPrefix s k p); [reflexivity|].
    apply IH. intros q Hq. apply Hin. now right.
Qed.

(** ** [AddPrefix] *)

(** X3. The error of [AddPrefix], case by case: it is the conflict error
    exactly when the prefix is registered with a scale that [!=] tells from
    the one given, and then the registry is as before, whatever the target
    units; otherwise it names the first target unit that is not registered,
    when there is one; otherwise the call succeeds. *)
Theorem AddPrefix_errors (s : System) (p : string) (sc : float) (ts : list string) :
  match (AddPrefix s p sc ts).2 with
  | Some (ErrPrefixConflict p') =>
      p' = p /\ (AddPrefix s p sc ts).1 = s /\
      exists sc0, prefixScale s (normalizeKey s p) = Some sc0 /\
                  (sc0 =? sc)%float = false
  | Some (ErrUnknownTargetUnit bad) =>
      (prefixScale s (normalizeKey s p) = None \/
       exists sc0, prefixScale s (normalizeKey s p) = Some sc0 /\
                   (sc0 =? sc)%float = true) /\
      exists pre post,
        ts = pre ++ bad :: post /\ Forall (registered s) pre /\
        units s !! normalizeKey s bad = None
  | Some (ErrPrefixNotFound _) => False
  | None =>
      (prefixScale s (normalizeKey s p) = None \/
       exists sc0, prefixScale s (normalizeKey s p) = Some sc0 /\
                   (sc0 =? sc)%float = true) /\
      Forall (registered s) ts
  end.
Proof.
  unfold AddPrefix. pose proof (scanPrefixes_cases s (normalizeKey s p) sc) as Hscan.
  destruct (scanPrefixes (prefixes s) (normalizeKey s p) sc); simpl; [auto| |].
  - destruct (bindTargets_cases s (normalizeKey s p) ts)
      as [[Hall ->]|(pre & bad & post & -> & Hpre & Hbad & ->)]; eauto 10.
  - match goal with |- context [bindTargets ?s1 _ ts] => set (s1' := s1) end.
    destruct (bindTargets_cases s1' (normalizeKey s p) ts)
      as [[Hall ->]|(pre & bad & post & -> & Hpre & Hbad & ->)]; eauto 10.
Qed.

Lemma prefixScale_added (s : System) (pKey : string) (sc : float) :
  SortSliceSpec ->
  prefixScale s pKey = None ->
  List.find (hasSymbol pKey)
    (SortSlice longerSymbol (prefixes s ++ [mkPrefix pKey sc])) =
  Some (mkPrefix pKey sc).
Proof.
  intros Hsort Hnone.
  apply (find_unique _ _ (prefixes s)).
  - apply Hsort.
  - apply String.eqb_refl.
  - intros q Hq. apply String.eqb_neq.
    exact (proj1 (prefixScale_None s pKey) Hnone q Hq).
Qed.

(** X4. What a successful [AddPrefix] does: the units and the configuration
    are as before.  When the prefix was registered, the prefix list is as
    before and the prefix keeps the scale it had, which [==] the one given;
    when it was not, the prefix list has the one new entry (in some order)
    and the prefix is registered with the scale given, whatever it is (a NaN
    too).  The whitelists are those of before, with the prefix added to the
    whitelist of every target unit. *)
Theorem AddPrefix_effect (s : System) (p : string) (sc : float) (ts : list string) :
  SortSliceSpec ->
  (AddPrefix s p sc ts).2 = None ->
  units (AddPrefix s p sc ts).1 = units s /\
  Config (AddPrefix s p sc ts).1 = Config s /\
  match prefixScale s (normalizeKey s p) with
  | Some sc0 =>
      prefixes (AddPrefix s p sc ts).1 = prefixes s /\
      prefixScale (AddPrefix s p sc ts).1 (normalizeKey s p) = Some sc0 /\
      (sc0 =? sc)%float = true
  | None =>
      Permutation (prefixes (AddPrefix s p sc ts).1)
                  (prefixes s ++ [mkPrefix (normalizeKey s p) sc]) /\
      prefixScale (AddPrefix s p sc ts).1 (normalizeKey s p) = Some sc
  end /\
  (forall b q,
     whitelisted (AddPrefix s p sc ts).1 b q = true <->
     whitelisted s b q = true \/
     (q = normalizeKey s p /\ exists t, In t ts /\ b = normalizeKey s t)).
Proof.
  intros Hsort. unfold AddPrefix.
  pose proof (scanPrefixes_cases s (normalizeKey s p) sc) as Hscan.
  destruct (scanPrefixes (prefixes s) (normalizeKey s p) sc); [discriminate| |].
  - destruct Hscan as (sc0 & E0 & Hsc0). rewrite E0. intros Hok.
    destruct (bindTargets_frame s (normalizeKey s p) ts) as (Eu & Ep & Ec & Hold).
    destruct (bindTargets_cases s (normalizeKey s p) ts)
      as [[Hall _]|(pre & bad & post & _ & _ & _ & E2)]; [|congruence].
    split; [exact Eu|]. split; [exact Ec|]. split.
    + split; [exact Ep|]. split; [|exact Hsc0].
      unfold prefixScale in *. now rewrite Ep.
    + intros b q. split.
      * intros Hw. apply bindTargets_whitelisted in Hw as [Hw|(-> & _ & t & Ht & ->)];
          eauto.
      * intros [Hw|(-> & t & Ht & ->)]; [now apply Hold|].
        now apply bindTargets_binds.
  - rewrite Hscan. intros Hok.
    match goal with |- context [bindTargets ?s1 _ ts] => set (s1' := s1) in * end.
    destruct (bindTargets_frame s1' (normalizeKey s p) ts) as (Eu & Ep & Ec & Hold).
    destruct (bindTargets_cases s1' (normalizeKey s p) ts)
      as [[Hall _]|(pre & bad & post & _ & _ & _ & E2)]; [|congruence].
    split; [exact Eu|]. split; [exact Ec|]. split.
    + split; [rewrite Ep; apply Hsort|].
      unfold prefixScale. rewrite Ep. unfold s1'; simpl.
      fold (hasSymbol (normalizeKey s p)).
      now rewrite (prefixScale_added s (normalizeKey s p) sc Hsort Hscan).
    + intros b q. split.
      * intros Hw. apply bindTargets_whitelisted in Hw as [Hw|(-> & _ & t & Ht & ->)];
          eauto.
      * intros [Hw|(-> & t & Ht & ->)]; [now apply Hold|].
        now apply (bindTargets_binds s1').
Qed.

(** X5. [AddPrefix] is idempotent when it succeeds with a scale that [==]
    itself (any scale but NaN): the same call again succeeds and leaves the
    registry as the first call left it. *)
Theorem AddPrefix_idempotent (s s' : System) (p : string) (sc : float)
    (ts : list string) :
  SortSliceSpec ->
  (sc =? sc)%float = true ->
  AddPrefix s p sc ts = (s', None) ->
  AddPrefix s' p sc ts = (s', None).
Proof.
  intros Hsort Hsc E.
  assert (Hok : (AddPrefix s p sc ts).2 = None) by now rewrite E.
  assert (Es' : (AddPrefix s p sc ts).1 = s') by now rewrite E.
  assert (Hfacts :
    Forall (registered s) ts /\
    units s' = units s /\ Config s' = Config s /\
    (exists sc', prefixScale s' (normalizeKey s p) = Some sc' /\
                 (sc' =? sc)%float = true) /\
    forall t, In t ts -> whitelisted s' (normalizeKey s t) (normalizeKey s p) = true).
  { rewrite <- Es'. clear E Es'. revert Hok. unfold AddPrefix.
    pose proof (scanPrefixes_cases s (normalizeKey s p) sc) as Hscan.
    destruct (scanPrefixes (prefixes s) (normalizeKey s p) sc); [discriminate| |];
      intros Hok.
    - destruct Hscan as (sc0 & E0 & Hsc0).
      destruct (bindTargets_frame s (normalizeKey s p) ts) as (Eu & Ep & Ec & _).
      destruct (bindTargets_cases s (normalizeKey s p) ts)
        as [[Hall _]|(pre & bad & post & _ & _ & _ & E2)]; [|congruence].
      split; [exact Hall|]. repeat split; auto.
      + exists sc0. unfold prefixScale in *. rewrite Ep. auto.
      + now apply bindTargets_binds.
    - match goal with |- context [bindTargets ?s1 _ ts] => set (s1' := s1) in * end.
      destruct (bindTargets_frame s1' (normalizeKey s p) ts) as (Eu & Ep & Ec & _).
      destruct (bindTargets_cases s1' (normalizeKey s p) ts)
        as [[Hall _]|(pre & bad & post & _ & _ & _ & E2)]; [|congruence].
      split; [exact Hall|]. repeat split; auto.
      + exists sc. split; [|exact Hsc]. unfold prefixScale. rewrite Ep.
        unfold s1'; simpl. fold (hasSymbol (normalizeKey s p)).
        now rewrite (prefixScale_added s (normalizeKey s p) sc Hsort Hscan).
      + now apply (bindTargets_binds s1'). }
  destruct Hfacts as (Hall & Eu & Ec & (sc' & Esc' & Hsc') & Hbound).
  assert (Hkey : forall k, normalizeKey s' k = normalizeKey s k)
    by (intros k; now apply normalizeKey_Config).
  unfold AddPrefix. rewrite Hkey.
  rewrite (scanPrefixes_registered s' (normalizeKey s p) sc' sc Esc'), Hsc'. simpl.
  apply bindTargets_again.
  - eapply List.Forall_impl; [|exact Hall]. intros t Ht. unfold registered in *.
    now rewrite Hkey, Eu.
  - intros t Ht. rewrite Hkey. now apply Hbound.
Qed.

(** ** [OverwritePrefix] *)

Lemma overwriteFirst_None (ps : list Prefix) (pKey : string) (newScale : float) :
  overwriteFirst ps pKey newScale = None <-> List.find (hasSymbol pKey) ps = None.
Proof.
  unfold hasSymbol. induction ps as [|p ps IH]; simpl; [tauto|].
  destruct (String.eqb (Prefix_Symbol p) pKey); [split; discriminate|].
  destruct (overwriteFirst ps pKey newScale); simpl; [|tauto].
  split; [discriminate|]. intros E. apply IH in E. discriminate.
Qed.

Lemma overwriteFirst_find (ps ps' : list Prefix) (pKey : string) (newScale : float) :
  overwriteFirst ps pKey newScale = Some ps' ->
  List.find (hasSymbol pKey) ps' = Some (mkPrefix pKey newScale) /\
  forall other, other <> pKey ->
    option_map Prefix_Scale (List.find (hasSymbol other) ps') =
    option_map Prefix_Scale (List.find (hasSymbol other) ps).
Proof.
  unfold hasSymbol. revert ps'. induction ps as [|p ps IH]; simpl; [discriminate|].
  intros ps'. destruct (String.eqb_spec (Prefix_Symbol p) pKey) as [E|Hne].
  - intros [= <-]. simpl. rewrite E, String.eqb_refl. split; [reflexivity|].
    intros other Hother. apply not_eq_sym in Hother.
    apply String.eqb_neq in Hother. now rewrite Hother.
  - destruct (overwriteFirst ps pKey newScale) as [ps0|]; [|discriminate].
    intros [= <-]. simpl. destruct (IH ps0 eq_refl) as [IH1 IH2].
    apply String.eqb_neq in Hne. rewrite Hne. split; [exact IH1|].
    intros other Hother. destruct (String.eqb (Prefix_Symbol p) other); auto.
Qed.

(** X6. [OverwritePrefix] fails, with the not-found error, exactly when the
    prefix is not registered, and then the registry is as before.  When it
    succeeds, the prefix has the new scale, every other prefix has the scale
    it had, the prefix list has the same symbols in the same order, and the
    units, the configuration and the whitelists are as before. *)
Theorem OverwritePrefix_effect (s : System) (symbol : string) (newScale : float) :
  (prefixScale s (normalizeKey s symbol) = None ->
   OverwritePrefix s symbol newScale = (s, Some (ErrPrefixNotFound symbol))) /\
  (is_Some (prefixScale s (normalizeKey s symbol)) ->
   (OverwritePrefix s symbol newScale).2 = None /\
   prefixScale (OverwritePrefix s symbol newScale).1 (normalizeKey s symbol) =
     Some newScale) /\
  (forall other, other <> normalizeKey s symbol ->
     prefixScale (OverwritePrefix s symbol newScale).1 other = prefixScale s other) /\
  List.map Prefix_Symbol (prefixes (OverwritePrefix s symbol newScale).1) =
    List.map Prefix_Symbol (prefixes s) /\
  units (OverwritePrefix s symbol newScale).1 = units s /\
  Config (OverwritePrefix s symbol newScale).1 = Config s /\
  unitPrefixes (OverwritePrefix s symbol newScale).1 = unitPrefixes s.
Proof.
  unfold OverwritePrefix. rewrite prefixScale_find.
  destruct (overwriteFirst (prefixes s) (normalizeKey s symbol) newScale) as [ps'|] eqn:E.
  - destruct (overwriteFirst_find _ _ _ _ E) as [Hfind Hother].
    assert (Hsome : List.find (hasSymbol (normalizeKey s symbol)) (prefixes s) <> None).
    { intros Hn. apply overwriteFirst_None with (newScale := newScale) in Hn. congruence. }
    split; [|split; [|split; [|split; [|split; [|split]]]]]; simpl; try reflexivity.
    + intros Hn. destruct (List.find _ (prefixes s)); [discriminate|congruence].
    + intros _. split; [reflexivity|]. unfold prefixScale; simpl.
      fold (hasSymbol (normalizeKey s symbol)). now rewrite Hfind.
    + intros other Ho. unfold prefixScale; simpl. now apply Hother.
    + exact (overwriteFirst_symbols _ _ _ _ E).
  - apply overwriteFirst_None in E. rewrite E. simpl.
    split; [|split; [|split; [|split; [|split; [|split]]]]]; try reflexivity.
    intros [x [=]].
Qed.

Lemma tryPrefix_withScale (s : System) (lookupSymbol : string) (q : Prefix)
    (newScale : float) :
  tryPrefix s lookupSymbol (mkPrefix (Prefix_Symbol q) newScale) =
    match tryPrefix s lookupSymbol q with
    | Some r => Some (r.1.1, newScale, true)
    | None => None
    end.
Proof.
  unfold tryPrefix; simpl.
  repeat match goal with
         | |- context [match ?x with _ => _ end] => destruct x; try reflexivity
         end.
Qed.

(** The results of [Resolve]'s loop on a prefix list and on what
    [OverwritePrefix]'s loop makes of it. *)
Lemma resolvePrefixes_overwriteFirst (s : System) (lookupSymbol pKey : string)
    (newScale : float) (ps ps' : list Prefix) :
  overwriteFirst ps pKey newScale = Some ps' ->
  (resolvePrefixes s lookupSymbol ps').1.1 = (resolvePrefixes s lookupSymbol ps).1.1 /\
  (resolvePrefixes s lookupSymbol ps').2 = (resolvePrefixes s lookupSymbol ps).2 /\
  ((resolvePrefixes s lookupSymbol ps').1.2 = (resolvePrefixes s lookupSymbol ps).1.2 \/
   ((resolvePrefixes s lookupSymbol ps').1.2 = newScale /\
    exists baseSymbol, lookupSymbol = pKey +:+ baseSymbol)).
Proof.
  revert ps'. induction ps as [|p ps IH]; simpl; [discriminate|].
  intros ps'. destruct (String.eqb_spec (Prefix_Symbol p) pKey) as [E|Hne].
  - intros [= <-]. simpl. rewrite tryPrefix_withScale.
    destruct (tryPrefix s lookupSymbol p) as [r|] eqn:Et; [|auto].
    apply tryPrefix_Some in Et as (base & u & Ek & _ & _ & _ & ->). simpl.
    split; [reflexivity|]. split; [reflexivity|]. right. split; [reflexivity|].
    exists base. now rewrite <- E.
  - destruct (overwriteFirst ps pKey newScale) as [ps0|]; [|discriminate].
    intros [= <-]. simpl. destruct (tryPrefix s lookupSymbol p); [auto|].
    now apply IH.
Qed.

(** X7. [OverwritePrefix] changes scales only: for every symbol, [Resolve]
    afterwards returns the unit it returned before and is found exactly when
    it was; the scale it returns is the one of before, or it is the new
    scale, for a symbol that begins with the overwritten prefix. *)
Theorem OverwritePrefix_keeps_resolution (s : System) (symbol : string)
    (newScale : float) (lookup : string) :
  (Resolve (OverwritePrefix s symbol newScale).1 lookup).1.1 = (Resolve s lookup).1.1 /\
  (Resolve (OverwritePrefix s symbol newScale).1 lookup).2 = (Resolve s lookup).2 /\
  ((Resolve (OverwritePrefix s symbol newScale).1 lookup).1.2 = (Resolve s lookup).1.2 \/
   ((Resolve (OverwritePrefix s symbol newScale).1 lookup).1.2 = newScale /\
    exists baseSymbol,
      normalizeKey s lookup = normalizeKey s symbol +:+ baseSymbol)).
Proof.
  unfold OverwritePrefix.
  destruct (overwriteFirst (prefixes s) (normalizeKey s symbol) newScale) as [ps'|] eqn:E;
    simpl; [|auto].
  unfold Resolve. simpl.
  change (normalizeKey (mkSystem (units s) ps' (Config s) (unitPrefixes s)) lookup)
    with (normalizeKey s lookup).
  destruct (units s !! normalizeKey s lookup); [auto|].
  rewrite (resolvePrefixes_ext s (mkSystem (units s) ps' (Config s) (unitPrefixes s)))
    by reflexivity.
  exact (resolvePrefixes_overwriteFirst s _ _ _ _ _ E).
Qed.

(** ** What the operations keep *)

Lemma find_is_Some {A} (f : A -> bool) (l : list A) :
  is_Some (List.find f l) <-> exists x, In x l /\ f x = true.
Proof.
  split.
  - intros [x E]. exists x. now apply find_some in E.
  - intros (x & Hx & Hfx). destruct (List.find f l) eqn:E; [eauto|].
    rewrite (find_none _ _ E x Hx) in Hfx. discriminate.
Qed.

Lemma prefixScale_is_Some (s : System) (pKey : string) :
  is_Some (prefixScale s pKey) <-> In pKey (List.map Prefix_Symbol (prefixes s)).
Proof.
  rewrite prefixScale_find. split.
  - intros [sc E]. destruct (List.find (hasSymbol pKey) (prefixes s)) as [q|] eqn:Ef;
      [|discriminate].
    apply find_some in Ef as [Hq Hs]. apply String.eqb_eq in Hs. rewrite <- Hs.
    now apply in_map.
  - intros Hin. apply in_map_iff in Hin as (q & <- & Hq).
    assert (Hs : is_Some (List.find (hasSymbol (Prefix_Symbol q)) (prefixes s))).
    { apply find_is_Some. exists q. split; [exact Hq|]. apply String.eqb_refl. }
    destruct Hs as [x ->]. simpl. eauto.
Qed.

(** The prefix list is ordered by descending symbol length and has no
    repeated symbol; whitelists belong to registered units and hold
    registered prefixes. *)
Record sound (s : System) : Prop := mkSound {
  sound_sorted : byDescendingLength (prefixes s);
  sound_symbols : List.NoDup (List.map Prefix_Symbol (prefixes s));
  sound_keys : forall k, is_Some (unitPrefixes s !! k) -> is_Some (units s !! k);
  sound_bound : forall b q, whitelisted s b q = true -> is_Some (prefixScale s q) }.

Lemma NewSystem_sound (config : SystemConfig) : sound (NewSystem config).
Proof.
  split; simpl.
  - constructor.
  - constructor.
  - intros k [x Hx]. now rewrite lookup_empty in Hx.
  - intros b q. unfold whitelisted. simpl. now rewrite lookup_empty.
Qed.

Lemma added_sound (s : System) (pKey : string) (sc : float) :
  SortSliceSpec -> sound s -> prefixScale s pKey = None ->
  sound (mkSystem (units s)
           (SortSlice longerSymbol (prefixes s ++ [mkPrefix pKey sc]))
           (Config s) (unitPrefixes s)).
Proof.
  intros Hsort [Hs Hnd Hk Hb] Hnone.
  destruct (Hsort (prefixes s ++ [mkPrefix pKey sc])) as [Hperm Hsorted].
  assert (Hperm' : Permutation
            (List.map Prefix_Symbol (SortSlice longerSymbol (prefixes s ++ [mkPrefix pKey sc])))
            (pKey :: List.map Prefix_Symbol (prefixes s))).
  { rewrite (Permutation_map Prefix_Symbol Hperm), map_app. simpl.
    symmetry. apply Permutation_cons_append. }
  split; simpl.
  - exact Hsorted.
  - apply (Permutation_NoDup (Permutation_sym Hperm')).
    apply List.NoDup_cons; [|exact Hnd].
    intros Hin. apply prefixScale_is_Some in Hin. rewrite Hnone in Hin.
    now destruct Hin.
  - exact Hk.
  - intros b q Hw. apply prefixScale_is_Some. simpl.
    apply (Permutation_in _ (Permutation_sym Hperm')). right.
    apply prefixScale_is_Some. now apply (Hb b q).
Qed.

Lemma bindTargets_sound (s : System) (pKey : string) (ts : list string) :
  sound s -> is_Some (prefixScale s pKey) -> sound (bindTargets s pKey ts).1.
Proof.
  intros [Hs Hnd Hk Hb] Hp.
  destruct (bindTargets_frame s pKey ts) as (Eu & Ep & Ec & _).
  split.
  - now rewrite Ep.
  - now rewrite Ep.
  - intros k Hk'. rewrite Eu. apply bindTargets_keys in Hk' as [Hk'|Hk']; auto.
  - intros b q Hw. unfold prefixScale. rewrite Ep.
    apply bindTargets_whitelisted in Hw as [Hw|(-> & _)]; [now apply (Hb b q)|exact Hp].
Qed.

Lemma AddPrefix_sound (s : System) (p : string) (sc : float) (ts : list string) :
  SortSliceSpec -> sound s -> sound (AddPrefix s p sc ts).1.
Proof.
  intros Hsort Hsound. unfold AddPrefix.
  pose proof (scanPrefixes_cases s (normalizeKey s p) sc) as Hscan.
  destruct (scanPrefixes (prefixes s) (normalizeKey s p) sc); simpl; [exact Hsound| |].
  - destruct Hscan as (sc0 & E0 & _). apply bindTargets_sound; [exact Hsound|].
    rewrite E0. eauto.
  - apply bindTargets_sound; [now apply added_sound|].
    unfold prefixScale. simpl. fold (hasSymbol (normalizeKey s p)).
    rewrite (prefixScale_added s (normalizeKey s p) sc Hsort Hscan). simpl. eauto.
Qed.

Lemma OverwritePrefix_sound (s : System) (symbol : string) (newScale : float) :
  sound s -> sound (OverwritePrefix s symbol newScale).1.
Proof.
  intros Hsound. unfold OverwritePrefix.
  destruct (overwriteFirst (prefixes s) (normalizeKey s symbol) newScale) as [ps'|] eqn:E;
    simpl; [|exact Hsound].
  destruct Hsound as [Hs Hnd Hk Hb].
  pose proof (overwriteFirst_symbols _ _ _ _ E) as Hsym.
  split; simpl.
  - exact (byDescendingLength_symbols _ _ (eq_sym Hsym) Hs).
  - now rewrite Hsym.
  - exact Hk.
  - intros b q Hw. apply prefixScale_is_Some. simpl. rewrite Hsym.
    apply prefixScale_is_Some. now apply (Hb b q).
Qed.

Lemma Add_sound (s : System) (symbol : string) (scale : float) (dim : Dimension) :
  sound s -> sound (Add s symbol scale dim).
Proof.
  intros [Hs Hnd Hk Hb]. split; simpl; auto.
  intros k Hk'. apply lookup_insert_is_Some'. right. now apply Hk.
Qed.

Lemma applyOp_sound (s : System) (op : Store.Op) :
  SortSliceSpec -> sound s -> sound (Store.applyOp s op).
Proof.
  intros Hsort Hsound. destruct op; simpl.
  - now apply Add_sound.
  - now apply AddPrefix_sound.
  - now apply OverwritePrefix_sound.
  - destruct Hsound. now split.
Qed.

Lemma applyOps_sound (s : System) (ops : list Store.Op) :
  SortSliceSpec -> sound s -> sound (Store.applyOps s ops).
Proof.
  intros Hsort. unfold Store.applyOps. revert s.
  induction ops as [|op ops IH]; intros s Hsound; simpl; [exact Hsound|].
  apply IH. now apply applyOp_sound.
Qed.

(** X8. What every registry keeps, whatever sequence of [Add], [AddPrefix]
    and [OverwritePrefix] calls and [Config] assignments made it from a new
    one (a clone has the contents of its source): no two entries of the
    prefix list have the same symbol; every whitelist is that of a
    registered unit, and a prefix in a whitelist is a registered prefix. *)
Theorem registry_invariants (config : SystemConfig) (ops : list Store.Op) :
  SortSliceSpec ->
  List.NoDup (List.map Prefix_Symbol
                (prefixes (Store.applyOps (NewSystem config) ops))) /\
  (forall k,
     is_Some (unitPrefixes (Store.applyOps (NewSystem config) ops) !! k) ->
     is_Some (units (Store.applyOps (NewSystem config) ops) !! k)) /\
  (forall b q,
     whitelisted (Store.applyOps (NewSystem config) ops) b q = true ->
     is_Some (units (Store.applyOps (NewSystem config) ops) !! b) /\
     is_Some (prefixScale (Store.applyOps (NewSystem config) ops) q)) /\
  Clone (Store.applyOps (NewSystem config) ops) =
    Store.applyOps (NewSystem config) ops.
Proof.
  intros Hsort.
  destruct (applyOps_sound (NewSystem config) ops Hsort (NewSystem_sound config))
    as [Hs Hnd Hk Hb].
  split; [exact Hnd|]. split; [exact Hk|]. split; [|apply Store.Clone_eq].
  intros b q Hw. split; [|now apply (Hb b q)].
  apply Hk. unfold whitelisted in Hw.
  destruct (unitPrefixes _ !! b); [eauto|discriminate].
Qed.

End RegistryMore.

(** ** The order [sort.Slice] gives to prefixes of equal length

    Two instances of the library that may differ in [sort.Slice]. *)

(** Two registries with the same units, configuration and whitelists,
    and the same prefix entries in some order. *)
Record sameUpToOrder (s1 s2 : System) : Prop := mkSameUpToOrder {
  same_units : units s1 = units s2;
  same_Config : Config s1 = Config s2;
  same_unitPrefixes : unitPrefixes s1 = unitPrefixes s2;
  same_prefixes : Permutation (prefixes s1) (prefixes s2) }.

Lemma normalizeKey_same (G1 G2 : GoStd) (s1 s2 : System) (k : string) :
  (forall k, @ToLower G1 k = @ToLower G2 k) -> Config s1 = Config s2 ->
  @normalizeKey G1 s1 k = @normalizeKey G2 s2 k.
Proof. intros HL Ec. unfold normalizeKey. rewrite Ec, HL. reflexivity. Qed.

Lemma bindTargets_same (G1 G2 : GoStd) (pKey : string) (ts : list string)
    (s1 s2 : System) :
  (forall k, @ToLower G1 k = @ToLower G2 k) ->
  sameUpToOrder s1 s2 ->
  sameUpToOrder (@bindTargets G1 s1 pKey ts).1 (@bindTargets G2 s2 pKey ts).1 /\
  (@bindTargets G1 s1 pKey ts).2 = (@bindTargets G2 s2 pKey ts).2.
Proof.
  intros HL. revert s1 s2. induction ts as [|t ts IH]; intros s1 s2 Hsame; simpl.
  - auto.
  - destruct Hsame as [Eu Ec Eb Ep].
    rewrite (normalizeKey_same G1 G2 s1 s2 t HL Ec), Eu, Eb.
    destruct (units s2 !! @normalizeKey G2 s2 t); simpl.
    + apply IH. split; simpl; auto.
    + split; [now split|reflexivity].
Qed.

Lemma scanPrefixes_Permutation (ps1 ps2 : list Prefix) (pKey : string) (sc : float) :
  Permutation ps1 ps2 -> List.NoDup (List.map Prefix_Symbol ps1) ->
  scanPrefixes ps1 pKey sc = scanPrefixes ps2 pKey sc.
Proof.
  intros Hp Hnd. rewrite !scanPrefixes_find.
  rewrite (find_unique_Permutation (hasSymbol pKey) ps1 ps2 Hp); [reflexivity|].
  now apply hasSymbol_unique.
Qed.

Lemma applyOp_same (G1 G2 : GoStd) (s1 s2 : System) (op : Store.Op) :
  (forall k, @ToLower G1 k = @ToLower G2 k) ->
  @SortSliceSpec G1 -> @SortSliceSpec G2 ->
  sameUpToOrder s1 s2 -> List.NoDup (List.map Prefix_Symbol (prefixes s1)) ->
  sameUpToOrder (@Store.applyOp G1 s1 op) (@Store.applyOp G2 s2 op).
Proof.
  intros HL Hsort1 Hsort2 Hsame Hnd. destruct op as [symbol scale dim|p sc ts|symbol sc|config];
    simpl.
  - destruct Hsame as [Eu Ec Eb Ep]. split; simpl; auto.
    now rewrite (normalizeKey_same G1 G2 s1 s2 symbol HL Ec), Eu.
  - unfold AddPrefix. pose proof Hsame as [Eu Ec Eb Ep].
    rewrite (normalizeKey_same G1 G2 s1 s2 p HL Ec).
    rewrite (scanPrefixes_Permutation _ _ _ _ Ep Hnd).
    destruct (scanPrefixes (prefixes s2) (@normalizeKey G2 s2 p) sc); simpl.
    + exact Hsame.
    + now apply bindTargets_same.
    + apply bindTargets_same; [exact HL|]. split; simpl; auto.
      rewrite (proj1 (Hsort1 _)), (proj1 (Hsort2 _)).
      now apply Permutation_app_tail.
  - unfold OverwritePrefix. pose proof Hsame as [Eu Ec Eb Ep].
    rewrite (normalizeKey_same G1 G2 s1 s2 symbol HL Ec).
    rewrite !overwriteFirst_map;
      [|exact (Permutation_NoDup (Permutation_map Prefix_Symbol Ep) Hnd)|exact Hnd].
    rewrite (find_unique_Permutation _ _ _ Ep (hasSymbol_unique _ _ Hnd)).
    destruct (List.find _ (prefixes s2)); simpl; [|exact Hsame].
    split; simpl; auto. now apply Permutation_map.
  - destruct Hsame as [Eu Ec Eb Ep]. now split.
Qed.

Lemma applyOps_same (G1 G2 : GoStd) (ops : list Store.Op) (s1 s2 : System) :
  (forall k, @ToLower G1 k = @ToLower G2 k) ->
  @SortSliceSpec G1 -> @SortSliceSpec G2 ->
  sameUpToOrder s1 s2 -> sound s1 ->
  sameUpToOrder (@Store.applyOps G1 s1 ops) (@Store.applyOps G2 s2 ops).
Proof.
  intros HL Hsort1 Hsort2. unfold Store.applyOps. revert s1 s2.
  induction ops as [|op ops IH]; intros s1 s2 Hsame Hsound; simpl; [exact Hsame|].
  apply IH.
  - apply applyOp_same; auto. now destruct Hsound.
  - now apply applyOp_sound.
Qed.

Lemma Resolve_same (G1 G2 : GoStd) (s1 s2 : System) (symbol : string) :
  (forall k, @ToLower G1 k = @ToLower G2 k) ->
  sameUpToOrder s1 s2 -> sound s1 -> sound s2 ->
  @Resolve G1 s1 symbol = @Resolve G2 s2 symbol.
Proof.
  intros HL [Eu Ec Eb Ep] Hsound1 Hsound2. unfold Resolve.
  rewrite (normalizeKey_same G1 G2 s1 s2 symbol HL Ec), Eu.
  destruct (units s2 !! @normalizeKey G2 s2 symbol); [reflexivity|].
  rewrite (resolvePrefixes_ext s2 s1) by auto.
  apply resolvePrefixes_order; auto; now destruct Hsound1, Hsound2.
Qed.

(** X9. The unstable sort is harmless.  Take two implementations of
    [sort.Slice], each of which sorts: the registries that the same sequence
    of calls builds with one and with the other have the same units,
    configuration and whitelists and the same prefix entries, and [Resolve]
    returns the same on both for every symbol - the order that [sort.Slice]
    gives to prefixes of equal length is never observed. *)
Theorem Resolve_independent_of_sort_order (G1 G2 : GoStd) (config : SystemConfig)
    (ops : list Store.Op) :
  (forall k, @ToLower G1 k = @ToLower G2 k) ->
  @SortSliceSpec G1 -> @SortSliceSpec G2 ->
  units (@Store.applyOps G1 (NewSystem config) ops) =
    units (@Store.applyOps G2 (NewSystem config) ops) /\
  Config (@Store.applyOps G1 (NewSystem config) ops) =
    Config (@Store.applyOps G2 (NewSystem config) ops) /\
  unitPrefixes (@Store.applyOps G1 (NewSystem config) ops) =
    unitPrefixes (@Store.applyOps G2 (NewSystem config) ops) /\
  Permutation (prefixes (@Store.applyOps G1 (NewSystem config) ops))
              (prefixes (@Store.applyOps G2 (NewSystem config) ops)) /\
  forall symbol,
    @Resolve G1 (@Store.applyOps G1 (NewSystem config) ops) symbol =
    @Resolve G2 (@Store.applyOps G2 (NewSystem config) ops) symbol.
Proof.
  intros HL Hsort1 Hsort2.
  assert (Hsame : sameUpToOrder (@Store.applyOps G1 (NewSystem config) ops)
                                (@Store.applyOps G2 (NewSystem config) ops)).
  { apply applyOps_same; auto; [now split|apply NewSystem_sound]. }
  pose proof Hsame as [Eu Ec Eb Ep].
  repeat (split; [assumption|]).
  intros symbol. apply Resolve_same; auto.
  - apply applyOps_sound; [exact Hsort1|apply NewSystem_sound].
  - apply applyOps_sound; [exact Hsort2|apply NewSystem_sound].
Qed.

(** * More of the parser *)

(** ** The scanners *)

Lemma skipSeps_head (s separators : string) (c : ascii) (r : string) :
  skipSeps s separators = String c r ->
  isNumberStart c = true \/ ContainsRune separators c = false.
Proof.
  induction s as [|d s IH]; simpl; [discriminate|].
  destruct (isNumberStart d) eqn:Hn; [intros [= <- _]; auto|].
  destruct (ContainsRune separators d) eqn:Hc; [exact IH|].
  intros [= <- _]. auto.
Qed.

Lemma numberEnd_zero (c : ascii) (r : string) :
  numberEnd (String c r) 0 true true true = 0 <-> isNumberStart c = false.
Proof.
  unfold isNumberStart. cbn [numberEnd].
  destruct (isDigit c), (Ascii.eqb c "."), (Ascii.eqb c "+"), (Ascii.eqb c "-"),
    (Ascii.eqb c "e"), (Ascii.eqb c "E"); simpl;
    try match goal with
        | |- context [numberEnd r 1 ?a ?b ?d] =>
            pose proof (numberEnd_bounds r 1 a b d)
        end;
    split; intros; try lia; try discriminate; reflexivity.
Qed.

(** The digits at the head of the input are taken by [parseNumber]'s
    loop. *)
Definition allDigits (digits : string) : Prop :=
  forall d, In d (list_ascii_of_string digits) -> isDigit d = true.

Lemma numberEnd_digits (digits tail : string) (end_ : nat)
    (allowSign allowDot allowE : bool) :
  allDigits digits -> digits <> "" ->
  numberEnd (digits +:+ tail) end_ allowSign allowDot allowE =
    numberEnd tail (end_ + String.length digits) false allowDot allowE.
Proof.
  revert end_ allowSign. induction digits as [|d digits IH];
    intros end_ allowSign Hall Hne; [congruence|].
  rewrite append_String. simpl.
  rewrite (Hall d (or_introl eq_refl)).
  change (String.length (String d digits)) with (S (String.length digits)).
  destruct digits as [|d' digits'].
  - change ("" +:+ tail) with tail. change (String.length "") with 0.
    f_equal. lia.
  - rewrite IH; [f_equal; lia| |discriminate].
    intros x Hx. apply Hall. now right.
Qed.

Lemma sliceTo_append_more (p u : string) (n : nat) :
  sliceTo (String.length p + n) (p +:+ u) = p +:+ sliceTo n u.
Proof.
  induction p as [|c p IH]; [reflexivity|].
  change (String.length (String c p) + n) with (S (String.length p + n)).
  rewrite !append_String. simpl. now rewrite IH.
Qed.

Lemma sliceFrom_append_more (p u : string) (n : nat) :
  sliceFrom (String.length p + n) (p +:+ u) = sliceFrom n u.
Proof.
  induction p as [|c p IH]; [reflexivity|].
  change (String.length (String c p) + n) with (S (String.length p + n)).
  rewrite append_String. simpl. exact IH.
Qed.

(** The loop of [parseUnit] stops at the first byte that can start a number
    or is a separator, and not before. *)
Lemma unitEnd_spec (s separators : string) :
  (forall c, In c (list_ascii_of_string (sliceTo (unitEnd s separators) s)) ->
     isNumberStart c = false /\ ContainsRune separators c = false) /\
  (sliceFrom (unitEnd s separators) s = "" \/
   exists c r, sliceFrom (unitEnd s separators) s = String c r /\
     (isNumberStart c = true \/ ContainsRune separators c = true)).
Proof.
  induction s as [|c s [IH1 IH2]]; simpl.
  - split; [intros c []|auto].
  - change (isDigit c || Ascii.eqb c "." || Ascii.eqb c "+" || Ascii.eqb c "-")
      with (isNumberStart c).
    destruct (isNumberStart c) eqn:Hn; simpl.
    { split; [intros d []|]. right. eauto. }
    destruct (ContainsRune separators c) eqn:Hc; simpl.
    { split; [intros d []|]. right. eauto. }
    split; [|exact IH2]. intros d [<-|Hd]; auto.
Qed.

Section ParserMore.
Context `{GoStd}.

(** What [Resolve] finds is a registered unit. *)
Lemma Resolve_registered (s : System) (symbol : string) (u : Unit) (sc : float) :
  Resolve s symbol = (u, sc, true) -> exists k, units s !! k = Some u.
Proof.
  unfold Resolve. destruct (units s !! normalizeKey s symbol) as [u0|] eqn:E.
  - intros [= <- _]. eauto.
  - destruct (resolvePrefixes_cases s (normalizeKey s symbol) (prefixes s))
      as [[E0 _]|(q & r & _ & Eq & Er)].
    + rewrite E0. discriminate.
    + rewrite Er. apply tryPrefix_Some in Eq as (base & u' & _ & _ & Hu & _ & ->).
      intros [= <- _]. eauto.
Qed.

Lemma parseNumber_error (s : string) (err : ParseError) :
  parseNumber s = inl err ->
  err = ErrInvalidNumber \/ exists text, err = ErrParseFloat text.
Proof.
  unfold parseNumber. destruct (Nat.eqb _ 0); [intros [= <-]; auto|].
  destruct (ParseFloat _); [discriminate|]. intros [= <-]. eauto.
Qed.

Section Target.
Context {N : Type} `{Number N}.

(** ** One iteration of the loop, read backwards *)

Lemma parseStep_continue_inv (orig : string) (sys : System) (st st' : LoopState N) :
  parseStep orig sys st = inr st' ->
  gateOpen sys st /\
  exists val u scaleRatio after partN,
    scansPart sys (rest st) val u scaleRatio after /\
    isDimSet st && negb (Equals (detectedDim st) (Unit_Dimension u)) = false /\
    convertPart (val * scaleRatio * Unit_Scale u)%float = inr partN /\
    st' = mkLoopState (addN (total st) partN)
            (if isDimSet st then detectedDim st else Unit_Dimension u) true
            (S (partsCount st)) (safeSkipSeps after (Separators (Config sys))).
Proof.
  unfold parseStep, gateOpen, scansPart.
  destruct (_ && _) eqn:Hg; [discriminate|].
  destruct (parseNumber (rest st)) as [err|[val nextStr]] eqn:En; [discriminate|].
  destruct (parseUnit _ _) as [unitStr after] eqn:Eu.
  destruct (String.eqb_spec unitStr "") as [|Hne]; [discriminate|].
  destruct (Resolve sys unitStr) as [[u scaleRatio] found] eqn:Er.
  destruct found; simpl; [|discriminate].
  destruct (isDimSet st && negb (Equals (detectedDim st) (Unit_Dimension u))) eqn:Hd;
    [discriminate|].
  destruct (convertPart _) as [err|partN] eqn:Ec; [discriminate|].
  intros [= <-]. split; [reflexivity|].
  exists val, u, scaleRatio, after, partN.
  split; [exists nextStr, unitStr; auto|auto].
Qed.

Lemma convertPart_error (partVal : float) (err : ParseError) :
  convertPart (N := N) partVal = inl err -> err = ErrPrecisionLoss partVal.
Proof.
  unfold convertPart. destruct (_ <=? _)%float; [discriminate|].
  destruct (_ <? _)%float; [|discriminate]. now intros [= <-].
Qed.

Lemma parseStep_return_inv (orig : string) (sys : System) (st : LoopState N)
    (r : ParseResult N) :
  parseStep orig sys st = inl r ->
  exists err,
    r.1.1 = zeroN /\ r.2 = Some err /\
    match err with
    | ErrPrecisionLoss partVal =>
        exists val u scaleRatio after,
          scansPart sys (rest st) val u scaleRatio after /\
          partVal = (val * scaleRatio * Unit_Scale u)%float /\
          convertPart (N := N) partVal = inl err /\
          r.1.2 = if isDimSet st then detectedDim st else Unit_Dimension u
    | _ => r.1.2 = DimDimensionless
    end.
Proof.
  unfold parseStep, scansPart.
  destruct (_ && _) eqn:Hg;
    [intros [= <-]; exists (ErrMultiPart orig); simpl; auto|].
  destruct (parseNumber (rest st)) as [err|[val nextStr]] eqn:En.
  { intros [= <-]. exists err. simpl.
    apply parseNumber_error in En as [->|[text ->]]; auto. }
  destruct (parseUnit _ _) as [unitStr after] eqn:Eu.
  destruct (String.eqb_spec unitStr "") as [|Hne];
    [intros [= <-]; exists (ErrMissingUnit orig); simpl; auto|].
  destruct (Resolve sys unitStr) as [[u scaleRatio] found] eqn:Er.
  destruct found; simpl;
    [|intros [= <-]; exists (ErrUnknownUnit unitStr); simpl; auto].
  destruct (isDimSet st && negb (Equals (detectedDim st) (Unit_Dimension u))) eqn:Hd;
    [intros [= <-];
     exists (ErrMixedDimensions (detectedDim st) (Unit_Dimension u)); simpl; auto|].
  destruct (convertPart _) as [err|partN] eqn:Ec; [|discriminate].
  intros [= <-]. exists err. simpl. pose proof (convertPart_error _ _ Ec) as ->.
  split; [reflexivity|]. split; [reflexivity|].
  exists val, u, scaleRatio, after.
  split; [exists nextStr, unitStr; auto|auto].
Qed.

(** ** Reasoning on the loop *)

Lemma run_ind (orig : string) (sys : System) (Inv : LoopState N -> Prop)
    (Post : ParseResult N -> Prop) :
  (forall st, Inv st -> rest st = "" -> Post (total st, detectedDim st, None)) ->
  (forall st r, Inv st -> rest st <> "" -> parseStep orig sys st = inl r -> Post r) ->
  (forall st st', Inv st -> rest st <> "" -> parseStep orig sys st = inr st' -> Inv st') ->
  forall st r, Inv st -> run orig sys st = Some r -> Post r.
Proof.
  intros Hexit Hret Hcont st.
  remember (String.length (rest st)) as n eqn:En.
  revert st En. induction n as [n IH] using lt_wf_ind. intros st En r Hinv.
  rewrite run_unfold. destruct (String.eqb_spec (rest st) "") as [E|Hne].
  - intros [= <-]. now apply Hexit.
  - destruct (parseStep orig sys st) as [r0|st'] eqn:Es.
    + intros [= <-]. now apply (Hret st).
    + apply (IH (String.length (rest st'))); [|reflexivity|now apply (Hcont st)].
      subst n. now apply parseStep_consumes in Es.
Qed.

(** X10. [Parse] terminates: an iteration of its loop that does not
    return leaves strictly less input than it found, so the loop returns
    within [len(s)] iterations, on every input and registry; allowing more
    iterations does not change the result. *)
Theorem Parse_terminates :
  (forall orig sys (st st' : LoopState N),
     parseStep orig sys st = inr st' ->
     String.length (rest st') < String.length (rest st)) /\
  (forall (s : string) sys, exists r : ParseResult N, Parse s sys = Some r) /\
  (forall (s : string) sys fuel,
     String.length s <= fuel ->
     parseLoop fuel s sys (initialState s sys) = Parse (N := N) s sys).
Proof.
  split; [exact parseStep_consumes|]. split.
  - intros s sys. apply Parse_returns.
  - intros s sys fuel Hfuel. unfold Parse. apply parseLoop_fuel; simpl; [|].
    + pose proof (safeSkipSeps_length s (Separators (Config sys))). lia.
    + apply safeSkipSeps_length.
Qed.

(** X11. What [Parse] returns with an error: the number is the zero of
    the target type; the dimension is the zero [Dimension], except with the
    precision-loss error, where it is the dimension detected so far, that of
    a registered unit. *)
Theorem Parse_error_values (s : string) (sys : System) (v : N) (d : Dimension)
    (err : ParseError) :
  Parse s sys = Some (v, d, Some err) ->
  v = zeroN /\
  match err with
  | ErrPrecisionLoss _ => exists k u, units sys !! k = Some u /\ d = Unit_Dimension u
  | _ => d = DimDimensionless
  end.
Proof.
  rewrite Parse_run. intros Hrun.
  assert (Hpost : forall e, (v, d, Some err).2 = Some e ->
            (v, d, Some err).1.1 = zeroN /\
            match e with
            | ErrPrecisionLoss _ =>
                exists k u, units sys !! k = Some u /\
                            (v, d, Some err).1.2 = Unit_Dimension u
            | _ => (v, d, Some err).1.2 = DimDimensionless
            end).
  { refine (run_ind s sys
           (fun st => isDimSet st = true ->
                      exists k u, units sys !! k = Some u /\
                                  detectedDim st = Unit_Dimension u)
           (fun r => forall e, r.2 = Some e ->
              r.1.1 = zeroN /\
              match e with
              | ErrPrecisionLoss _ =>
                  exists k u, units sys !! k = Some u /\ r.1.2 = Unit_Dimension u
              | _ => r.1.2 = DimDimensionless
              end) _ _ _ (initialState s sys) _ _ Hrun).
    - intros st _ _ e [=].
    - intros st r Hinv _ Es e He.
      apply parseStep_return_inv in Es as (e' & Hv & He' & Hd).
      rewrite He' in He. injection He as ->. split; [exact Hv|].
      destruct e; auto.
      destruct Hd as (val & u & scaleRatio & after & Hscan & _ & _ & Hdim).
      rewrite Hdim. destruct (isDimSet st); [now apply Hinv|].
      destruct Hscan as (nextStr & unitStr & _ & _ & _ & Er).
      apply Resolve_registered in Er as [k Hk]. eauto.
    - intros st st' Hinv _ Es _.
      apply parseStep_continue_inv in Es
        as (_ & val & u & scaleRatio & after & partN & Hscan & _ & _ & ->). simpl.
      destruct (isDimSet st); [now apply Hinv|].
      destruct Hscan as (nextStr & unitStr & _ & _ & _ & Er).
      apply Resolve_registered in Er as [k Hk]. eauto.
    - discriminate. }
  exact (Hpost err eq_refl).
Qed.

(** The dimension that the loop returns without an error, from a state
    whose detected dimension, when set, is that of a registered unit. *)
Lemma run_success_cases (orig : string) (sys : System) (st : LoopState N)
    (v : N) (d : Dimension) :
  (isDimSet st = true ->
   exists k u, units sys !! k = Some u /\ detectedDim st = Unit_Dimension u) ->
  run orig sys st = Some (v, d, None) ->
  (rest st = "" /\ v = total st /\ d = detectedDim st) \/
  (rest st <> "" /\ exists k u, units sys !! k = Some u /\ d = Unit_Dimension u).
Proof.
  intros Hset. rewrite run_unfold.
  destruct (String.eqb_spec (rest st) "") as [E|Hne]; [intros [= <- <-]; auto|].
  destruct (parseStep orig sys st) as [r|st'] eqn:Es.
  - intros [= ->]. apply parseStep_return_inv in Es as (e & _ & He & _).
    discriminate.
  - intros Hrun. right. split; [exact Hne|].
    apply parseStep_continue_inv in Es
      as (_ & val & u & scaleRatio & after & partN & Hscan & _ & _ & ->).
    refine (run_ind orig sys
              (fun st => exists k u, units sys !! k = Some u /\
                                     detectedDim st = Unit_Dimension u)
              (fun r => r.2 = None ->
                 exists k u, units sys !! k = Some u /\ r.1.2 = Unit_Dimension u)
              _ _ _ _ (v, d, None) _ Hrun eq_refl).
    + intros st0 Hinv _ _. exact Hinv.
    + intros st0 r _ _ Es0 Hnone.
      apply parseStep_return_inv in Es0 as (e & _ & He & _). congruence.
    + intros st0 st1 (k & u0 & Hk & Hd) _ Es0.
      apply parseStep_continue_inv in Es0
        as (_ & val0 & u1 & scaleRatio0 & after0 & partN0 & Hscan0 & _ & _ & ->).
      simpl. destruct (isDimSet st0); [eauto|].
      destruct Hscan0 as (nextStr & unitStr & _ & _ & _ & Er).
      apply Resolve_registered in Er as [k' Hk']. eauto.
    + simpl. destruct (isDimSet st) eqn:Eset; [now apply Hset|].
      destruct Hscan as (nextStr & unitStr & _ & _ & _ & Er).
      apply Resolve_registered in Er as [k Hk]. eauto.
Qed.

(** X12. What [Parse] returns without an error: on a blank input (nothing
    is left by the leading separator skip) the zero of the target type and
    the zero [Dimension]; on any other input the dimension of a registered
    unit. *)
Theorem Parse_success_dimension (s : string) (sys : System) (v : N) (d : Dimension) :
  Parse s sys = Some (v, d, None) ->
  (safeSkipSeps s (Separators (Config sys)) = "" /\ v = zeroN /\
   d = DimDimensionless) \/
  (safeSkipSeps s (Separators (Config sys)) <> "" /\
   exists k u, units sys !! k = Some u /\ d = Unit_Dimension u).
Proof.
  rewrite Parse_run. intros Hrun.
  apply run_success_cases in Hrun; [exact Hrun|].
  simpl. discriminate.
Qed.

(** X13. The first byte that the leading separator skip leaves can start a
    number or is not a separator; when it cannot start a number (a letter,
    say), [Parse] returns the invalid-number error, whatever the registry
    holds. *)
Theorem Parse_invalid_number (s : string) (sys : System) (c : ascii) (r : string) :
  safeSkipSeps s (Separators (Config sys)) = String c r ->
  (isNumberStart c = true \/
   ContainsRune (effectiveSeparators (Separators (Config sys))) c = false) /\
  (isNumberStart c = false ->
   Parse (N := N) s sys = Some (zeroN, DimDimensionless, Some ErrInvalidNumber)).
Proof.
  intros Hskip. split; [exact (skipSeps_head _ _ _ _ Hskip)|].
  intros Hc. rewrite Parse_run, run_unfold. simpl. rewrite Hskip. simpl.
  unfold parseStep. simpl. rewrite Hskip. unfold parseNumber.
  rewrite (proj2 (numberEnd_zero c r) Hc). reflexivity.
Qed.

(** X14. The exponent marker is taken greedily.  After digits, an [e] or
    [E] is scanned as part of the number even when no exponent digit or sign
    follows it: [parseNumber] gives the digits and the marker to
    [strconv.ParseFloat], and when that rejects them [Parse] fails with its
    error - the letter is never read as the start of a unit symbol. *)
Theorem exponent_marker_is_greedy (sys : System) (digits : string) (c : ascii)
    (tail : string) :
  digits <> "" -> allDigits digits ->
  c = "e"%char \/ c = "E"%char ->
  (forall c' t', tail = String c' t' ->
     isDigit c' = false /\ c' <> "+"%char /\ c' <> "-"%char) ->
  parseNumber (digits +:+ String c tail) =
    match ParseFloat (digits +:+ String c "") with
    | Some val => inr (val, tail)
    | None => inl (ErrParseFloat (digits +:+ String c ""))
    end /\
  (ParseFloat (digits +:+ String c "") = None ->
   Parse (N := N) (digits +:+ String c tail) sys =
     Some (zeroN, DimDimensionless, Some (ErrParseFloat (digits +:+ String c "")))).
Proof.
  intros Hne Hdigits Hc Htail.
  assert (Hend : numberEnd (digits +:+ String c tail) 0 true true true =
                 String.length digits + 1).
  { rewrite (numberEnd_digits digits (String c tail) 0 true true true Hdigits Hne).
    assert (Hpos : Nat.ltb 0 (0 + String.length digits) = true).
    { apply Nat.ltb_lt. destruct digits; [congruence|].
      change (String.length (String a digits)) with (S (String.length digits)). lia. }
    assert (Hnd : isDigit c = false) by (destruct Hc as [-> | ->]; reflexivity).
    assert (Hdot : Ascii.eqb c "." = false) by (destruct Hc as [-> | ->]; reflexivity).
    assert (He : Ascii.eqb c "e" || Ascii.eqb c "E" = true)
      by (destruct Hc as [-> | ->]; reflexivity).
    cbn [numberEnd]. rewrite Hnd, Hdot, He, Hpos. simpl.
    destruct tail as [|c' t']; simpl; [lia|].
    destruct (Htail c' t' eq_refl) as (Hd' & Hp & Hm). rewrite Hd'.
    apply Ascii.eqb_neq in Hp, Hm. rewrite Hp, Hm, !andb_false_r. simpl. lia. }
  assert (Hnum : parseNumber (digits +:+ String c tail) =
    match ParseFloat (digits +:+ String c "") with
    | Some val => inr (val, tail)
    | None => inl (ErrParseFloat (digits +:+ String c ""))
    end).
  { unfold parseNumber. rewrite Hend.
    rewrite sliceTo_append_more, sliceFrom_append_more. simpl.
    destruct (Nat.eqb_spec (String.length digits + 1) 0); [lia|reflexivity]. }
  split; [exact Hnum|]. intros Hreject.
  assert (Hskip : safeSkipSeps (digits +:+ String c tail) (Separators (Config sys)) =
                  digits +:+ String c tail).
  { destruct digits as [|d digits]; [congruence|].
    rewrite append_String. unfold safeSkipSeps. simpl.
    unfold isNumberStart. now rewrite (Hdigits d (or_introl eq_refl)). }
  rewrite Parse_run, run_unfold. simpl. rewrite Hskip.
  assert (Hnonempty : String.eqb (digits +:+ String c tail) "" = false).
  { destruct digits; [congruence|]. now rewrite append_String. }
  rewrite Hnonempty. unfold parseStep. simpl. rewrite Hskip, Hnum, Hreject.
  reflexivity.
Qed.

End Target.

(** X15. The unit symbol that [parseUnit] scans is the longest run of bytes
    at the head of the input that can neither start a number (digits, ['.'],
    ['+'], ['-']) nor are separators: it and the rest make up the input, it
    holds no such byte, and the rest is empty or begins with one.  So a
    symbol that holds such a byte is never what [Parse] looks up. *)
Theorem parseUnit_spec (s separators : string) :
  (parseUnit s separators).1 +:+ (parseUnit s separators).2 = s /\
  (forall c, In c (list_ascii_of_string (parseUnit s separators).1) ->
     isNumberStart c = false /\
     ContainsRune (effectiveSeparators separators) c = false) /\
  ((parseUnit s separators).2 = "" \/
   exists c r, (parseUnit s separators).2 = String c r /\
     (isNumberStart c = true \/
      ContainsRune (effectiveSeparators separators) c = true)) /\
  (forall symbol c,
     In c (list_ascii_of_string symbol) ->
     isNumberStart c = true \/
     ContainsRune (effectiveSeparators separators) c = true ->
     (parseUnit s separators).1 <> symbol).
Proof.
  unfold parseUnit. simpl.
  destruct (unitEnd_spec s (effectiveSeparators separators)) as [Hunit Hrest].
  split; [apply slice_split|]. split; [exact Hunit|]. split; [exact Hrest|].
  intros symbol c Hc Hstop <-. destruct (Hunit c Hc) as [Hn Hs].
  destruct Hstop; congruence.
Qed.

End ParserMore.

(** ** Accumulation over the parts *)

Section Accumulation.
Context `{GoStd}.

(** The input is a sequence of parts, each a number and a unit symbol that
    resolves, with separators between and after them. *)
Inductive scansParts (sys : System) : string -> list (float * Unit * float) -> Prop :=
| scansParts_nil : scansParts sys "" []
| scansParts_cons s val u scaleRatio after parts :
    scansPart sys s val u scaleRatio after ->
    scansParts sys (safeSkipSeps after (Separators (Config sys))) parts ->
    scansParts sys s ((val, u, scaleRatio) :: parts).

(** [val * scaleRatio * u.Scale] *)
Definition partValue (p : float * Unit * float) : float :=
  (p.1.1 * p.2 * Unit_Scale p.1.2)%float.

Context {N : Type} `{Number N}.

Lemma run_parts (orig : string) (sys : System) (s : string)
    (parts : list (float * Unit * float)) (dim : Dimension) :
  scansParts sys s parts ->
  forall (ns : list N) (st : LoopState N),
    rest st = s ->
    AllowMultiPart (Config sys) = true \/ parts = [] \/
      (partsCount st = 0 /\ length parts <= 1) ->
    (isDimSet st = true -> detectedDim st = dim) ->
    Forall (fun p => Unit_Dimension p.1.2 = dim) parts ->
    Forall2 (fun p n => convertPart (partValue p) = inr n) parts ns ->
    run orig sys st =
      Some (fold_left addN ns (total st),
            match parts with [] => detectedDim st | _ => dim end, None).
Proof.
  induction 1 as [|s val u scaleRatio after parts Hscan Hparts IH];
    intros ns st Hrest Hgate Hdim Hdims Hconv.
  - apply Forall2_nil_inv_l in Hconv as ->. rewrite run_unfold, Hrest. reflexivity.
  - apply Forall2_cons_inv_l in Hconv as (n & ns' & Hn & Hconv & ->).
    apply List.Forall_cons_iff in Hdims as [Hu Hdims]. simpl in Hu.
    unfold partValue in Hn. simpl in Hn.
    assert (Hne : String.eqb (rest st) "" = false).
    { apply String.eqb_neq. rewrite Hrest. intros ->.
      destruct Hscan as (nextStr & unitStr & En & _). discriminate. }
    rewrite run_unfold, Hne. rewrite <- Hrest in Hscan.
    rewrite (parseStep_scanned orig sys st val u scaleRatio after); [| |exact Hscan].
    + assert (Hcheck : isDimSet st && negb (Equals (detectedDim st) (Unit_Dimension u))
                       = false).
      { destruct (isDimSet st); [|reflexivity]. simpl.
        rewrite (Hdim eq_refl), Hu. now rewrite (proj2 (Equals_eq dim dim) eq_refl). }
      rewrite Hcheck. cbv beta iota zeta. rewrite Hn.
      match goal with
      | |- run _ _ ?st' = _ => rewrite (IH ns' st' eq_refl)
      end; simpl.
      * f_equal. f_equal. f_equal.
        destruct parts; [|reflexivity].
        destruct (isDimSet st); [now apply Hdim|exact Hu].
      * destruct Hgate as [Ha|[[=]|[_ Hlen]]]; [auto|].
        right. left. destruct parts; [reflexivity|simpl in Hlen; lia].
      * intros _. destruct (isDimSet st); [now apply Hdim|exact Hu].
      * exact Hdims.
      * exact Hconv.
    + unfold gateOpen. destruct Hgate as [->|[[=]|[-> _]]]; [|reflexivity].
      now rewrite andb_false_r.
Qed.

(** X16. [Parse] sums the parts.  When the input is a sequence of parts
    that scan and resolve, all with the same dimension and each with a value
    that converts to the target type, and the registry allows multi-part
    accumulation or there is at most one part, [Parse] returns the sum of
    the converted values, added from left to right to the zero of the type,
    with that dimension and no error. *)
Theorem Parse_sums_the_parts (s : string) (sys : System)
    (parts : list (float * Unit * float)) (ns : list N) (dim : Dimension) :
  scansParts sys (safeSkipSeps s (Separators (Config sys))) parts ->
  AllowMultiPart (Config sys) = true \/ length parts <= 1 ->
  Forall (fun p => Unit_Dimension p.1.2 = dim) parts ->
  Forall2 (fun p n => convertPart (partValue p) = inr n) parts ns ->
  Parse s sys =
    Some (fold_left addN ns zeroN,
          match parts with [] => DimDimensionless | _ => dim end, None).
Proof.
  intros Hparts Hgate Hdims Hconv. rewrite Parse_run.
  rewrite (run_parts s sys _ parts dim Hparts ns (initialState s sys));
    simpl; auto.
  - destruct Hgate; auto.
  - discriminate.
Qed.

End Accumulation.

(** ** The float64 target *)

Lemma sub_self_within_epsilon (x : float) :
  (epsilon <? PrimFloat.abs (x - x))%float = false.
Proof.
  rewrite ltb_spec, abs_spec, sub_spec. unfold SF64sub, SFsub.
  destruct (Prim2SF x) as [[]|[]| |[] m e]; try reflexivity.
  - rewrite Z.sub_diag. reflexivity.
  - rewrite Z.sub_diag. reflexivity.
Qed.

Lemma convertPart_float64 (partVal : float) :
  exists n, @convertPart float float64Number partVal = inr n.
Proof.
  unfold convertPart. destruct (_ <=? _)%float; [eauto|].
  unfold ofFloat64, toFloat64, float64Number.
  rewrite sub_self_within_epsilon. eauto.
Qed.

(** X17. A [float64] target never meets the precision-loss error: the
    conversion of a part's value is the identity, so the guard never fires,
    and whatever [Parse] returns for a [float64], its error is none or one
    of the other six.  (A [float32] target does meet it: 0.1 is not a
    float32 to within 1e-12.) *)
Theorem float64_never_loses_precision `{GoStd} :
  (forall partVal, exists n, @convertPart float float64Number partVal = inr n) /\
  (forall s sys, exists r,
     @Parse _ float float64Number s sys = Some r /\
     match r.2 with Some (ErrPrecisionLoss _) => False | _ => True end) /\
  @convertPart float float32Number 0.1%float = inl (ErrPrecisionLoss 0.1%float).
Proof.
  split; [exact convertPart_float64|]. split; [|vm_compute; reflexivity].
  intros s sys.
  destruct (@Parse_returns _ float float64Number s sys) as [r Er].
  exists r. split; [exact Er|]. rewrite Parse_run in Er.
  refine (run_ind s sys (fun _ => True)
            (fun r => match r.2 with Some (ErrPrecisionLoss _) => False | _ => True end)
            _ _ _ (initialState s sys) r I Er).
  - intros st _ _. exact I.
  - intros st r0 _ _ Es.
    apply parseStep_return_inv in Es as (e & _ & -> & Hd). destruct e; auto.
    destruct Hd as (val & u & scaleRatio & after & _ & _ & Hc & _).
    destruct (convertPart_float64 partVal) as [n Hn]. congruence.
  - auto.
Qed.

(** * [Dimension.String] *)

Lemma formatInt_inj (a b : Z) : formatInt a = formatInt b -> a = b.
Proof.
  unfold formatInt. intros E. apply DecimalZ.to_int_inj.
  assert (Hnn : forall z, Z.to_int z <> Decimal.Pos Decimal.Nil /\
                          Z.to_int z <> Decimal.Neg Decimal.Nil).
  { intros [|p|p]; simpl; split; try discriminate; intros [= E'];
      now apply (DecimalPos.Unsigned.to_uint_nonnil p). }
  assert (Hsome : Some (Z.to_int a) = Some (Z.to_int b)).
  { rewrite <- (NilZero.isi (Z.to_int a)), <- (NilZero.isi (Z.to_int b));
      try apply Hnn. now rewrite E. }
  now injection Hsome.
Qed.

(** A string without the space character. *)
Definition noSpace (s : string) : Prop :=
  forall c, In c (list_ascii_of_string s) -> c <> " "%char.

Lemma string_of_uint_noSpace (d : Decimal.uint) :
  noSpace (NilEmpty.string_of_uint d).
Proof.
  induction d; simpl; intros c Hc; try destruct Hc as [<-|Hc];
    try discriminate; try (now apply IHd); destruct Hc.
Qed.

Lemma NilZero_string_of_uint_noSpace (d : Decimal.uint) :
  noSpace (NilZero.string_of_uint d).
Proof.
  unfold NilZero.string_of_uint.
  destruct d; try apply string_of_uint_noSpace.
  intros c [<-|[]]. discriminate.
Qed.

Lemma formatInt_noSpace (n : Z) : noSpace (formatInt n).
Proof.
  unfold formatInt, NilZero.string_of_int.
  destruct (Z.to_int n) as [d|d]; [apply NilZero_string_of_uint_noSpace|].
  intros c [<-|Hc]; [discriminate|].
  exact (NilZero_string_of_uint_noSpace d c Hc).
Qed.

Lemma split_at_space (a a' r r' : string) :
  noSpace a -> noSpace a' ->
  a +:+ String " " r = a' +:+ String " " r' -> a = a' /\ r = r'.
Proof.
  revert a'. induction a as [|c a IH]; intros [|c' a'] Ha Ha'; rewrite ?append_String.
  - change ("" +:+ String " " r) with (String " " r).
    change ("" +:+ String " " r') with (String " " r'). now intros [= ->].
  - change ("" +:+ String " " r) with (String " " r). intros [= <- _].
    now destruct (Ha' " "%char (or_introl eq_refl)).
  - change ("" +:+ String " " r') with (String " " r'). intros [= -> _].
    now destruct (Ha " "%char (or_introl eq_refl)).
  - intros [= <- E]. destruct (IH a') as [-> ->]; auto.
    + intros x Hx. apply Ha. now right.
    + intros x Hx. apply Ha'. now right.
Qed.

Lemma append_inj_l (a b c : string) : a +:+ c = b +:+ c -> a = b.
Proof.
  intros E. apply (append_same_length a b c c E).
  apply (f_equal String.length) in E. rewrite !length_append in E. lia.
Qed.

(** X18. What [String] tells of a dimension: with a discriminator it
    prints the discriminator alone, so two dimensions with the same
    non-empty [Extra] print the same whatever their exponents (and [Equals]
    may tell them apart); without one it prints the seven exponents, and two
    such dimensions print the same only when they are equal.  A dimension
    with a discriminator never prints like one without. *)
Theorem Dimension_String_spec (d1 d2 : Dimension) :
  Dimension_String d1 = Dimension_String d2 <->
  (Dimension_Extra d1 <> "" /\ Dimension_Extra d2 = Dimension_Extra d1) \/
  (Dimension_Extra d1 = "" /\ d1 = d2).
Proof.
  unfold Dimension_String.
  destruct (String.eqb_spec (Dimension_Extra d1) "") as [E1|N1];
    destruct (String.eqb_spec (Dimension_Extra d2) "") as [E2|N2]; simpl.
  - split.
    + rewrite !append_String.
      change ("" +:+ ?x) with x.
      intros [= E].
      repeat match type of E with
             | _ +:+ String " " _ = _ +:+ String " " _ =>
                 apply split_at_space in E as [? E];
                 [|apply formatInt_noSpace|apply formatInt_noSpace];
                 rewrite ?append_String in E; change ("" +:+ ?x) with x in E;
                 injection E as E
             end.
      right. split; [exact E1|].
      repeat match goal with
             | H : formatInt _ = formatInt _ |- _ => apply formatInt_inj in H
             end.
      destruct d1, d2; simpl in *. congruence.
    + intros [[Hn _]|[_ ->]]; [congruence|reflexivity].
  - split.
    + rewrite !append_String. discriminate.
    + intros [[Hn _]|[_ ->]]; congruence.
  - split.
    + rewrite !append_String. discriminate.
    + intros [[_ He]|[He _]]; congruence.
  - split.
    + intros E. left. split; [exact N1|].
      rewrite !append_String in E. change ("" +:+ ?x) with x in E.
      injection E as E. symmetry. exact (append_inj_l _ _ _ E).
    + intros [[_ ->]|[He _]]; [reflexivity|congruence].
Qed.

(** * The packages built on the registry and the parser *)

Section PackageFacts.
Context `{GoStd}.

Lemma AddPrefix_units (s : System) (p : string) (sc : float) (ts : list string) :
  units (AddPrefix s p sc ts).1 = units s.
Proof.
  unfold AddPrefix. destruct (scanPrefixes _ _ _); [reflexivity| |].
  - apply bindTargets_frame.
  - now rewrite (proj1 (bindTargets_frame _ _ _)).
Qed.

Lemma AddPrefix_Config (s : System) (p : string) (sc : float) (ts : list string) :
  Config (AddPrefix s p sc ts).1 = Config s.
Proof.
  unfold AddPrefix. destruct (scanPrefixes _ _ _); [reflexivity| |].
  - apply bindTargets_frame.
  - now rewrite (proj1 (proj2 (proj2 (bindTargets_frame _ _ _)))).
Qed.

Lemma applyOps_prefixes_only (s : System) (ops : list Store.Op) :
  Forall (fun op => match op with Store.OpAddPrefix _ _ _ => True | _ => False end) ops ->
  units (Store.applyOps s ops) = units s /\
  Config (Store.applyOps s ops) = Config s.
Proof.
  unfold Store.applyOps. revert s.
  induction ops as [|op ops IH]; intros s Hall; simpl; [auto|].
  apply List.Forall_cons_iff in Hall as [Hop Hall].
  destruct op; try destruct Hop. simpl.
  destruct (IH (AddPrefix s prefixSymbol scale targetUnits).1 Hall) as [-> ->].
  now rewrite AddPrefix_units, AddPrefix_Config.
Qed.

(** In a registry whose units all have the dimension [dim], the dimension
    that [Parse] returns without an error is not [dim] exactly on a blank
    input. *)
Lemma Parse_uniform_dimension {N} `{Number N} (sys : System) (dim : Dimension)
    (s : string) (v : N) (d : Dimension) :
  (forall k u, units sys !! k = Some u -> Unit_Dimension u = dim) ->
  dim <> DimDimensionless ->
  Parse s sys = Some (v, d, None) ->
  negb (Equals d dim) =
    String.eqb (safeSkipSeps s (Separators (Config sys))) "".
Proof.
  intros Hunits Hdim Hparse. rewrite Parse_run in Hparse.
  apply run_success_cases in Hparse as [(Hb & _ & ->)|(Hb & k & u & Hk & ->)];
    [| |simpl; discriminate]; simpl in Hb.
  - rewrite Hb. simpl. destruct (Equals DimDimensionless dim) eqn:E; [|reflexivity].
    apply Equals_eq in E. congruence.
  - apply String.eqb_neq in Hb. rewrite Hb, (Hunits k u Hk).
    now rewrite (proj2 (Equals_eq dim dim) eq_refl).
Qed.


(** The loops of the [init] functions, as sequences of calls. *)
Lemma fold_AddPrefix_calls (ts : list string) (l : list (string * float)) (s : System) :
  fold_left (fun s p => (AddPrefix s p.1 p.2 ts).1) l s =
  Store.applyOps s (List.map (fun p => Store.OpAddPrefix p.1 p.2 ts) l).
Proof.
  unfold Store.applyOps. revert s.
  induction l as [|p l IH]; intros s; simpl; [reflexivity|apply IH].
Qed.

Lemma fold_symbols_calls (ts : list string) (val : float) (syms : list string)
    (s : System) :
  fold_left (fun s sym => (AddPrefix s sym val ts).1) syms s =
  Store.applyOps s (List.map (fun sym => Store.OpAddPrefix sym val ts) syms).
Proof.
  unfold Store.applyOps. revert s.
  induction syms as [|sym syms IH]; intros s; simpl; [reflexivity|apply IH].
Qed.

Lemma fold_nested_calls (ts : list string) (l : list (float * list string))
    (s : System) :
  fold_left
    (fun s p => fold_left (fun s sym => (AddPrefix s sym p.1 ts).1) p.2 s) l s =
  Store.applyOps s
    (flat_map (fun p => List.map (fun sym => Store.OpAddPrefix sym p.1 ts) p.2) l).
Proof.
  revert s. induction l as [|p l IH]; intros s; simpl; [reflexivity|].
  rewrite IH, fold_symbols_calls. unfold Store.applyOps.
  now rewrite fold_left_app.
Qed.

Lemma applyOps_app (s : System) (l1 l2 : list Store.Op) :
  Store.applyOps s (l1 ++ l2) = Store.applyOps (Store.applyOps s l1) l2.
Proof. unfold Store.applyOps. apply fold_left_app. Qed.

Lemma applyOps_AddPrefix_only {A} (f : A -> Store.Op) (l : list A) (s : System) :
  (forall a, exists p sc ts, f a = Store.OpAddPrefix p sc ts) ->
  units (Store.applyOps s (List.map f l)) = units s /\
  Config (Store.applyOps s (List.map f l)) = Config s.
Proof.
  intros Hf. apply applyOps_prefixes_only. apply List.Forall_forall.
  intros op Hop. apply in_map_iff in Hop as (a & <- & _).
  destruct (Hf a) as (p & sc & ts & ->). exact I.
Qed.

Lemma applyOps_cons (s : System) (op : Store.Op) (ops : list Store.Op) :
  Store.applyOps s (op :: ops) = Store.applyOps (Store.applyOp s op) ops.
Proof. reflexivity. Qed.

(** ** Computing with an insertion sort *)

End PackageFacts.

(** The library with an insertion sort for [sort.Slice]. *)
Definition withInsertionSort (G : GoStd) : GoStd :=
  {| ToLower := @ToLower G;
     SortSlice := insertionSort;
     ParseFloat := @ParseFloat G |}.

Lemma withInsertionSort_sorts (G : GoStd) : @SortSliceSpec (withInsertionSort G).
Proof. exact goModel_SortSliceSpec. Qed.

Lemma Resolve_by_insertion_sort (G : GoStd) (config : SystemConfig)
    (ops : list Store.Op) (symbol : string) :
  @SortSliceSpec G ->
  @Resolve G (@Store.applyOps G (NewSystem config) ops) symbol =
  @Resolve (withInsertionSort G)
     (@Store.applyOps (withInsertionSort G) (NewSystem config) ops) symbol.
Proof.
  intros Hsort. pose proof (withInsertionSort_sorts G) as Hsort'.
  apply Resolve_same.
  - reflexivity.
  - apply applyOps_same; auto; [now split|apply NewSystem_sound].
  - apply applyOps_sound; [exact Hsort|apply NewSystem_sound].
  - apply applyOps_sound; [exact Hsort'|apply NewSystem_sound].
Qed.

(** A blank input parses to zero, with the zero [Dimension]. *)
Lemma Parse_blank `{GoStd} {N} `{Number N} (s : string) (sys : System) :
  safeSkipSeps s (Separators (Config sys)) = "" ->
  Parse s sys = Some (zeroN, DimDimensionless, None).
Proof. intros Hs. rewrite Parse_run, run_unfold. simpl. now rewrite Hs. Qed.

(** Cases on the membership in a list of pairs given in full. *)
Ltac in_cases H :=
  cbv [In] in H;
  repeat (destruct H as [H|H]; [injection H as <- <-|]);
  try (exfalso; exact H).

(** ** Package std/storage *)

(** The units that [init] registers, in the order of the [Add] calls. *)
Definition storageUnitTable : list (string * float) :=
  [ ("b", 1%float); ("bit", 1%float); ("bits", 1%float);
    ("B", 8%float); ("Byte", 8%float); ("Bytes", 8%float) ].

(** The prefixes that [init] registers, in the order of the [AddPrefix]
    calls. *)
Definition storagePrefixTable : list (string * float) :=
  [ ("Ki", 0x1p10%float); ("ki", 0x1p10%float); ("KI", 0x1p10%float);
    ("Mi", 0x1p20%float); ("mi", 0x1p20%float); ("MI", 0x1p20%float);
    ("Gi", 0x1p30%float); ("gi", 0x1p30%float); ("GI", 0x1p30%float);
    ("Ti", 0x1p40%float); ("ti", 0x1p40%float); ("TI", 0x1p40%float);
    ("Pi", 0x1p50%float); ("pi", 0x1p50%float); ("PI", 0x1p50%float);
    ("Ei", 0x1p60%float); ("ei", 0x1p60%float); ("EI", 0x1p60%float);
    ("k", 0x1p10%float); ("K", 0x1p10%float);
    ("m", 0x1p20%float); ("M", 0x1p20%float);
    ("g", 0x1p30%float); ("G", 0x1p30%float);
    ("t", 0x1p40%float); ("T", 0x1p40%float);
    ("p", 0x1p50%float); ("P", 0x1p50%float);
    ("e", 0x1p60%float); ("E", 0x1p60%float) ].

(** The calls of [init], as a sequence of operations. *)
Definition storageCalls : list Store.Op :=
  List.map (fun u => Store.OpAdd u.1 u.2 DimStorage) storageUnitTable ++
  List.map (fun p => Store.OpAddPrefix p.1 p.2
                       ["B"; "Byte"; "Bytes"; "b"; "bit"; "bits"])
           storagePrefixTable.

Section StorageFacts.
Context `{GoStd}.

Lemma storage_System_calls :
  StdStorage.System =
    Store.applyOps (NewSystem (mkSystemConfig false false "")) storageCalls.
Proof.
  unfold StdStorage.System. cbv zeta.
  rewrite fold_AddPrefix_calls, fold_nested_calls.
  unfold storageCalls, Store.applyOps.
  rewrite <- fold_left_app. rewrite (fold_left_app _ (List.map _ storageUnitTable)).
  refine (f_equal2 (fold_left Store.applyOp) _ _); reflexivity.
Qed.

Lemma storage_System_units :
  units StdStorage.System =
    units (Store.applyOps (NewSystem (mkSystemConfig false false ""))
             (List.map (fun u => Store.OpAdd u.1 u.2 DimStorage) storageUnitTable)) /\
  Config StdStorage.System = mkSystemConfig false false "".
Proof.
  rewrite storage_System_calls. unfold storageCalls. rewrite applyOps_app.
  match goal with
  | |- context [Store.applyOps ?s (List.map ?f storagePrefixTable)] =>
      destruct (applyOps_AddPrefix_only f storagePrefixTable s) as [Eu Ec];
      [intros a; eauto|rewrite Eu, Ec]
  end.
  split; reflexivity.
Qed.

Lemma DimStorage_not_zero : DimStorage <> DimDimensionless.
Proof. unfold DimStorage, DimDimensionless. discriminate. Qed.

Lemma storage_units_dimension (k : string) (u : Unit) :
  units StdStorage.System !! k = Some u -> Unit_Dimension u = DimStorage.
Proof.
  rewrite (proj1 storage_System_units).
  change (units _) with
    (<["Bytes" := mkUnit "Bytes" DimStorage 8]>
       (<["Byte" := mkUnit "Byte" DimStorage 8]>
          (<["B" := mkUnit "B" DimStorage 8]>
             (<["bits" := mkUnit "bits" DimStorage 1]>
                (<["bit" := mkUnit "bit" DimStorage 1]>
                   (<["b" := mkUnit "b" DimStorage 1]> (∅ : gmap string Unit))))))).
  intros Hk.
  repeat (apply lookup_insert_Some in Hk as [[_ <-]|[_ Hk]]; [reflexivity|]).
  now rewrite lookup_empty in Hk.
Qed.

(** X19. [ParseBytes] and [ParseBits] on top of [Parse].  Every unit of
    the storage registry has the storage dimension, so the dimension check
    of the two functions fails exactly on a blank input (empty, or
    separators only), which they reject with the not-a-storage-unit error.
    On any other input they return the error of [Parse] when it has one, and
    otherwise its value: the bits for [ParseBits], the bits divided by 8 for
    [ParseBytes]. *)
Theorem storage_Parse_wrappers (outOfRange : float -> Z) (s : string) :
  (safeSkipSeps s "" = "" ->
   StdStorage.ParseBytes s = Some (0%float, Some StdStorage.ErrNotStorage) /\
   StdStorage.ParseBits outOfRange s = Some (0%Z, Some StdStorage.ErrNotStorage)) /\
  (safeSkipSeps s "" <> "" ->
   StdStorage.ParseBytes s =
     match @Parse _ float float64Number s StdStorage.System with
     | Some (valBits, _, None) => Some ((valBits / 8)%float, None)
     | Some (_, _, Some err) => Some (0%float, Some (StdStorage.ErrParse err))
     | None => None
     end /\
   StdStorage.ParseBits outOfRange s =
     match @Parse _ Z (intNumber int64Kind outOfRange) s StdStorage.System with
     | Some (valBits, _, None) => Some (valBits, None)
     | Some (_, _, Some err) => Some (0%Z, Some (StdStorage.ErrParse err))
     | None => None
     end).
Proof.
  pose proof (proj2 storage_System_units) as Hconfig.
  assert (Hseps : Separators (Config StdStorage.System) = "") by now rewrite Hconfig.
  unfold StdStorage.ParseBytes, StdStorage.ParseBits. split.
  - intros Hblank. rewrite !Parse_blank by now rewrite Hseps. split; reflexivity.
  - intros Hblank. apply String.eqb_neq in Hblank. split.
    + destruct (@Parse _ float float64Number s StdStorage.System)
        as [[[v d] [err|]]|] eqn:E; simpl; try reflexivity.
      rewrite (Parse_uniform_dimension _ DimStorage s v d storage_units_dimension
                 DimStorage_not_zero E), Hseps, Hblank. reflexivity.
    + destruct (@Parse _ Z (intNumber int64Kind outOfRange) s StdStorage.System)
        as [[[v d] [err|]]|] eqn:E; simpl; try reflexivity.
      rewrite (Parse_uniform_dimension _ DimStorage s v d storage_units_dimension
                 DimStorage_not_zero E), Hseps, Hblank. reflexivity.
Qed.

(** X20. What [init] registers in the storage registry: each of the six
    unit symbols resolves to its unit by exact match, and each of the thirty
    prefix spellings followed by each of the six unit symbols resolves to
    that unit with the binary scale of the prefix: every binding that the
    [AddPrefix] calls, whose errors are dropped, were to make is in place,
    and no combination is taken by another reading. *)
Theorem storage_prefix_table :
  SortSliceSpec ->
  (forall u usc, In (u, usc) storageUnitTable ->
     Resolve StdStorage.System u = (mkUnit u DimStorage usc, 1%float, true)) /\
  (forall p sc u usc,
     In (p, sc) storagePrefixTable -> In (u, usc) storageUnitTable ->
     Resolve StdStorage.System (p +:+ u) = (mkUnit u DimStorage usc, sc, true)).
Proof.
  intros Hsort. split.
  - intros u usc Hu. rewrite storage_System_calls.
    rewrite (Resolve_by_insertion_sort _ _ _ _ Hsort).
    unfold storageUnitTable in Hu.
    in_cases Hu; vm_compute; reflexivity.
  - intros p sc u usc Hp Hu. rewrite storage_System_calls.
    rewrite (Resolve_by_insertion_sort _ _ _ _ Hsort).
    unfold storageUnitTable in Hu. unfold storagePrefixTable in Hp.
    in_cases Hu; in_cases Hp; vm_compute; reflexivity.
Qed.

End StorageFacts.

(** ** Package std/length *)

Definition lengthPrefixTable : list (string * float) :=
  [ ("n", 1e-9%float);
    ("u", 1e-6%float);
    (String "195" (String "130" (String "194" (String "181" ""))), 1e-6%float);
    ("m", 1e-3%float);
    ("c", 1e-2%float);
    ("k", 1e3%float) ].

(** The calls of [init], as a sequence of operations. *)
Definition lengthCalls : list Store.Op :=
  Store.OpAdd "m" 1 DimLength ::
  List.map (fun p => Store.OpAddPrefix p.1 p.2 ["m"]) lengthPrefixTable.

Section LengthFacts.
Context `{GoStd}.

Lemma length_System_calls :
  StdLength.System =
    Store.applyOps (NewSystem (mkSystemConfig true false "")) lengthCalls.
Proof.
  unfold StdLength.System. cbv zeta. rewrite fold_AddPrefix_calls.
  unfold lengthCalls. rewrite applyOps_cons.
  refine (f_equal2 Store.applyOps _ _); reflexivity.
Qed.

Lemma length_System_units :
  units StdLength.System =
    <["m" := mkUnit "m" DimLength 1]> (∅ : gmap string Unit) /\
  Config StdLength.System = mkSystemConfig true false "".
Proof.
  rewrite length_System_calls. unfold lengthCalls. rewrite applyOps_cons.
  match goal with
  | |- context [Store.applyOps ?s (List.map ?f lengthPrefixTable)] =>
      destruct (applyOps_AddPrefix_only f lengthPrefixTable s) as [Eu Ec];
      [intros a; eauto|rewrite Eu, Ec]
  end.
  split; reflexivity.
Qed.

Lemma DimLength_not_zero : DimLength <> DimDimensionless.
Proof. unfold DimLength, DimDimensionless. discriminate. Qed.

Lemma length_units_dimension (k : string) (u : Unit) :
  units StdLength.System !! k = Some u -> Unit_Dimension u = DimLength.
Proof.
  rewrite (proj1 length_System_units). intros Hk.
  apply lookup_insert_Some in Hk as [[_ <-]|[_ Hk]]; [reflexivity|].
  now rewrite lookup_empty in Hk.
Qed.

(** X21. The length package.  [ParseLength] rejects a blank input (empty,
    or separators only) with the not-a-length error - the only way its
    dimension check fails, every unit being a length - and on any other
    input returns what [Parse] returns, value or error.  In its registry
    ["m"] is the meter, by exact match, although ["m"] is also a prefix, and
    each of the six prefixes followed by ["m"] is the meter with the scale of
    the prefix. *)
Theorem length_package :
  SortSliceSpec ->
  (forall s,
     (safeSkipSeps s "" = "" ->
      StdLength.ParseLength s = Some (0%float, Some StdLength.ErrNotLength)) /\
     (safeSkipSeps s "" <> "" ->
      StdLength.ParseLength s =
        match @Parse _ float float64Number s StdLength.System with
        | Some (val, _, None) => Some (val, None)
        | Some (_, _, Some err) => Some (0%float, Some (StdLength.ErrParse err))
        | None => None
        end)) /\
  Resolve StdLength.System "m" = (mkUnit "m" DimLength 1, 1%float, true) /\
  (forall p sc, In (p, sc) lengthPrefixTable ->
     Resolve StdLength.System (p +:+ "m") = (mkUnit "m" DimLength 1, sc, true)).
Proof.
  intros Hsort. split; [|split].
  - intros s. pose proof (proj2 length_System_units) as Hconfig.
    assert (Hseps : Separators (Config StdLength.System) = "") by now rewrite Hconfig.
    unfold StdLength.ParseLength. split.
    + intros Hblank. now rewrite Parse_blank by now rewrite Hseps.
    + intros Hblank. apply String.eqb_neq in Hblank.
      destruct (@Parse _ float float64Number s StdLength.System)
        as [[[v d] [err|]]|] eqn:E; simpl; try reflexivity.
      rewrite (Parse_uniform_dimension _ DimLength s v d length_units_dimension
                 DimLength_not_zero E), Hseps, Hblank. reflexivity.
  - rewrite length_System_calls, (Resolve_by_insertion_sort _ _ _ _ Hsort).
    vm_compute. reflexivity.
  - intros p sc Hp.
    rewrite length_System_calls, (Resolve_by_insertion_sort _ _ _ _ Hsort).
    unfold lengthPrefixTable in Hp. in_cases Hp; vm_compute; reflexivity.
Qed.

End LengthFacts.

(** ** Package std/time *)

Section TimeFacts.
Context `{GoStd}.

Lemma DimTime_not_zero : DimTime <> DimDimensionless.
Proof. unfold DimTime, DimDimensionless. discriminate. Qed.

Lemma time_units_dimension (k : string) (u : Unit) :
  units StdTime.System !! k = Some u -> Unit_Dimension u = DimTime.
Proof.
  change (units StdTime.System) with
    (<["w" := mkUnit "w" DimTime 604800e9]>
       (<["d" := mkUnit "d" DimTime 86400e9]>
          (<["h" := mkUnit "h" DimTime 3600e9]>
             (<["m" := mkUnit "m" DimTime 60e9]>
                (<["s" := mkUnit "s" DimTime 1e9]>
                   (<["ms" := mkUnit "ms" DimTime 1e6]>
                      (<[String "194" (String "181" "s") :=
                           mkUnit (String "194" (String "181" "s")) DimTime 1e3]>
                         (<["us" := mkUnit "us" DimTime 1e3]>
                            (<["ns" := mkUnit "ns" DimTime 1]>
                               (∅ : gmap string Unit)))))))))).
  intros Hk.
  repeat (apply lookup_insert_Some in Hk as [[_ <-]|[_ Hk]]; [reflexivity|]).
  now rewrite lookup_empty in Hk.
Qed.

(** X22. The time package.  Its registry has units and no prefix, so a
    symbol resolves by exact match or not at all (["ms"] is the
    millisecond, never a prefix on the second, and ["m"] is the minute).
    [ParseDuration] rejects a blank input (empty, or separators only) with
    the not-a-duration error - the only way its dimension check fails - and
    on any other input returns what [Parse] returns for an [int64], value or
    error. *)
Theorem time_package (outOfRange : float -> Z) :
  (forall symbol,
     Resolve StdTime.System symbol =
       match units StdTime.System !! symbol with
       | Some u => (u, 1%float, true)
       | None => (zeroUnit, 0%float, false)
       end) /\
  (forall s,
     (safeSkipSeps s "" = "" ->
      StdTime.ParseDuration outOfRange s = Some (0%Z, Some StdTime.ErrNotDuration)) /\
     (safeSkipSeps s "" <> "" ->
      StdTime.ParseDuration outOfRange s =
        match @Parse _ Z (intNumber int64Kind outOfRange) s StdTime.System with
        | Some (val, _, None) => Some (val, None)
        | Some (_, _, Some err) => Some (0%Z, Some (StdTime.ErrParse err))
        | None => None
        end)).
Proof.
  split.
  - intros symbol. reflexivity.
  - intros s. unfold StdTime.ParseDuration. split.
    + intros Hblank. now rewrite Parse_blank.
    + intros Hblank. apply String.eqb_neq in Hblank.
      destruct (@Parse _ Z (intNumber int64Kind outOfRange) s StdTime.System)
        as [[[v d] [err|]]|] eqn:E; simpl; try reflexivity.
      rewrite (Parse_uniform_dimension _ DimTime s v d time_units_dimension
                 DimTime_not_zero E).
      change (Separators (Config StdTime.System)) with "". rewrite Hblank.
      reflexivity.
Qed.

End TimeFacts.

(** * The properties at concrete registries *)

Lemma reversingSort_sorts : @SortSliceSpec reversingSort.
Proof.
  intros ps. destruct (goModel_SortSliceSpec (rev ps)) as [Hperm Hsorted].
  split; [|exact Hsorted].
  etransitivity; [exact Hperm|]. symmetry. apply Permutation_rev.
Qed.

(** A case-insensitive registry: ["m"] finds the unit registered as ["M"]. *)
Lemma Add_then_Resolve_witness :
  @Resolve goModel
    (@Add goModel (NewSystem (mkSystemConfig true true "")) "M" 1 DimLength) "m" =
  (mkUnit "M" DimLength 1, 1%float, true).
Proof.
  exact (proj1 (@Add_then_Resolve goModel (NewSystem (mkSystemConfig true true ""))
                  "M" "m" 1%float DimLength eq_refl)).
Defined.

Lemma AddPrefix_effect_witness :
  whitelisted (@AddPrefix goModel meterSystem "k" 1000 ["m"]).1 "m" "k" = true.
Proof.
  destruct (@AddPrefix_effect goModel meterSystem "k" 1000%float ["m"]
              goModel_SortSliceSpec eq_refl) as (_ & _ & _ & Hw).
  apply Hw. right. split; [reflexivity|].
  exists "m". split; [left; reflexivity|reflexivity].
Defined.

Lemma AddPrefix_idempotent_witness :
  @AddPrefix goModel (@AddPrefix goModel meterSystem "k" 1000 ["m"]).1 "k" 1000 ["m"] =
  ((@AddPrefix goModel meterSystem "k" 1000 ["m"]).1, None).
Proof.
  apply (@AddPrefix_idempotent goModel meterSystem _ "k" 1000%float ["m"]
           goModel_SortSliceSpec eq_refl).
  vm_compute. reflexivity.
Defined.

Lemma registry_invariants_witness :
  is_Some
    (units (@Store.applyOps goModel (NewSystem (mkSystemConfig true false ""))
              [Store.OpAdd "m" 1 DimLength; Store.OpAddPrefix "k" 1000 ["m"]]) !! "m") /\
  is_Some
    (prefixScale
       (@Store.applyOps goModel (NewSystem (mkSystemConfig true false ""))
          [Store.OpAdd "m" 1 DimLength; Store.OpAddPrefix "k" 1000 ["m"]]) "k").
Proof.
  destruct (@registry_invariants goModel (mkSystemConfig true false "")
              [Store.OpAdd "m" 1 DimLength; Store.OpAddPrefix "k" 1000 ["m"]]
              goModel_SortSliceSpec) as (_ & _ & Hw & _).
  apply (Hw "m" "k"). vm_compute. reflexivity.
Defined.

(** Two prefixes of equal length, in the two orders, and the same
    resolution. *)
Lemma Resolve_independent_of_sort_order_witness :
  List.map Prefix_Symbol
    (prefixes (@Store.applyOps goModel (NewSystem (mkSystemConfig true false ""))
                 [Store.OpAdd "B" 8 DimStorage; Store.OpAddPrefix "k" 1024 ["B"];
                  Store.OpAddPrefix "K" 1024 ["B"]])) = ["k"; "K"] /\
  List.map Prefix_Symbol
    (prefixes (@Store.applyOps reversingSort (NewSystem (mkSystemConfig true false ""))
                 [Store.OpAdd "B" 8 DimStorage; Store.OpAddPrefix "k" 1024 ["B"];
                  Store.OpAddPrefix "K" 1024 ["B"]])) = ["K"; "k"] /\
  forall symbol,
    @Resolve goModel
      (@Store.applyOps goModel (NewSystem (mkSystemConfig true false ""))
         [Store.OpAdd "B" 8 DimStorage; Store.OpAddPrefix "k" 1024 ["B"];
          Store.OpAddPrefix "K" 1024 ["B"]]) symbol =
    @Resolve reversingSort
      (@Store.applyOps reversingSort (NewSystem (mkSystemConfig true false ""))
         [Store.OpAdd "B" 8 DimStorage; Store.OpAddPrefix "k" 1024 ["B"];
          Store.OpAddPrefix "K" 1024 ["B"]]) symbol.
Proof.
  split; [vm_compute; reflexivity|]. split; [vm_compute; reflexivity|].
  apply (Resolve_independent_of_sort_order goModel reversingSort
           (mkSystemConfig true false "")
           [Store.OpAdd "B" 8 DimStorage; Store.OpAddPrefix "k" 1024 ["B"];
            Store.OpAddPrefix "K" 1024 ["B"]]).
  - reflexivity.
  - exact goModel_SortSliceSpec.
  - exact reversingSort_sorts.
Defined.

(** "0.5u" into an [int64], in the registry of the generics tests. *)
Lemma Parse_error_values_witness :
  exists k u,
    units createStrictIntSystem !! k = Some u /\
    mkDimension 1 0 0 0 0 0 0 "" = Unit_Dimension u.
Proof.
  refine (proj2 (@Parse_error_values goModel Z int64Number "0.5u"
                   createStrictIntSystem 0%Z (mkDimension 1 0 0 0 0 0 0 "")
                   (ErrPrecisionLoss 0.5%float) _)).
  vm_compute. reflexivity.
Defined.

(** "1h30m" in the registry of the parser tests. *)
Lemma Parse_success_dimension_witness :
  (safeSkipSeps "1h30m" (Separators (Config createTestSystem)) = "" /\
   5400%float = 0%float /\ DimTime = DimDimensionless) \/
  (safeSkipSeps "1h30m" (Separators (Config createTestSystem)) <> "" /\
   exists k u, units createTestSystem !! k = Some u /\ DimTime = Unit_Dimension u).
Proof.
  apply (@Parse_success_dimension goModel float float64Number "1h30m"
           createTestSystem 5400%float DimTime).
  vm_compute. reflexivity.
Defined.

(** "invalid" in the registry of the parser tests. *)
Lemma Parse_invalid_number_witness :
  @Parse goModel float float64Number "invalid" createTestSystem =
    Some (0%float, DimDimensionless, Some ErrInvalidNumber).
Proof.
  apply (proj2 (@Parse_invalid_number goModel float float64Number "invalid"
                  createTestSystem "i"%char "nvalid" eq_refl)).
  reflexivity.
Defined.

(** "1EB" in the storage registry: the exa prefix right after a digit is
    read as an exponent marker. *)
Lemma exponent_marker_is_greedy_witness :
  @Parse goModel float float64Number "1EB" (@StdStorage.System goModel) =
    Some (0%float, DimDimensionless, Some (ErrParseFloat "1E")).
Proof.
  refine (proj2 (@exponent_marker_is_greedy goModel float float64Number
                   (@StdStorage.System goModel) "1" "E"%char "B" _ _ _ _) _).
  - discriminate.
  - intros d [<-|[]]. reflexivity.
  - right. reflexivity.
  - intros c' t' [= <- <-]. repeat split; discriminate.
  - vm_compute. reflexivity.
Defined.

(** "1h30m" in the registry of the parser tests: 3600 + 1800. *)
Lemma Parse_sums_the_parts_witness :
  @Parse goModel float float64Number "1h30m" createTestSystem =
    Some (fold_left PrimFloat.add [3600%float; 1800%float] 0%float, DimTime, None).
Proof.
  apply (@Parse_sums_the_parts goModel float float64Number "1h30m" createTestSystem
           [(1%float, mkUnit "h" DimTime 3600, 1%float);
            (30%float, mkUnit "m" DimTime 60, 1%float)]
           [3600%float; 1800%float] DimTime).
  - refine (scansParts_cons _ "1h30m" _ _ _ "30m" _ _ _).
    + exists "h30m", "h". vm_compute. repeat split. discriminate.
    + refine (scansParts_cons _ "30m" _ _ _ "" _ _ (scansParts_nil _)).
      exists "m", "m". vm_compute. repeat split. discriminate.
  - left. reflexivity.
  - repeat constructor.
  - repeat constructor.
Defined.

(** "KiB" in the storage registry. *)
Lemma storage_prefix_table_witness :
  @Resolve goModel (@StdStorage.System goModel) "KiB" =
    (mkUnit "B" DimStorage 8, 1024%float, true).
Proof.
  apply (proj2 (@storage_prefix_table goModel goModel_SortSliceSpec)
           "Ki" 1024%float "B" 8%float).
  - left. reflexivity.
  - do 3 right. left. reflexivity.
Defined.

(** "km" in the length registry. *)
Lemma length_package_witness :
  @Resolve goModel (@StdLength.System goModel) "km" =
    (mkUnit "m" DimLength 1, 1000%float, true).
Proof.
  apply (proj2 (proj2 (@length_package goModel goModel_SortSliceSpec)) "k" 1000%float).
  do 5 right. left. reflexivity.
Defined.
